(** * Petalbyte backup manager: orchestration, retention and single-flight

    A shallow embedding of the backup orchestrator
    ([backend/app/core/backup_engine.py]), the snapshot manager
    ([backend/app/core/snapshot.py]), the retention code
    ([backend/app/core/cleanup.py]), the verification helper
    ([backend/app/core/verification.py]), the SSH executor
    ([backend/app/core/ssh_manager.py]) and the start endpoint
    ([backend/app/api/backup.py]).

    The Python code is asynchronous and talks to a database, to the local
    file system and to a remote host.  It is embedded as a state-and-exception
    monad over a [World]; everything the code cannot decide by itself
    (clock readings, connection failures, subprocess return codes, the moment
    a cancel request is served) is read from an environment [Env], indexed by
    a logical time that advances at every interaction. *)

From Stdlib Require Import String Ascii List Bool Arith ZArith PArith QArith Qround Lia Lqa.
Import ListNotations.
Local Close Scope Q_scope.
Local Open Scope list_scope.
Local Open Scope nat_scope.
Local Open Scope string_scope.

(* ------------------------------------------------------------------ *)
(** ** Strings, as the code uses them *)

Module Str.

(** [s.startswith(p)] *)
Fixpoint startswith (s p : string) : bool :=
  match p with
  | EmptyString => true
  | String b p' =>
      match s with
      | EmptyString => false
      | String a s' => Ascii.eqb a b && startswith s' p'
      end
  end.

(** [s.endswith(suf)] *)
Fixpoint endswith (s suf : string) : bool :=
  if String.eqb s suf then true
  else match s with
       | EmptyString => false
       | String _ s' => endswith s' suf
       end.

(** [s.count(c)] for a one-character needle *)
Fixpoint count (s : string) (c : ascii) : nat :=
  match s with
  | EmptyString => 0%nat
  | String a s' => ((if Ascii.eqb a c then 1 else 0) + count s' c)%nat
  end.

(** The rest of [s] after the prefix [p], when [s] starts with [p]. *)
Fixpoint strip_prefix (s p : string) : option string :=
  match p with
  | EmptyString => Some s
  | String b p' =>
      match s with
      | EmptyString => None
      | String a s' => if Ascii.eqb a b then strip_prefix s' p' else None
      end
  end.

(** The part of [s] before its first slash. *)
Fixpoint until_slash (s : string) : string :=
  match s with
  | EmptyString => EmptyString
  | String a s' => if Ascii.eqb a "/" then EmptyString else String a (until_slash s')
  end.

Definition is_digit (a : ascii) : bool :=
  ((48 <=? nat_of_ascii a) && (nat_of_ascii a <=? 57))%nat.

Fixpoint all_digits (s : string) : bool :=
  match s with
  | EmptyString => true
  | String a s' => is_digit a && all_digits s'
  end.

(** Python truthiness of a string. *)
Definition truthy (s : string) : bool :=
  match s with EmptyString => false | _ => true end.

(** ASCII case folding, as SQLite's LIKE applies it. *)
Definition lower (a : ascii) : ascii :=
  let n := nat_of_ascii a in
  if ((65 <=? n) && (n <=? 90))%nat then ascii_of_nat (n + 32)%nat else a.

(** SQLite's [text LIKE pattern]: [%] matches any run of characters,
    [_] any one character, everything else itself up to ASCII case. *)
Fixpoint like (pattern : string) : string -> bool :=
  match pattern with
  | EmptyString => fun text => match text with EmptyString => true | _ => false end
  | String p pattern' =>
      if Ascii.eqb p "%" then
        fix star (text : string) : bool :=
          like pattern' text ||
          match text with
          | EmptyString => false
          | String _ text' => star text'
          end
      else if Ascii.eqb p "_" then
        fun text => match text with
                    | EmptyString => false
                    | String _ text' => like pattern' text'
                    end
      else
        fun text => match text with
                    | EmptyString => false
                    | String c text' => Ascii.eqb (lower p) (lower c) && like pattern' text'
                    end
  end.

End Str.

(** [s.split(c)] for a one-character separator. *)
Fixpoint split_on (c : ascii) (s : string) : list string :=
  match s with
  | EmptyString => [EmptyString]
  | String a s' =>
      if Ascii.eqb a c then EmptyString :: split_on c s'
      else match split_on c s' with
           | [] => [String a EmptyString]
           | p :: ps => String a p :: ps
           end
  end.

(** [pathlib.PurePosixPath]: a path is its root and its components; empty
    components and [.] are dropped, two leading slashes (and only two) are
    kept. *)
Module PosixPath.

Definition root (s : string) : string :=
  if Str.startswith s "//" && negb (Str.startswith s "///") then "//"
  else if Str.startswith s "/" then "/"
  else "".

Definition parts (s : string) : list string :=
  filter (fun x => negb (String.eqb x "" || String.eqb x "."))
         (split_on "/" s).

(** [str(entry)] for the entry [name] that [Path(s).iterdir()] yields. *)
Definition child (s name : string) : string :=
  root s ++ String.concat "/" (parts s ++ [name]).

End PosixPath.

(* ------------------------------------------------------------------ *)
(** ** Data model ([models.py], [database.py], [snapshot.py], [config.py]) *)

Inductive BackupType : Type := FULL | INCREMENTAL.

Definition BackupType_value (t : BackupType) : string :=
  match t with FULL => "full" | INCREMENTAL => "incremental" end.

Definition BackupType_eqb (a b : BackupType) : bool :=
  match a, b with
  | FULL, FULL | INCREMENTAL, INCREMENTAL => true
  | _, _ => false
  end.

Inductive BackupStatus : Type :=
  PENDING | RUNNING | SUCCESS | FAILED | PARTIAL | CANCELLED.

(** The fields of [Settings] that the modelled code reads. *)
Module Settings.
Record t : Type := mk {
  client_name : string;
  months_to_keep : nat;
  daily_incremental_days : nat;
  local_snapshot_days : nat;
  unraid_tailscale_name : string;
  unraid_base_path : string;
  snapshot_dir : string;
  use_tailscale : bool;
  host_root : string;
  host_home : string
}.
End Settings.

(** A row of [sent_snapshots].  [id] is SQLite's integer primary key, which
    starts at 1; times are seconds as rationals. *)
Module SentSnapshot.
Record t : Type := mk {
  id : positive;
  snapshot_path : string;
  remote_path : string;
  sent_at : Q;
  size_bytes : Z;
  backup_type : string;
  parent_snapshot : option string
}.
End SentSnapshot.

(** [snapshot.Snapshot] *)
Module Snapshot.
Record t : Type := mk {
  subvolume : string;
  path : string;
  timestamp : string;
  mount_point : string
}.
End Snapshot.

(** [models.BackupProgress] *)
Module BackupProgress.
Record t : Type := mk {
  current_step : string;
  total_steps : nat;
  current_step_num : nat;
  percentage : Q;
  current_file : option string;
  speed_mbps : option Q
}.
End BackupProgress.

(** The dictionary that [_backup_snapshot] returns for one subvolume; a key
    that is absent is [None]. *)
Module SubResult.
Record t : Type := mk {
  success : bool;
  error : option string;
  size : option Z;
  verified : option bool;
  backup_type : option string;
  remote_path : option string;
  subvolume : option string;
  snapshot : option string;
  parent : option string
}.
End SubResult.

(** [models.BackupResult] *)
Module BackupResult.
Record t : Type := mk {
  backup_id : Z;
  status : BackupStatus;
  backup_type : BackupType;
  size_bytes : option Z;
  error_message : option string;
  subvolumes : list (string * SubResult.t)
}.
End BackupResult.

(** A row of [backup_history]. *)
Module BackupHistory.
Record t : Type := mk {
  id : positive;
  backup_type : string;
  status : BackupStatus;
  size_bytes : option Z;
  error_message : option string
}.
End BackupHistory.

(** A file on the remote host. *)
Module RemoteFile.
Record t : Type := mk {
  path : string;
  mtime : Z;
  size : Z
}.
End RemoteFile.

(** An entry of the local snapshot directory. *)
Module DirEntry.
Record t : Type := mk {
  name : string;
  is_dir : bool;
  st_ctime : Q
}.
End DirEntry.

(** What [datetime.now()] gives: the POSIX timestamp, the naive local
    date-time as seconds on the calendar's own scale (what a comparison of
    naive date-times compares), the day of the month and the three
    [strftime] renderings the code asks for. *)
Module DateTime.
Record t : Type := mk {
  timestamp : Q;
  wall : Q;
  day : nat;
  Ym : string;
  Ymd : string;
  Ymd_HMS : string
}.
End DateTime.

(** The shell commands the code sends through [SSHManager.execute_command]. *)
Inductive Command : Type :=
| FindArtifacts (base_path : string)
    (* find 'base' -name '*.btrfs.gpg' -type f || true *)
| StatMtime (path : string)
    (* stat -c %Y 'path' *)
| RmFile (path : string)
    (* rm -f 'path' *)
| ListMonths (base_path : string)
    (* ls -1 'base' | grep -E '^[0-9]{6}$' | sort -r || true *)
| RmTree (path : string)
    (* rm -rf 'path' *)
| FindDeleteOlder (dir : string) (days : nat)
    (* find 'dir' -name '*.btrfs.gpg' -mtime +days -delete || true *)
| Mkdir (path : string)
    (* mkdir -p 'path' *)
| StatSize (path : string).
    (* if [ -f 'path' ]; then stat -c '%s' 'path'; else echo 'NOT_FOUND'; fi *)

(** Writes to the ledger, in the words of the SQL the code sends. *)
Inductive Statement : Type :=
| InsertSent (row : SentSnapshot.t)
| DeleteLike (pattern : string)
| DeleteIncrementalBefore (cutoff : Q).

(** The trace of a run: remote commands and ledger commits, newest first. *)
Inductive Event : Type :=
| Ssh (c : Command) (connected : bool)
| Commit (s : Statement).

(* ------------------------------------------------------------------ *)
(** ** The world and the monad *)

(** The outcome of a Python call: a value or a raised exception (its
    message). *)
Inductive result (A : Type) : Type :=
| Return (a : A)
| Raise (e : string).
Arguments Return {A} a.
Arguments Raise {A} e.

(** Standard output of a remote command: lines of text, or a decimal
    number (what [int(stdout.strip())] accepts). *)
Inductive Stdout : Type :=
| Lines (l : list string)
| Int (n : Z).

(** Everything outside the program's control, by logical time. *)
Record Env : Type := {
  now : nat -> DateTime.t;               (* datetime.now() *)
  utcnow : nat -> Q;                     (* datetime.utcnow() *)
  remote_now : nat -> Z;                 (* the remote host's clock *)
  cancel_arrives : nat -> bool;          (* DELETE /backup/cancel is served during this await *)
  ssh_connects : nat -> bool;            (* asyncssh.connect and run succeed *)
  db_error : nat -> option string;       (* the database statement raises *)
  tailscale_status : nat -> result string; (* outcome of `tailscale status --json` and its parse *)
  btrfs_snapshot_ok : nat -> bool;       (* `btrfs subvolume snapshot -r` returns 0 *)
  btrfs_delete_ok : nat -> bool;         (* `btrfs subvolume delete` returns 0 *)
  pipeline : nat -> option Z;            (* send | gzip | gpg > temp: size of temp, None on failure *)
  transfer : nat -> bool * option Z;     (* cat | ssh cat >: return code 0?, size left at the remote path *)
  callback_error : nat -> option string  (* a progress callback raises *)
}.

Record World : Type := mkWorld {
  tick : nat;
  sent_snapshots : list SentSnapshot.t;
  backup_history : list BackupHistory.t;
  remote : list RemoteFile.t;
  snapshot_entries : option (list DirEntry.t);
  cancel_requested : bool;
  current_backup : option BackupProgress.t;
  progress_callbacks : nat;
  run_result : BackupResult.t;
  log : list Event;
  remote_dirs : list string
}.

Definition with_tick (x : nat) (w : World) : World :=
  mkWorld x (sent_snapshots w) (backup_history w) (remote w) (snapshot_entries w) (cancel_requested w) (current_backup w) (progress_callbacks w) (run_result w) (log w) (remote_dirs w).
Definition with_sent_snapshots (x : list SentSnapshot.t) (w : World) : World :=
  mkWorld (tick w) x (backup_history w) (remote w) (snapshot_entries w) (cancel_requested w) (current_backup w) (progress_callbacks w) (run_result w) (log w) (remote_dirs w).
Definition with_backup_history (x : list BackupHistory.t) (w : World) : World :=
  mkWorld (tick w) (sent_snapshots w) x (remote w) (snapshot_entries w) (cancel_requested w) (current_backup w) (progress_callbacks w) (run_result w) (log w) (remote_dirs w).
Definition with_remote (x : list RemoteFile.t) (w : World) : World :=
  mkWorld (tick w) (sent_snapshots w) (backup_history w) x (snapshot_entries w) (cancel_requested w) (current_backup w) (progress_callbacks w) (run_result w) (log w) (remote_dirs w).
Definition with_snapshot_entries (x : option (list DirEntry.t)) (w : World) : World :=
  mkWorld (tick w) (sent_snapshots w) (backup_history w) (remote w) x (cancel_requested w) (current_backup w) (progress_callbacks w) (run_result w) (log w) (remote_dirs w).
Definition with_cancel_requested (x : bool) (w : World) : World :=
  mkWorld (tick w) (sent_snapshots w) (backup_history w) (remote w) (snapshot_entries w) x (current_backup w) (progress_callbacks w) (run_result w) (log w) (remote_dirs w).
Definition with_current_backup (x : option BackupProgress.t) (w : World) : World :=
  mkWorld (tick w) (sent_snapshots w) (backup_history w) (remote w) (snapshot_entries w) (cancel_requested w) x (progress_callbacks w) (run_result w) (log w) (remote_dirs w).
Definition with_progress_callbacks (x : nat) (w : World) : World :=
  mkWorld (tick w) (sent_snapshots w) (backup_history w) (remote w) (snapshot_entries w) (cancel_requested w) (current_backup w) x (run_result w) (log w) (remote_dirs w).
Definition with_run_result (x : BackupResult.t) (w : World) : World :=
  mkWorld (tick w) (sent_snapshots w) (backup_history w) (remote w) (snapshot_entries w) (cancel_requested w) (current_backup w) (progress_callbacks w) x (log w) (remote_dirs w).
Definition with_log (x : list Event) (w : World) : World :=
  mkWorld (tick w) (sent_snapshots w) (backup_history w) (remote w) (snapshot_entries w) (cancel_requested w) (current_backup w) (progress_callbacks w) (run_result w) x (remote_dirs w).
Definition with_remote_dirs (x : list string) (w : World) : World :=
  mkWorld (tick w) (sent_snapshots w) (backup_history w) (remote w) (snapshot_entries w) (cancel_requested w) (current_backup w) (progress_callbacks w) (run_result w) (log w) x.

Definition M (A : Type) : Type := World -> result A * World.

Definition ret {A : Type} (a : A) : M A := fun w => (Return a, w).

Definition raise {A : Type} (e : string) : M A := fun w => (Raise e, w).

Definition bind {A B : Type} (m : M A) (k : A -> M B) : M B :=
  fun w => match m w with
           | (Return a, w') => k a w'
           | (Raise e, w') => (Raise e, w')
           end.

(** [try: m  except Exception as e: h e] *)
Definition try_except {A : Type} (m : M A) (h : string -> M A) : M A :=
  fun w => match m w with
           | (Return a, w') => (Return a, w')
           | (Raise e, w') => h e w'
           end.

(** [try: m  finally: f] *)
Definition try_finally {A : Type} (m : M A) (f : M unit) : M A :=
  fun w => match m w with
           | (r, w') => match f w' with
                        | (Return _, w'') => (r, w'')
                        | (Raise e, w'') => (Raise e, w'')
                        end
           end.

Definition get {A : Type} (f : World -> A) : M A := fun w => (Return (f w), w).

Definition modify (f : World -> World) : M unit := fun w => (Return tt, f w).

Notation "x <- c1 ;; c2" := (bind c1 (fun x => c2))
  (at level 61, c1 at next level, right associativity).
Notation "c1 ;; c2" := (bind c1 (fun _ => c2))
  (at level 61, right associativity).

Definition is_some {A : Type} (o : option A) : bool :=
  match o with Some _ => true | None => false end.

(** [a < b] on timestamps. *)
Definition Qltb (a b : Q) : bool := negb (Qle_bool b a).

(** [days * 86400] seconds. *)
Definition days_seconds (days : nat) : Q := inject_Z (Z.of_nat days * 86400).

(** ** Primitive interactions *)

Section Primitives.
Variable env : Env.

(** A point where the coroutine yields.  Logical time advances, and a cancel
    request served meanwhile sets the flag ([cancel_backup]); the endpoint
    answers 404 without touching the flag when no progress is published. *)
Definition await : M nat :=
  fun w =>
    let t := tick w in
    let w1 := with_tick (S t) w in
    (Return t,
     if cancel_arrives env t && is_some (current_backup w1)
     then with_cancel_requested true w1 else w1).

(** A clock reading; it takes time but does not yield. *)
Definition reading : M nat :=
  fun w => (Return (tick w), with_tick (S (tick w)) w).

Definition datetime_now : M DateTime.t := t <- reading ;; ret (now env t).

Definition datetime_utcnow : M Q := t <- reading ;; ret (utcnow env t).

Definition emit (e : Event) : M unit := modify (fun w => with_log (e :: log w) w).

(** One awaited database call; it raises what the environment says. *)
Definition db_await : M unit :=
  t <- await ;;
  match db_error env t with
  | Some e => raise e
  | None => ret tt
  end.

End Primitives.

(* ------------------------------------------------------------------ *)
(** ** The sent-ledger: the SQL statements the code sends *)

Module Ledger.

Definition table : Type := list SentSnapshot.t.

(** SQLite's next integer primary key: one more than the largest. *)
Definition next_id (l : table) : positive :=
  fold_right (fun r acc => Pos.max (Pos.succ (SentSnapshot.id r)) acc) 1%positive l.

(** [SELECT id FROM sent_snapshots WHERE snapshot_path = ?], then [scalar()] *)
Definition select_id (l : table) (p : string) : option positive :=
  match filter (fun r => String.eqb (SentSnapshot.snapshot_path r) p) l with
  | [] => None
  | r :: _ => Some (SentSnapshot.id r)
  end.

(** [SELECT remote_path FROM sent_snapshots] *)
Definition remote_paths (l : table) : list string := map SentSnapshot.remote_path l.

(** [DELETE FROM sent_snapshots WHERE remote_path LIKE ?] *)
Definition delete_like (pattern : string) (l : table) : table :=
  filter (fun r => negb (Str.like pattern (SentSnapshot.remote_path r))) l.

(** [DELETE FROM sent_snapshots WHERE backup_type = 'incremental' AND sent_at < ?] *)
Definition delete_incremental_before (cutoff : Q) (l : table) : table :=
  filter (fun r => negb (String.eqb (SentSnapshot.backup_type r) "incremental"
                         && Qltb (SentSnapshot.sent_at r) cutoff)) l.

(** Number of rows recorded for a local snapshot path. *)
Definition rows_for (l : table) (p : string) : nat :=
  length (filter (fun r => String.eqb (SentSnapshot.snapshot_path r) p) l).

End Ledger.

Section Database.
Variable env : Env.

(** The row count of [sent_snapshots] ([SELECT COUNT]). *)
Definition count_sent : M nat :=
  db_await env ;; get (fun w => length (sent_snapshots w)).

Definition query_sent_id (p : string) : M (option positive) :=
  db_await env ;; get (fun w => Ledger.select_id (sent_snapshots w) p).

Definition query_remote_paths : M (list string) :=
  db_await env ;; get (fun w => Ledger.remote_paths (sent_snapshots w)).

(** [session.add(sent); await session.commit()]: [snapshot_path] is unique. *)
Definition insert_sent (snapshot_path remote_path : string) (sent_at : Q) (size : Z)
           (backup_type : string) (parent : option string) : M unit :=
  db_await env ;;
  l <- get sent_snapshots ;;
  match Ledger.select_id l snapshot_path with
  | Some _ => raise "IntegrityError: UNIQUE constraint failed: sent_snapshots.snapshot_path"
  | None =>
      let row := SentSnapshot.mk (Ledger.next_id l) snapshot_path remote_path sent_at size
                                 backup_type parent in
      modify (fun w => with_sent_snapshots (sent_snapshots w ++ [row])%list w) ;;
      emit (Commit (InsertSent row))
  end.

(** [await session.execute("DELETE ...", ...); await session.commit()] *)
Definition execute_delete_like (pattern : string) : M unit :=
  db_await env ;;
  db_await env ;;
  modify (fun w => with_sent_snapshots (Ledger.delete_like pattern (sent_snapshots w)) w) ;;
  emit (Commit (DeleteLike pattern)).

Definition execute_delete_incremental_before (cutoff : Q) : M unit :=
  db_await env ;;
  db_await env ;;
  modify (fun w => with_sent_snapshots
                     (Ledger.delete_incremental_before cutoff (sent_snapshots w)) w) ;;
  emit (Commit (DeleteIncrementalBefore cutoff)).

End Database.

(* ------------------------------------------------------------------ *)
(** ** The remote host: what the shell commands do to its files *)

Module Remote.

Definition files : Type := list RemoteFile.t.

(** [path] lies below directory [dir]. *)
Definition under (dir path : string) : bool := Str.startswith path (dir ++ "/").

(** [-name '*.btrfs.gpg'] *)
Definition is_artifact (path : string) : bool := Str.endswith path ".btrfs.gpg".

(** [-mtime +days]: the age in whole 24-hour periods exceeds [days]. *)
Definition mtime_over (tnow : Z) (days : nat) (f : RemoteFile.t) : bool :=
  (Z.of_nat days <? (tnow - RemoteFile.mtime f) / 86400)%Z.

Definition lookup (fs : files) (p : string) : option RemoteFile.t :=
  find (fun f => String.eqb (RemoteFile.path f) p) fs.

Definition exists_path (fs : files) (p : string) : bool := is_some (lookup fs p).

(** [grep -E '^[0-9]{6}$'] *)
Definition is_month (s : string) : bool :=
  Nat.eqb (String.length s) 6 && Str.all_digits s.

Fixpoint insert_desc (s : string) (l : list string) : list string :=
  match l with
  | [] => [s]
  | x :: l' => if String.eqb s x then l
               else if String.ltb x s then s :: l
               else x :: insert_desc s l'
  end.

(** The directory a path lies in: the path up to its last slash. *)
Fixpoint dirname (p : string) : string :=
  match p with
  | EmptyString => EmptyString
  | String a p' =>
      if Nat.eqb (Str.count p' "/") 0 then EmptyString else String a (dirname p')
  end.

(** [p] is [dir] or lies below it. *)
Definition within (dir p : string) : bool := String.eqb p dir || under dir p.

Definition add_dir (d : string) (ds : list string) : list string :=
  if existsb (String.eqb d) ds then ds else (ds ++ [d])%list.

(** The name that [ls -1 base] prints for a path below [base], when [grep]
    lets it through. *)
Definition month_of (base p : string) : option string :=
  match Str.strip_prefix p (base ++ "/") with
  | Some rest => let d := Str.until_slash rest in
                 if is_month d then Some d else None
  | None => None
  end.

(** What [ls -1 base | grep -E '^[0-9]{6}$' | sort -r] prints: the entries
    of [base] with a month's name, newest first.  An entry of [base] is the
    first component of a file below [base] or of a directory below [base],
    with or without anything in it. *)
Definition month_dirs (base : string) (fs : files) (ds : list string) : list string :=
  fold_right
    (fun p acc =>
       match month_of base p with
       | Some d => insert_desc d acc
       | None => acc
       end)
    [] (map RemoteFile.path fs ++ ds)%list.

(** [mkdir -p p] fails when [p] or a directory above it is a file. *)
Definition in_the_way (p : string) (fs : files) : bool :=
  existsb (fun f => within (RemoteFile.path f) p) fs.

(** Exit status is zero?, standard output, and the files afterwards.  [ds]
    are the directories that exist whatever files they hold. *)
Definition run (c : Command) (tnow : Z) (fs : files) (ds : list string)
  : bool * Stdout * files :=
  match c with
  | FindArtifacts base =>
      (true,
       Lines (map RemoteFile.path
                  (filter (fun f => under base (RemoteFile.path f)
                                    && is_artifact (RemoteFile.path f)) fs)),
       fs)
  | StatMtime p =>
      match lookup fs p with
      | Some f => (true, Int (RemoteFile.mtime f), fs)
      | None => (false, Lines [], fs)
      end
  | RmFile p =>
      (true, Lines [], filter (fun f => negb (String.eqb (RemoteFile.path f) p)) fs)
  | ListMonths base => (true, Lines (month_dirs base fs ds), fs)
  | RmTree p =>
      (true, Lines [],
       filter (fun f => negb (String.eqb (RemoteFile.path f) p || under p (RemoteFile.path f))) fs)
  | FindDeleteOlder dir days =>
      (true, Lines [],
       filter (fun f => negb (under dir (RemoteFile.path f)
                              && is_artifact (RemoteFile.path f)
                              && mtime_over tnow days f)) fs)
  | Mkdir p => (negb (in_the_way p fs), Lines [], fs)
  | StatSize p =>
      match lookup fs p with
      | Some f => (true, Int (RemoteFile.size f), fs)
      | None => (true, Lines ["NOT_FOUND"], fs)
      end
  end.

(** The directories afterwards: [mkdir -p] makes one, [rm -rf] removes
    those at and below its path, and the directory of a removed file or
    tree stays. *)
Definition dirs_after (c : Command) (tnow : Z) (fs : files) (ds : list string)
  : list string :=
  match c with
  | Mkdir p => if in_the_way p fs then ds else add_dir p ds
  | RmFile p => if exists_path fs p then add_dir (dirname p) ds else ds
  | RmTree p =>
      let others := filter (fun d => negb (within p d)) ds in
      if existsb (fun f => within p (RemoteFile.path f)) fs || existsb (within p) ds
      then add_dir (dirname p) others else others
  | FindDeleteOlder dir days =>
      fold_left (fun acc f => add_dir (dirname (RemoteFile.path f)) acc)
                (filter (fun f => under dir (RemoteFile.path f)
                                  && is_artifact (RemoteFile.path f)
                                  && mtime_over tnow days f) fs)
                ds
  | _ => ds
  end.

(** What a transfer leaves at [p]: a file of [n] bytes, or nothing new. *)
Definition write (p : string) (tnow : Z) (n : option Z) (fs : files) : files :=
  match n with
  | Some sz =>
      (filter (fun f => negb (String.eqb (RemoteFile.path f) p)) fs
       ++ [RemoteFile.mk p tnow sz])%list
  | None => fs
  end.

End Remote.

(* ------------------------------------------------------------------ *)
(** ** SSHManager *)

Module SshResult.
Record t : Type := mk {
  success : bool;
  stdout : Stdout
}.
End SshResult.

Section SSHManager.
Variable env : Env.

(** [execute_command]: any exception of the connection is caught and
    reported as [success = False]. *)
Definition execute_command (c : Command) : M SshResult.t :=
  t <- await env ;;
  if ssh_connects env t then
    fs <- get remote ;;
    ds <- get remote_dirs ;;
    match Remote.run c (remote_now env t) fs ds with
    | (ok, out, fs') =>
        modify (with_remote fs') ;;
        modify (with_remote_dirs (Remote.dirs_after c (remote_now env t) fs ds)) ;;
        emit (Ssh c true) ;;
        ret (SshResult.mk ok out)
    end
  else
    emit (Ssh c false) ;;
    ret (SshResult.mk false (Lines [])).

Definition create_remote_directory (path : string) : M SshResult.t :=
  execute_command (Mkdir path).

Definition delete_remote_file (path : string) : M SshResult.t :=
  execute_command (RmFile path).

(** [check_remote_file]: [None] is [{"exists": False}], [Some n] is
    [{"exists": True, "size": n}]. *)
Definition check_remote_file (path : string) : M (option Z) :=
  r <- execute_command (StatSize path) ;;
  if SshResult.success r then
    match SshResult.stdout r with
    | Int n => ret (Some n)
    | Lines _ => ret None
    end
  else ret None.

(** [VerificationManager.verify_remote_file]: the ["matches"] entry. *)
Definition verify_remote_file (remote_path : string) (expected_size : Z) : M bool :=
  r <- check_remote_file remote_path ;;
  match r with
  | None => ret false
  | Some actual_size => ret (Z.eqb actual_size expected_size)
  end.

End SSHManager.

(* ------------------------------------------------------------------ *)
(** ** SnapshotManager ([snapshot.py]) *)

Section SnapshotManager.
Variable env : Env.
Variable settings : Settings.t.

(** [self.subvolumes], fixed in [__init__]. *)
Definition subvolumes : list (string * string) :=
  [("@", Settings.host_root settings); ("@home", Settings.host_home settings)].

(** [str(entry)] for an entry of the snapshot directory, which
    [Path(self.settings.snapshot_dir).iterdir()] yields. *)
Definition entry_path (e : DirEntry.t) : string :=
  PosixPath.child (Settings.snapshot_dir settings) (DirEntry.name e).

(** The path that the f-string of [_create_snapshot] spells for an entry. *)
Definition created_path (e : DirEntry.t) : string :=
  Settings.snapshot_dir settings ++ "/" ++ DirEntry.name e.

(** [btrfs] is handed a path of an entry of the snapshot directory in one
    of the two spellings.  The entries that the path names among [l]: those
    whose [str] it is and, when there is none, those for which it is the
    f-string. *)
Definition named (l : list DirEntry.t) (p : string) (e : DirEntry.t) : bool :=
  if existsb (fun x => String.eqb (entry_path x) p) l
  then String.eqb (entry_path e) p
  else String.eqb (created_path e) p.

Definition has_entry (l : list DirEntry.t) (p : string) : bool :=
  existsb (named l p) l.

(** [_create_snapshot]: [None] when btrfs fails or the call raises.  A
    target that exists already counts as a failure. *)
Definition _create_snapshot (subvol_name mount_point timestamp : string)
  : M (option Snapshot.t) :=
  let snapshot_path := Settings.snapshot_dir settings ++ "/" ++ subvol_name ++ "_" ++ timestamp in
  t <- await env ;;
  entries <- get snapshot_entries ;;
  let old := match entries with Some l => l | None => [] end in
  if btrfs_snapshot_ok env t && negb (has_entry old snapshot_path) then
    let e := DirEntry.mk (subvol_name ++ "_" ++ timestamp) true
                         (DateTime.timestamp (now env t)) in
    modify (with_snapshot_entries (Some (old ++ [e])%list)) ;;
    ret (Some (Snapshot.mk subvol_name snapshot_path timestamp mount_point))
  else ret None.

(** [_delete_snapshot] *)
Definition _delete_snapshot (snapshot_path : string) : M bool :=
  t <- await env ;;
  if btrfs_delete_ok env t then
    modify (fun w =>
              with_snapshot_entries
                (option_map (fun l => filter (fun e => negb (named l snapshot_path e)) l)
                            (snapshot_entries w)) w) ;;
    ret true
  else ret false.

Fixpoint delete_all (l : list Snapshot.t) : M unit :=
  match l with
  | [] => ret tt
  | s :: l' => _delete_snapshot (Snapshot.path s) ;; delete_all l'
  end.

Fixpoint create_loop (subvols : list (string * string)) (timestamp : string)
         (snapshots : list Snapshot.t) : M (list Snapshot.t) :=
  match subvols with
  | [] => ret snapshots
  | (subvol_name, mount_point) :: rest =>
      snapshot <- _create_snapshot subvol_name mount_point timestamp ;;
      match snapshot with
      | Some s => create_loop rest timestamp (snapshots ++ [s])%list
      | None =>
          delete_all snapshots ;;
          raise ("Failed to create snapshot for " ++ subvol_name)
      end
  end.

(** [create_snapshots] *)
Definition create_snapshots : M (list Snapshot.t) :=
  d <- datetime_now env ;;
  create_loop subvolumes (DateTime.Ymd_HMS d) [].

(** [snapshot_dir.iterdir()] *)
Definition iterdir : M (list DirEntry.t) :=
  entries <- get snapshot_entries ;;
  match entries with
  | Some l => ret l
  | None => raise "FileNotFoundError"
  end.

Fixpoint insert_by_name_desc (e : DirEntry.t) (l : list DirEntry.t) : list DirEntry.t :=
  match l with
  | [] => [e]
  | x :: l' => if String.ltb (DirEntry.name x) (DirEntry.name e) then e :: l
               else x :: insert_by_name_desc e l'
  end.

(** [snapshots.sort(key=lambda x: x.name, reverse=True)] *)
Definition sort_by_name_desc (l : list DirEntry.t) : list DirEntry.t :=
  fold_right insert_by_name_desc [] l.

Fixpoint first_sent (l : list DirEntry.t) : M (option string) :=
  match l with
  | [] => ret None
  | snapshot :: l' =>
      r <- query_sent_id env (entry_path snapshot) ;;
      match r with
      | Some _ => ret (Some (entry_path snapshot))
      | None => first_sent l'
      end
  end.

(** [find_parent_snapshot] *)
Definition find_parent_snapshot (subvolume : string) : M (option string) :=
  entries <- iterdir ;;
  let snapshots :=
    filter (fun e => DirEntry.is_dir e && Str.startswith (DirEntry.name e) (subvolume ++ "_"))
           entries in
  first_sent (sort_by_name_desc snapshots).

(** The directories that [cleanup_old_snapshots] and [list_snapshots] take
    for snapshots. *)
Definition looks_like_snapshot (e : DirEntry.t) : bool :=
  DirEntry.is_dir e && (2 <=? Str.count (DirEntry.name e) "_")%nat.

(** The body of the loop of [cleanup_old_snapshots] for one entry. *)
Definition cleanup_entry (days : nat) (cutoff_time : Q) (entry : DirEntry.t)
           (deleted_count : nat) : M nat :=
  if looks_like_snapshot entry then
    if Qltb (DirEntry.st_ctime entry) cutoff_time then
      r <- query_sent_id env (entry_path entry) ;;
      match r with
      | Some _ =>
          ok <- _delete_snapshot (entry_path entry) ;;
          ret (if ok then S deleted_count else deleted_count)
      | None =>
          d <- datetime_now env ;;
          let double_cutoff := (DateTime.timestamp d - days_seconds (days * 2))%Q in
          if Qltb (DirEntry.st_ctime entry) double_cutoff then
            ok <- _delete_snapshot (entry_path entry) ;;
            ret (if ok then S deleted_count else deleted_count)
          else ret deleted_count
      end
    else ret deleted_count
  else ret deleted_count.

Fixpoint cleanup_loop (days : nat) (cutoff_time : Q) (entries : list DirEntry.t)
         (deleted_count : nat) : M nat :=
  match entries with
  | [] => ret deleted_count
  | entry :: rest =>
      n <- cleanup_entry days cutoff_time entry deleted_count ;;
      cleanup_loop days cutoff_time rest n
  end.

(** [cleanup_old_snapshots] *)
Definition cleanup_old_snapshots (days : nat) : M nat :=
  entries <- get snapshot_entries ;;
  match entries with
  | None => ret 0
  | Some l =>
      d <- datetime_now env ;;
      let cutoff_time := (DateTime.timestamp d - days_seconds days)%Q in
      cleanup_loop days cutoff_time l 0
  end.

End SnapshotManager.

(* ------------------------------------------------------------------ *)
(** ** CleanupManager ([cleanup.py]) *)

(** The text lines of a listing. *)
Definition stdout_lines (out : Stdout) : list string :=
  match out with
  | Lines l => l
  | Int _ => []
  end.

Definition mem (s : string) (l : list string) : bool :=
  existsb (String.eqb s) l.

Section CleanupManager.
Variable env : Env.
Variable settings : Settings.t.

(** [_get_unraid_host] (the same code in [CleanupManager] and
    [BackupEngine]). *)
Definition _get_unraid_host : M string :=
  if negb (Settings.use_tailscale settings) then
    ret (Settings.unraid_tailscale_name settings)
  else
    t <- await env ;;
    match tailscale_status env t with
    | Return host => ret host
    | Raise e => raise e
    end.

(** [f"{unraid_base_path}/{client_name}"] *)
Definition base_path : string :=
  Settings.unraid_base_path settings ++ "/" ++ Settings.client_name settings.

(** The loop body of the orphan sweep: one orphan. *)
Definition sweep_orphan (orphan : string) (deleted_count : nat) : M nat :=
  age_result <- execute_command env (StatMtime orphan) ;;
  if SshResult.success age_result then
    try_except
      (match SshResult.stdout age_result with
       | Int file_time =>
           d <- datetime_now env ;;
           let file_age_hours := ((DateTime.timestamp d - inject_Z file_time) / 3600)%Q in
           if Qltb 1 file_age_hours then
             delete_result <- delete_remote_file env orphan ;;
             ret (if SshResult.success delete_result then S deleted_count else deleted_count)
           else ret deleted_count
       | Lines _ => raise "ValueError"
       end)
      (fun _ => ret deleted_count)
  else ret deleted_count.

Fixpoint sweep_loop (orphaned_files : list string) (deleted_count : nat) : M nat :=
  match orphaned_files with
  | [] => ret deleted_count
  | orphan :: rest =>
      n <- sweep_orphan orphan deleted_count ;;
      sweep_loop rest n
  end.

(** [cleanup_failed_uploads]: [Some (orphaned_files, deleted_files)] on
    success, [None] for [{"success": False, ...}]. *)
Definition cleanup_failed_uploads : M (option (nat * nat)) :=
  try_except
    (_ <- _get_unraid_host ;;
     find_result <- execute_command env (FindArtifacts base_path) ;;
     if negb (SshResult.success find_result) then ret None
     else
       let remote_files := filter Str.truthy (stdout_lines (SshResult.stdout find_result)) in
       sent_files <- query_remote_paths env ;;
       let orphaned_files := filter (fun f => negb (mem f sent_files)) remote_files in
       deleted_count <- sweep_loop orphaned_files 0 ;;
       ret (Some (length orphaned_files, deleted_count)))
    (fun _ => ret None).

(** The loop body of the monthly purge: one month directory. *)
Definition prune_month (month : string) (deleted_months : list string) : M (list string) :=
  let month_path := base_path ++ "/" ++ month in
  execute_delete_like env (month_path ++ "%") ;;
  delete_result <- execute_command env (RmTree month_path) ;;
  ret (if SshResult.success delete_result then (deleted_months ++ [month])%list
       else deleted_months).

Fixpoint prune_loop (months : list string) (deleted_months : list string) : M (list string) :=
  match months with
  | [] => ret deleted_months
  | month :: rest =>
      l <- prune_month month deleted_months ;;
      prune_loop rest l
  end.

(** [cleanup_old_monthly_backups]: [Some (total_months, deleted_months)] on
    success. *)
Definition cleanup_old_monthly_backups : M (option (nat * list string)) :=
  try_except
    (_ <- _get_unraid_host ;;
     list_result <- execute_command env (ListMonths base_path) ;;
     if negb (SshResult.success list_result) then ret None
     else
       let months := filter Str.truthy (stdout_lines (SshResult.stdout list_result)) in
       deleted_months <-
         (if (Settings.months_to_keep settings <? length months)%nat
          then prune_loop (skipn (Settings.months_to_keep settings) months) []
          else ret []) ;;
       ret (Some (length months, deleted_months)))
    (fun _ => ret None).

(** [f"{base}/{client}/{month}/incremental"] *)
Definition incremental_dir (month : string) : string :=
  base_path ++ "/" ++ month ++ "/incremental".

(** [f"{base}/{client}/{month}/full"] *)
Definition full_dir (month : string) : string :=
  base_path ++ "/" ++ month ++ "/full".

(** [cleanup_old_incremental_backups]: the ["success"] entry. *)
Definition cleanup_old_incremental_backups : M bool :=
  try_except
    (_ <- _get_unraid_host ;;
     d <- datetime_now env ;;
     let incremental_path := incremental_dir (DateTime.Ym d) in
     delete_result <-
       execute_command env
         (FindDeleteOlder incremental_path (Settings.daily_incremental_days settings)) ;;
     d' <- datetime_now env ;;
     let cutoff_date :=
       (DateTime.wall d' - days_seconds (Settings.daily_incremental_days settings))%Q in
     execute_delete_incremental_before env cutoff_date ;;
     ret (SshResult.success delete_result))
    (fun _ => ret false).

(** [cleanup_local_snapshots]: the ["deleted_snapshots"] entry. *)
Definition cleanup_local_snapshots : M nat :=
  cleanup_old_snapshots env settings (Settings.local_snapshot_days settings).

End CleanupManager.

(* ------------------------------------------------------------------ *)
(** ** BackupEngine ([backup_engine.py]) *)

(** [subvolume_results[key] = value] on a dictionary kept in insertion
    order. *)
Fixpoint dict_set (d : list (string * SubResult.t)) (key : string) (value : SubResult.t)
  : list (string * SubResult.t) :=
  match d with
  | [] => [(key, value)]
  | (k, v) :: d' =>
      if String.eqb k key then (k, value) :: d' else (k, v) :: dict_set d' key value
  end.

(** The final status, from the values of [subvolume_results]. *)
Definition aggregate_status (results : list (string * SubResult.t)) : BackupStatus :=
  if forallb (fun kv => SubResult.success (snd kv)) results then SUCCESS
  else if existsb (fun kv => SubResult.success (snd kv)) results then PARTIAL
  else FAILED.

Section BackupEngine.
Variable env : Env.
Variable settings : Settings.t.

Fixpoint run_callbacks (n : nat) : M unit :=
  match n with
  | O => ret tt
  | S n' =>
      t <- await env ;;
      match callback_error env t with
      | Some e => raise e
      | None => run_callbacks n'
      end
  end.

(** [_update_progress] *)
Definition _update_progress (step : string) (step_num total_steps : nat) (percentage : Q)
           (current_file : option string) (speed_mbps : option Q) : M unit :=
  modify (with_current_backup
            (Some (BackupProgress.mk step total_steps step_num percentage
                                     current_file speed_mbps))) ;;
  n <- get progress_callbacks ;;
  run_callbacks n.

(** [_determine_backup_type] *)
Definition _determine_backup_type (force_full : bool) : M BackupType :=
  first <- (if force_full then ret true
            else d <- datetime_now env ;; ret (Nat.eqb (DateTime.day d) 1)) ;;
  if (first : bool) then ret FULL
  else
    count <- count_sent env ;;
    ret (if (0 <? count)%nat then INCREMENTAL else FULL).

(** [_is_snapshot_sent] *)
Definition _is_snapshot_sent (snapshot_path : string) : M bool :=
  r <- query_sent_id env snapshot_path ;;
  ret (is_some r).

(** [_record_sent_snapshot] *)
Definition _record_sent_snapshot (snapshot_path remote_path : string) (size : Z)
           (backup_type : BackupType) (parent_snapshot : option string) : M unit :=
  sent_at <- datetime_utcnow env ;;
  insert_sent env snapshot_path remote_path sent_at size
              (BackupType_value backup_type) parent_snapshot.

(** A result dictionary with the ["success"] key only. *)
Definition only_success (b : bool) : SubResult.t :=
  SubResult.mk b None None None None None None None None.

(** [_transfer_with_progress]: the shell copies the scratch file to the
    remote path; whatever arrives is on the remote host afterwards. *)
Definition _transfer_with_progress (remote_file : string) : M SubResult.t :=
  t <- await env ;;
  let (ok, written) := transfer env t in
  modify (fun w => with_remote (Remote.write remote_file (remote_now env t) written (remote w)) w) ;;
  if ok then ret (only_success true)
  else ret (SubResult.mk false (Some "Transfer failed") None None None None None None None).

(** [_send_snapshot] and [_send_incremental_snapshot]: the two differ in the
    producer command and the message only.  The scratch file is local to
    the call and not part of the world. *)
Definition _send (failure : string) (remote_file : string) : M SubResult.t :=
  t <- await env ;;
  match pipeline env t with
  | None => raise failure
  | Some file_size =>
      transfer_result <- _transfer_with_progress remote_file ;;
      if SubResult.success transfer_result then
        matches <- verify_remote_file env remote_file file_size ;;
        ret (SubResult.mk matches None (Some file_size) (Some matches) None None None None None)
      else ret transfer_result
  end.

Definition _send_snapshot (snapshot_path remote_file : string) : M SubResult.t :=
  _send "Backup pipeline failed" remote_file.

Definition _send_incremental_snapshot (snapshot_path parent_path remote_file : string)
  : M SubResult.t :=
  _send "Incremental backup pipeline failed" remote_file.

(** [result["size"]] *)
Definition size_of (r : SubResult.t) : M Z :=
  match SubResult.size r with
  | Some n => ret n
  | None => raise "KeyError: 'size'"
  end.

(** [_perform_full_backup] *)
Definition _perform_full_backup (snapshot : Snapshot.t) : M SubResult.t :=
  d <- datetime_now env ;;
  d' <- datetime_now env ;;
  let remote_dir := full_dir settings (DateTime.Ym d') in
  let remote_file :=
    remote_dir ++ "/" ++ Snapshot.subvolume snapshot ++ "_" ++ DateTime.Ymd d
               ++ "_full.btrfs.gpg" in
  create_remote_directory env remote_dir ;;
  result <- _send_snapshot (Snapshot.path snapshot) remote_file ;;
  (if SubResult.success result then
     size <- size_of result ;;
     _record_sent_snapshot (Snapshot.path snapshot) remote_file size FULL None
   else ret tt) ;;
  ret (SubResult.mk (SubResult.success result) (SubResult.error result)
                    (SubResult.size result) (SubResult.verified result)
                    (Some "full") (Some remote_file)
                    (Some (Snapshot.subvolume snapshot)) None None).

(** [_perform_incremental_backup] *)
Definition _perform_incremental_backup (snapshot : Snapshot.t) (parent_snapshot : string)
  : M SubResult.t :=
  d <- datetime_now env ;;
  d' <- datetime_now env ;;
  let remote_dir := incremental_dir settings (DateTime.Ym d') in
  let remote_file :=
    remote_dir ++ "/" ++ Snapshot.subvolume snapshot ++ "_" ++ DateTime.Ymd d
               ++ "_incremental.btrfs.gpg" in
  create_remote_directory env remote_dir ;;
  result <- _send_incremental_snapshot (Snapshot.path snapshot) parent_snapshot remote_file ;;
  (if SubResult.success result then
     size <- size_of result ;;
     _record_sent_snapshot (Snapshot.path snapshot) remote_file size INCREMENTAL
                           (Some parent_snapshot)
   else ret tt) ;;
  ret (SubResult.mk (SubResult.success result) (SubResult.error result)
                    (SubResult.size result) (SubResult.verified result)
                    (Some "incremental") (Some remote_file)
                    (Some (Snapshot.subvolume snapshot)) None (Some parent_snapshot)).

(** The dictionary of the [except] branch of [_backup_snapshot]. *)
Definition failure_result (snapshot : Snapshot.t) (e : string) : SubResult.t :=
  SubResult.mk false (Some e) None None None None
               (Some (Snapshot.subvolume snapshot)) (Some (Snapshot.path snapshot)) None.

(** [if parent and await self._is_snapshot_sent(parent)] *)
Definition usable_parent (parent : option string) : M bool :=
  match parent with
  | Some p => if Str.truthy p then _is_snapshot_sent p else ret false
  | None => ret false
  end.

(** [_backup_snapshot] *)
Definition _backup_snapshot (snapshot : Snapshot.t) (backup_type : BackupType)
  : M SubResult.t :=
  try_except
    (match backup_type with
     | FULL => _perform_full_backup snapshot
     | INCREMENTAL =>
         parent <- find_parent_snapshot env settings (Snapshot.subvolume snapshot) ;;
         ok <- usable_parent parent ;;
         match parent, ok with
         | Some p, true => _perform_incremental_backup snapshot p
         | _, _ => _perform_full_backup snapshot
         end
     end)
    (fun e => ret (failure_result snapshot e)).

(** [if self.cancel_requested: raise Exception("Backup cancelled by user")] *)
Definition check_cancel : M unit :=
  c <- get cancel_requested ;;
  if c then raise "Backup cancelled by user" else ret tt.

Definition set_status (s : BackupStatus) : M unit :=
  modify (fun w =>
            let r := run_result w in
            with_run_result
              (BackupResult.mk (BackupResult.backup_id r) s (BackupResult.backup_type r)
                               (BackupResult.size_bytes r) (BackupResult.error_message r)
                               (BackupResult.subvolumes r)) w).

Definition set_backup_type (t : BackupType) : M unit :=
  modify (fun w =>
            let r := run_result w in
            with_run_result
              (BackupResult.mk (BackupResult.backup_id r) (BackupResult.status r) t
                               (BackupResult.size_bytes r) (BackupResult.error_message r)
                               (BackupResult.subvolumes r)) w).

Definition set_error_message (e : string) : M unit :=
  modify (fun w =>
            let r := run_result w in
            with_run_result
              (BackupResult.mk (BackupResult.backup_id r) (BackupResult.status r)
                               (BackupResult.backup_type r) (BackupResult.size_bytes r)
                               (Some e) (BackupResult.subvolumes r)) w).

Definition set_totals (total_size : Z) (results : list (string * SubResult.t)) : M unit :=
  modify (fun w =>
            let r := run_result w in
            with_run_result
              (BackupResult.mk (BackupResult.backup_id r) (BackupResult.status r)
                               (BackupResult.backup_type r) (Some total_size)
                               (BackupResult.error_message r) results) w).

Definition set_backup_id (i : Z) : M unit :=
  modify (fun w =>
            let r := run_result w in
            with_run_result
              (BackupResult.mk i (BackupResult.status r) (BackupResult.backup_type r)
                               (BackupResult.size_bytes r) (BackupResult.error_message r)
                               (BackupResult.subvolumes r)) w).

(** Step 5, the loop over [enumerate(snapshots)]. *)
Fixpoint backup_loop (snapshots : list Snapshot.t) (i len : nat) (backup_type : BackupType)
         (total_size : Z) (subvolume_results : list (string * SubResult.t))
  : M (Z * list (string * SubResult.t)) :=
  match snapshots with
  | [] => ret (total_size, subvolume_results)
  | snapshot :: rest =>
      check_cancel ;;
      let progress := (50 + inject_Z (Z.of_nat i) * 30 / inject_Z (Z.of_nat len))%Q in
      _update_progress ("Backing up " ++ Snapshot.subvolume snapshot) 5 7 progress
                       (Some (Snapshot.subvolume snapshot)) None ;;
      backup_result <- _backup_snapshot snapshot backup_type ;;
      let subvolume_results' :=
        dict_set subvolume_results (Snapshot.subvolume snapshot) backup_result in
      total_size' <-
        (if SubResult.success backup_result then
           ret (total_size + match SubResult.size backup_result with
                             | Some n => n
                             | None => 0
                             end)%Z
         else set_status PARTIAL ;; ret total_size) ;;
      backup_loop rest (S i) len backup_type total_size' subvolume_results'
  end.

(** [VerificationManager.verify_backups]: the counts of verified and failed
    results; the caller does not look at them. *)
Definition verify_backups (results : list SubResult.t) : nat * nat :=
  let ok r := SubResult.success r && match SubResult.verified r with
                                     | Some b => b
                                     | None => false
                                     end in
  (length (filter ok results), length (filter (fun r => negb (ok r)) results)).

(** [_save_backup_history] *)
Definition _save_backup_history : M unit :=
  db_await env ;;
  r <- get run_result ;;
  h <- get backup_history ;;
  let new_id :=
    fold_right (fun x acc => Pos.max (Pos.succ (BackupHistory.id x)) acc) 1%positive h in
  modify (with_backup_history
            (h ++ [BackupHistory.mk new_id (BackupType_value (BackupResult.backup_type r))
                                    (BackupResult.status r) (BackupResult.size_bytes r)
                                    (BackupResult.error_message r)])%list) ;;
  set_backup_id (Zpos new_id).

(** The [try] block of [perform_backup]. *)
Definition perform_backup_body (backup_type : option BackupType) (force_full : bool)
  : M unit :=
  _update_progress "Cleaning up failed uploads" 1 7 10%Q None None ;;
  cleanup_failed_uploads env settings ;;
  check_cancel ;;
  _update_progress "Determining backup type" 2 7 20%Q None None ;;
  backup_type <- match backup_type with
                 | None => _determine_backup_type force_full
                 | Some t => ret t
                 end ;;
  set_backup_type backup_type ;;
  _update_progress "Creating snapshots" 3 7 30%Q None None ;;
  snapshots <- create_snapshots env settings ;;
  check_cancel ;;
  _update_progress "Connecting to Unraid" 4 7 40%Q None None ;;
  _ <- _get_unraid_host env settings ;;
  looped <- backup_loop snapshots 0 (length snapshots) backup_type 0%Z [] ;;
  let (total_size, subvolume_results) := looped : Z * list (string * SubResult.t) in
  _update_progress "Verifying backups" 6 7 85%Q None None ;;
  let _ := verify_backups (map snd subvolume_results) in
  _update_progress "Cleaning up old backups" 7 7 95%Q None None ;;
  first <- (match backup_type with
            | FULL => d <- datetime_now env ;; ret (Nat.eqb (DateTime.day d) 1)
            | INCREMENTAL => ret false
            end) ;;
  (if (first : bool) then cleanup_old_monthly_backups env settings ;; ret tt else ret tt) ;;
  cleanup_old_incremental_backups env settings ;;
  cleanup_local_snapshots env settings ;;
  _ <- datetime_utcnow env ;;
  set_totals total_size subvolume_results ;;
  set_status (aggregate_status subvolume_results) ;;
  _update_progress "Backup complete" 7 7 100%Q None None.

(** [perform_backup] *)
Definition perform_backup (backup_type : option BackupType) (force_full : bool)
  : M BackupResult.t :=
  _ <- datetime_utcnow env ;;
  modify (with_cancel_requested false) ;;
  modify (with_run_result (BackupResult.mk 0%Z RUNNING FULL None None [])) ;;
  try_finally
    (try_except
       (perform_backup_body backup_type force_full)
       (fun e =>
          set_status FAILED ;;
          set_error_message e ;;
          _ <- datetime_utcnow env ;;
          ret tt))
    (_save_backup_history ;;
     modify (with_current_backup None)) ;;
  get run_result.

(** [cancel_backup] *)
Definition cancel_backup : M unit := modify (with_cancel_requested true).

End BackupEngine.

(* ------------------------------------------------------------------ *)
(** ** The engines of the process ([api/backup.py], [core/scheduler.py]) *)

(** The process holds two [BackupEngine] objects: the global
    [backup_engine] of [api/backup.py], made by [get_backup_engine], and
    [BackupScheduler.backup_engine], made by [BackupScheduler.start].  Each
    has its own [current_backup] and [cancel_requested].  Coroutines take
    turns at their awaits; between two awaits a coroutine runs alone. *)
Module SingleFlight.

Inductive EngineId : Type := ApiEngine | SchedulerEngine.

Definition EngineId_eqb (a b : EngineId) : bool :=
  match a, b with
  | ApiEngine, ApiEngine => true
  | SchedulerEngine, SchedulerEngine => true
  | _, _ => false
  end.

(** The attributes of a [BackupEngine] that the endpoints read and write,
    and the number of calls of [perform_backup] on it that have begun and
    not reached their [finally]. *)
Record Engine : Type := mkEngine {
  current_backup : option BackupProgress.t;
  cancel_requested : bool;
  runs : nat
}.

(** [BackupEngine.__init__] *)
Definition new_engine : Engine := mkEngine None false 0.

Record Process : Type := mkProcess {
  backup_engine : Engine;
  scheduler_engine : option Engine;
  background_tasks : nat
}.

(** The process after start-up, with the schedule enabled or not. *)
Definition started (backup_schedule_enabled : bool) : Process :=
  mkProcess new_engine (if backup_schedule_enabled then Some new_engine else None) 0.

Inductive Request : Type := PostStart | GetStatus | DeleteCancel.

Inductive Event : Type :=
| Http (r : Request)          (* a request is served *)
| TaskBegins                  (* a background task of [start_backup] begins *)
| CronFires                   (* [_run_scheduled_backup] is called *)
| Progress (e : EngineId) (b : BackupProgress.t)
                              (* a run on [e] reaches a later [_update_progress] *)
| RunEnds (e : EngineId).     (* a run on [e] reaches its [finally] *)

(** [perform_backup] up to its first await: the flag is reset and the
    first [_update_progress] fills the slot. *)
Definition begin_run (e : Engine) : Engine :=
  mkEngine (Some (BackupProgress.mk "Cleaning up failed uploads" 7 1 10%Q None None))
           false (S (runs e)).

(** A later [_update_progress], of a run in progress. *)
Definition publish (b : BackupProgress.t) (e : Engine) : Engine :=
  match runs e with
  | O => e
  | S _ => mkEngine (Some b) (cancel_requested e) (runs e)
  end.

(** The [finally] of [perform_backup]: [self.current_backup = None]. *)
Definition end_run (e : Engine) : Engine :=
  match runs e with
  | O => e
  | S n => mkEngine None (cancel_requested e) n
  end.

(** [start_backup]: the status code, and the process afterwards. *)
Definition start_backup (p : Process) : nat * Process :=
  if is_some (current_backup (backup_engine p)) then (409, p)
  else (200, mkProcess (backup_engine p) (scheduler_engine p) (S (background_tasks p))).

(** [get_backup_status] *)
Definition get_backup_status (p : Process) : nat * Process := (200, p).

(** The endpoint [cancel_backup]. *)
Definition cancel_backup (p : Process) : nat * Process :=
  match current_backup (backup_engine p) with
  | None => (404, p)
  | Some _ =>
      let e := backup_engine p in
      (200, mkProcess (mkEngine (current_backup e) true (runs e))
                      (scheduler_engine p) (background_tasks p))
  end.

(** [_run_scheduled_backup]: [if self.backup_engine: ... perform_backup()] *)
Definition _run_scheduled_backup (p : Process) : Process :=
  match scheduler_engine p with
  | Some e => mkProcess (backup_engine p) (Some (begin_run e)) (background_tasks p)
  | None => p
  end.

Definition on_engine (i : EngineId) (f : Engine -> Engine) (p : Process) : Process :=
  match i with
  | ApiEngine => mkProcess (f (backup_engine p)) (scheduler_engine p) (background_tasks p)
  | SchedulerEngine =>
      mkProcess (backup_engine p) (option_map f (scheduler_engine p)) (background_tasks p)
  end.

(** One event: the status code answered, if the event is a request, and
    the process afterwards. *)
Definition step (ev : Event) (p : Process) : option nat * Process :=
  match ev with
  | Http PostStart => let (c, p') := start_backup p in (Some c, p')
  | Http GetStatus => let (c, p') := get_backup_status p in (Some c, p')
  | Http DeleteCancel => let (c, p') := cancel_backup p in (Some c, p')
  | TaskBegins =>
      match background_tasks p with
      | O => (None, p)
      | S n => (None, mkProcess (begin_run (backup_engine p)) (scheduler_engine p) n)
      end
  | CronFires => (None, _run_scheduled_backup p)
  | Progress i b => (None, on_engine i (publish b) p)
  | RunEnds i => (None, on_engine i end_run p)
  end.

(** The status codes answered along a sequence of events, and the process
    at its end. *)
Fixpoint run (evs : list Event) (p : Process) : list nat * Process :=
  match evs with
  | [] => ([], p)
  | ev :: rest =>
      let (c, p1) := step ev p in
      let (cs, p2) := run rest p1 in
      (match c with Some x => x :: cs | None => cs end, p2)
  end.

(** The runs of [perform_backup] in progress in the process. *)
Definition active_runs (p : Process) : nat :=
  runs (backup_engine p)
  + match scheduler_engine p with Some e => runs e | None => 0 end.

End SingleFlight.

(* ------------------------------------------------------------------ *)
(** ** Listing the snapshots ([snapshot.py], [list_snapshots]) *)

(** The dictionary that [list_snapshots] makes for one snapshot. *)
Module SnapshotInfo.
Record t : Type := mk {
  subvolume : string;
  path : string;
  timestamp : string;
  size : Z;
  created : Q
}.
End SnapshotInfo.

Section Listing.
Variable env : Env.
Variable settings : Settings.t.

(** What [du -sb] reports for a path at a time: [None] when it fails or
    its output is not a number. *)
Variable du : nat -> string -> option Z.

(** [_get_snapshot_size] *)
Definition _get_snapshot_size (snapshot_path : string) : M Z :=
  t <- await env ;;
  ret (match du t snapshot_path with
       | Some n => n
       | None => 0%Z
       end).

(** The body of the loop of [list_snapshots] for one entry. *)
Definition list_entry (entry : DirEntry.t) (snapshots : list SnapshotInfo.t)
  : M (list SnapshotInfo.t) :=
  if DirEntry.is_dir entry && (2 <=? Str.count (DirEntry.name entry) "_")%nat then
    match split_on "_" (DirEntry.name entry) with
    | subvol :: part1 :: part2 :: _ =>
        size <- _get_snapshot_size (entry_path settings entry) ;;
        ret (snapshots
               ++ [SnapshotInfo.mk subvol (entry_path settings entry)
                                   (part1 ++ "_" ++ part2) size (DirEntry.st_ctime entry)])%list
    | _ => ret snapshots
    end
  else ret snapshots.

Fixpoint list_loop (entries : list DirEntry.t) (snapshots : list SnapshotInfo.t)
  : M (list SnapshotInfo.t) :=
  match entries with
  | [] => ret snapshots
  | entry :: rest =>
      l <- list_entry entry snapshots ;;
      list_loop rest l
  end.

Fixpoint insert_by_created_desc (x : SnapshotInfo.t) (l : list SnapshotInfo.t)
  : list SnapshotInfo.t :=
  match l with
  | [] => [x]
  | y :: l' => if Qltb (SnapshotInfo.created x) (SnapshotInfo.created y)
               then y :: insert_by_created_desc x l'
               else x :: l
  end.

(** [sorted(snapshots, key=lambda x: x["created"], reverse=True)]: equal
    keys stay in their order. *)
Definition sort_by_created_desc (l : list SnapshotInfo.t) : list SnapshotInfo.t :=
  fold_right insert_by_created_desc [] l.

(** [list_snapshots] *)
Definition list_snapshots : M (list SnapshotInfo.t) :=
  entries <- get snapshot_entries ;;
  match entries with
  | None => ret []
  | Some l =>
      snapshots <- list_loop l [] ;;
      ret (sort_by_created_desc snapshots)
  end.

End Listing.

(* ------------------------------------------------------------------ *)
(** ** Scenario data *)

Module Scenario.

(** The default settings of [config.py]. *)
Definition settings : Settings.t :=
  Settings.mk "petalbyte-client" 2 31 3 "tower" "/mnt/user/backups" "/.snapshots"
              true "/host" "/host-home".

(** 15 June 2024, 02:00:00, on a host that keeps UTC. *)
Definition june15 : DateTime.t :=
  DateTime.mk 1718416800 1718416800 15 "202406" "20240615" "20240615_020000".

(** 1 June 2024, 02:00:00. *)
Definition june1 : DateTime.t :=
  DateTime.mk 1717207200 1717207200 1 "202406" "20240601" "20240601_020000".

(** An environment in which the clock stands at [d], nothing fails, every
    pipeline produces 4096 bytes and every transfer delivers them, and no
    cancel request arrives. *)
Definition fair (d : DateTime.t) : Env :=
  Build_Env (fun _ => d) (fun _ => DateTime.wall d) (fun _ => Qfloor (DateTime.timestamp d))
            (fun _ => false) (fun _ => true) (fun _ => None)
            (fun _ => Return "100.64.0.2") (fun _ => true) (fun _ => true)
            (fun _ => Some 4096%Z) (fun _ => (true, Some 4096%Z)) (fun _ => None).

(** A world with the given ledger, remote files and snapshot directory,
    and an engine at rest. *)
Definition at_rest (ledger : list SentSnapshot.t) (files : list RemoteFile.t)
           (entries : list DirEntry.t) : World :=
  mkWorld 0 ledger [] files (Some entries) false None 0
          (BackupResult.mk 0%Z PENDING FULL None None []) [] [].

(** A remote artifact of [kind] in [month]. *)
Definition artifact (month kind name : string) (mtime : Z) : RemoteFile.t :=
  RemoteFile.mk ("/mnt/user/backups/petalbyte-client/" ++ month ++ "/" ++ kind ++ "/" ++ name)
                mtime 4096.

Definition april_full : RemoteFile.t :=
  artifact "202404" "full" "@_20240401_full.btrfs.gpg" 1711936800.
Definition may_full : RemoteFile.t :=
  artifact "202405" "full" "@_20240501_full.btrfs.gpg" 1714528800.
Definition june_full : RemoteFile.t :=
  artifact "202406" "full" "@_20240601_full.btrfs.gpg" 1717207200.

(** The ledger row of an artifact sent from local snapshot [snap]. *)
Definition row_of (i : positive) (snap : string) (f : RemoteFile.t) (kind : string)
           (parent : option string) : SentSnapshot.t :=
  SentSnapshot.mk i snap (RemoteFile.path f) (inject_Z (RemoteFile.mtime f)) 4096 kind parent.

(** Three months of fulls, all in the ledger. *)
Definition three_months : list RemoteFile.t := [april_full; may_full; june_full].

Definition three_rows : list SentSnapshot.t :=
  [row_of 1 "/.snapshots/@_20240401_020000" april_full "full" None;
   row_of 2 "/.snapshots/@_20240501_020000" may_full "full" None;
   row_of 3 "/.snapshots/@_20240601_020000" june_full "full" None].

(** As [fair], but SSH connects only when [up] says so. *)
Definition flaky_ssh (d : DateTime.t) (up : nat -> bool) : Env :=
  let e := fair d in
  Build_Env (now e) (utcnow e) (remote_now e) (cancel_arrives e) up
            (db_error e) (tailscale_status e) (btrfs_snapshot_ok e) (btrfs_delete_ok e)
            (pipeline e) (transfer e) (callback_error e).

(** The default settings with incrementals kept for a week. *)
Definition weekly : Settings.t :=
  Settings.mk "petalbyte-client" 2 7 3 "tower" "/mnt/user/backups" "/.snapshots"
              true "/host" "/host-home".

(** An incremental of 10 May and one of 1 June. *)
Definition may_incremental : RemoteFile.t :=
  artifact "202405" "incremental" "@_20240510_incremental.btrfs.gpg" 1715306400.
Definition june_incremental : RemoteFile.t :=
  artifact "202406" "incremental" "@_20240601_incremental.btrfs.gpg" 1717207200.

Definition may_incremental_row : SentSnapshot.t :=
  row_of 4 "/.snapshots/@_20240510_020000" may_incremental "incremental"
         (Some "/.snapshots/@_20240501_020000").
Definition june_incremental_row : SentSnapshot.t :=
  row_of 5 "/.snapshots/@_20240601_020000" june_incremental "incremental"
         (Some "/.snapshots/@_20240501_020000").

(** The local snapshot of "@" taken on 1 June, and its ledger row. *)
Definition june1_snapshot : DirEntry.t :=
  DirEntry.mk "@_20240601_020000" true 1717207200.

Definition june1_row : SentSnapshot.t :=
  row_of 3 "/.snapshots/@_20240601_020000" june_full "full" None.

(** As [fair], but a cancel request is served during the await at [t0]. *)
Definition cancel_at (d : DateTime.t) (t0 : nat) : Env :=
  let e := fair d in
  Build_Env (now e) (utcnow e) (remote_now e) (Nat.eqb t0) (ssh_connects e)
            (db_error e) (tailscale_status e) (btrfs_snapshot_ok e) (btrfs_delete_ok e)
            (pipeline e) (transfer e) (callback_error e).

(** As [fair], but the transfer started at [t0] breaks and leaves nothing. *)
Definition transfer_fails_at (d : DateTime.t) (t0 : nat) : Env :=
  let e := fair d in
  Build_Env (now e) (utcnow e) (remote_now e) (cancel_arrives e) (ssh_connects e)
            (db_error e) (tailscale_status e) (btrfs_snapshot_ok e) (btrfs_delete_ok e)
            (pipeline e)
            (fun t => if Nat.eqb t t0 then (false, None) else (true, Some 4096%Z))
            (callback_error e).

(** As [fair], but the database is locked for the statement at [t0]. *)
Definition db_locked_at (d : DateTime.t) (t0 : nat) : Env :=
  let e := fair d in
  Build_Env (now e) (utcnow e) (remote_now e) (cancel_arrives e) (ssh_connects e)
            (fun t => if Nat.eqb t t0
                      then Some "OperationalError: database is locked" else None)
            (tailscale_status e) (btrfs_snapshot_ok e) (btrfs_delete_ok e)
            (pipeline e) (transfer e) (callback_error e).

(** The result of a run that returned; a run that raised has none. *)
Definition returned (r : result BackupResult.t * World) : BackupResult.t :=
  match fst r with
  | Return res => res
  | Raise _ => BackupResult.mk 0%Z PENDING FULL None None []
  end.

End Scenario.

(* ================================================================== *)
(** * Reasoning about runs *)

(** ** Inversion of the monad's combinators *)

Lemma bind_inv {A B : Type} (m : M A) (k : A -> M B) w r w' :
  bind m k w = (r, w') ->
  (exists a w1, m w = (Return a, w1) /\ k a w1 = (r, w')) \/
  (exists e, m w = (Raise e, w') /\ r = Raise e).
Proof.
  unfold bind. destruct (m w) as [[a | e] w1]; intros H.
  - left. eauto.
  - right. inversion H; subst. eauto.
Qed.

Lemma try_except_inv {A : Type} (m : M A) (h : string -> M A) w r w' :
  try_except m h w = (r, w') ->
  (exists a, m w = (Return a, w') /\ r = Return a) \/
  (exists e w1, m w = (Raise e, w1) /\ h e w1 = (r, w')).
Proof.
  unfold try_except. destruct (m w) as [[a | e] w1]; intros H.
  - left. inversion H; subst. eauto.
  - right. eauto.
Qed.

Lemma ret_inv {A : Type} (a : A) w r w' : ret a w = (r, w') -> r = Return a /\ w' = w.
Proof. unfold ret. intros H. inversion H. auto. Qed.

Lemma raise_inv {A : Type} (e : string) w (r : result A) w' :
  raise e w = (r, w') -> r = Raise e /\ w' = w.
Proof. unfold raise. intros H. inversion H. auto. Qed.

Lemma get_inv {A : Type} (f : World -> A) w r w' :
  get f w = (r, w') -> r = Return (f w) /\ w' = w.
Proof. unfold get. intros H. inversion H. auto. Qed.

Lemma modify_inv (f : World -> World) w r w' :
  modify f w = (r, w') -> r = Return tt /\ w' = f w.
Proof. unfold modify. intros H. inversion H. auto. Qed.

(** ** Two-state properties kept by every step of a computation *)

(** [keeps R m]: the world after [m] is related by [R] to the world before,
    whether [m] returns or raises. *)
Definition keeps {A : Type} (R : World -> World -> Prop) (m : M A) : Prop :=
  forall w, R w (snd (m w)).

Class Frame (R : World -> World -> Prop) : Prop := {
  frame_refl : forall w, R w w;
  frame_trans : forall a b c, R a b -> R b c -> R a c
}.

Section KeepsRules.
Context (R : World -> World -> Prop) `{Frame R}.

Lemma keeps_ret {A : Type} (a : A) : keeps R (ret a).
Proof. intros w. apply frame_refl. Qed.

Lemma keeps_raise {A : Type} (e : string) : keeps R (@raise A e).
Proof. intros w. apply frame_refl. Qed.

Lemma keeps_get {A : Type} (f : World -> A) : keeps R (get f).
Proof. intros w. apply frame_refl. Qed.

Lemma keeps_bind {A B : Type} (m : M A) (k : A -> M B) :
  keeps R m -> (forall a, keeps R (k a)) -> keeps R (bind m k).
Proof.
  intros Hm Hk w. unfold bind. specialize (Hm w).
  destruct (m w) as [[a | e] w1]; simpl in *.
  - eapply frame_trans; [exact Hm | apply Hk].
  - exact Hm.
Qed.

Lemma keeps_try_except {A : Type} (m : M A) (h : string -> M A) :
  keeps R m -> (forall e, keeps R (h e)) -> keeps R (try_except m h).
Proof.
  intros Hm Hh w. unfold try_except. specialize (Hm w).
  destruct (m w) as [[a | e] w1]; simpl in *.
  - exact Hm.
  - eapply frame_trans; [exact Hm | apply Hh].
Qed.

Lemma keeps_try_finally {A : Type} (m : M A) (f : M unit) :
  keeps R m -> keeps R f -> keeps R (try_finally m f).
Proof.
  intros Hm Hf w. unfold try_finally. specialize (Hm w).
  destruct (m w) as [r w1]. specialize (Hf w1).
  destruct (f w1) as [[u | e] w2]; simpl in *; eapply frame_trans; eauto.
Qed.

Lemma keeps_modify (f : World -> World) :
  (forall w, R w (f w)) -> keeps R (modify f).
Proof. intros Hf w. apply Hf. Qed.

End KeepsRules.

Create HintDb keeps discriminated.

(** Decompose a goal [keeps R m] along the structure of [m]. *)
Ltac keeps_step :=
  match goal with
  | |- Frame _ => typeclasses eauto
  | |- forall _, _ => intros ?
  | |- keeps _ (bind _ _) => apply keeps_bind
  | |- keeps _ (ret _) => apply keeps_ret
  | |- keeps _ (raise _) => apply keeps_raise
  | |- keeps _ (get _) => apply keeps_get
  | |- keeps _ (try_except _ _) => apply keeps_try_except
  | |- keeps _ (try_finally _ _) => apply keeps_try_finally
  | |- keeps _ (modify _) => apply keeps_modify
  | |- keeps _ (match ?x with _ => _ end) => destruct x
  | |- keeps _ _ => solve [ auto with keeps ]
  end.

Ltac keeps_auto := repeat keeps_step.

(** [quiet]: time has passed and a cancel request may have been noted, but
    no store has changed: ledger, history, remote files and directories,
    snapshot directory, published progress, the run's result object and the
    trace are as before. *)
Definition quiet (w w' : World) : Prop :=
  tick w <= tick w' /\
  sent_snapshots w' = sent_snapshots w /\
  backup_history w' = backup_history w /\
  remote w' = remote w /\
  snapshot_entries w' = snapshot_entries w /\
  current_backup w' = current_backup w /\
  progress_callbacks w' = progress_callbacks w /\
  run_result w' = run_result w /\
  log w' = log w /\
  remote_dirs w' = remote_dirs w.

#[export] Instance quiet_frame : Frame quiet.
Proof.
  split.
  - intros w. unfold quiet. repeat split; auto.
  - intros a b c (?&?&?&?&?&?&?&?&?&?) (?&?&?&?&?&?&?&?&?&?).
    unfold quiet. repeat split; try congruence. lia.
Qed.

Section QuietSteps.
Variable env : Env.

Lemma await_quiet : keeps quiet (await env).
Proof.
  intros w. unfold await, quiet. simpl.
  destruct (cancel_arrives env (tick w) && is_some (current_backup w)); simpl;
    repeat split; auto.
Qed.

Lemma reading_quiet : keeps quiet reading.
Proof. intros w. unfold reading, quiet. simpl. repeat split; auto. Qed.

Hint Resolve await_quiet reading_quiet : keeps.

Lemma datetime_now_quiet : keeps quiet (datetime_now env).
Proof. unfold datetime_now. keeps_auto. Qed.

Lemma datetime_utcnow_quiet : keeps quiet (datetime_utcnow env).
Proof. unfold datetime_utcnow. keeps_auto. Qed.

Lemma db_await_quiet : keeps quiet (db_await env).
Proof. unfold db_await. keeps_auto. Qed.

Hint Resolve db_await_quiet : keeps.

Lemma count_sent_quiet : keeps quiet (count_sent env).
Proof. unfold count_sent. keeps_auto. Qed.

Lemma query_sent_id_quiet p : keeps quiet (query_sent_id env p).
Proof. unfold query_sent_id. keeps_auto. Qed.

Lemma query_remote_paths_quiet : keeps quiet (query_remote_paths env).
Proof. unfold query_remote_paths. keeps_auto. Qed.

End QuietSteps.

#[export] Hint Resolve await_quiet reading_quiet datetime_now_quiet datetime_utcnow_quiet
  db_await_quiet count_sent_quiet query_sent_id_quiet query_remote_paths_quiet : keeps.

(** ** The remote executor *)

(** [backstage]: as [quiet], except that the remote files may have
    changed and the trace may have grown. *)
Definition backstage (w w' : World) : Prop :=
  tick w <= tick w' /\
  sent_snapshots w' = sent_snapshots w /\
  backup_history w' = backup_history w /\
  snapshot_entries w' = snapshot_entries w /\
  current_backup w' = current_backup w /\
  progress_callbacks w' = progress_callbacks w /\
  run_result w' = run_result w.

#[export] Instance backstage_frame : Frame backstage.
Proof.
  split.
  - intros w. unfold backstage. repeat split; auto.
  - intros a b c (?&?&?&?&?&?&?) (?&?&?&?&?&?&?).
    unfold backstage. repeat split; try congruence. lia.
Qed.

Lemma quiet_backstage w w' : quiet w w' -> backstage w w'.
Proof. intros (?&?&?&?&?&?&?&?&?). unfold backstage. repeat split; auto. Qed.

Section Executor.
Variable env : Env.

(** What one remote command does: it always returns; when the connection
    works the remote files change as the shell says, otherwise not at all. *)
Lemma execute_command_inv c w r w' :
  execute_command env c w = (r, w') ->
  exists res,
    r = Return res /\ tick w' = S (tick w) /\ backstage w w' /\
    ((ssh_connects env (tick w) = true /\
      Remote.run c (remote_now env (tick w)) (remote w) (remote_dirs w)
      = (SshResult.success res, SshResult.stdout res, remote w') /\
      log w' = Ssh c true :: log w)
     \/
     (ssh_connects env (tick w) = false /\ SshResult.success res = false /\
      remote w' = remote w /\ log w' = Ssh c false :: log w)).
Proof.
  unfold execute_command, bind, await, get, modify, emit, ret. simpl.
  destruct (ssh_connects env (tick w)) eqn:Hc.
  - destruct (cancel_arrives env (tick w) && is_some (current_backup w)); simpl;
      destruct (Remote.run c (remote_now env (tick w)) (remote w) (remote_dirs w))
        as [[ok out] fs'] eqn:Hr;
      simpl; intros H; inversion H; subst; clear H;
      (eexists; split; [reflexivity | ]); simpl;
      (split; [reflexivity | ]);
      (split; [unfold backstage; simpl; repeat split; auto | ]);
      left; auto.
  - destruct (cancel_arrives env (tick w) && is_some (current_backup w)); simpl;
      intros H; inversion H; subst; clear H;
      (eexists; split; [reflexivity | ]); simpl;
      (split; [reflexivity | ]);
      (split; [unfold backstage; simpl; repeat split; auto | ]);
      right; auto.
Qed.

(** The directories of the remote host after one remote command. *)
Lemma execute_command_dirs c w r w' :
  execute_command env c w = (r, w') ->
  remote_dirs w'
  = (if ssh_connects env (tick w)
     then Remote.dirs_after c (remote_now env (tick w)) (remote w) (remote_dirs w)
     else remote_dirs w).
Proof.
  unfold execute_command, bind, await, get, modify, emit, ret. simpl.
  destruct (ssh_connects env (tick w)) eqn:Hc.
  - destruct (cancel_arrives env (tick w) && is_some (current_backup w)); simpl;
      destruct (Remote.run c (remote_now env (tick w)) (remote w) (remote_dirs w))
        as [[ok out] fs'] eqn:Hr;
      simpl; intros H; inversion H; subst; clear H; reflexivity.
  - destruct (cancel_arrives env (tick w) && is_some (current_backup w)); simpl;
      intros H; inversion H; subst; clear H; reflexivity.
Qed.

Lemma execute_command_backstage c : keeps backstage (execute_command env c).
Proof.
  intros w. destruct (execute_command env c w) as [r w'] eqn:E.
  apply execute_command_inv in E. destruct E as (res & _ & _ & Hb & _). exact Hb.
Qed.

End Executor.

#[export] Hint Resolve execute_command_backstage : keeps.

(** Lifting [quiet] steps to [backstage]. *)
Lemma keeps_quiet_backstage {A : Type} (m : M A) : keeps quiet m -> keeps backstage m.
Proof. intros H w. apply quiet_backstage, H. Qed.

(** ** Timestamps *)

Lemma Qltb_lt a b : Qltb a b = true <-> (a < b)%Q.
Proof.
  unfold Qltb. rewrite Bool.negb_true_iff. split; intros H.
  - apply Qnot_le_lt. intros H1. apply Qle_bool_iff in H1. congruence.
  - destruct (Qle_bool b a) eqn:E; auto.
    apply Qle_bool_iff in E. apply Qle_not_lt in E. contradiction.
Qed.

Lemma age_over_an_hour (ts : Q) (file_time : Z) :
  (1 < (ts - inject_Z file_time) / 3600)%Q -> (inject_Z file_time + 3600 < ts)%Q.
Proof.
  intros H.
  assert (H1 : (1 * 3600 < (ts - inject_Z file_time) / 3600 * 3600)%Q).
  { apply Qmult_lt_compat_r; [reflexivity | exact H]. }
  assert (H2 : ((ts - inject_Z file_time) / 3600 * 3600 == ts - inject_Z file_time)%Q)
    by field.
  rewrite H2 in H1. lra.
Qed.

(** ** Remote files *)

Lemma lookup_unique (fs : Remote.files) (f : RemoteFile.t) :
  NoDup (map RemoteFile.path fs) -> In f fs ->
  Remote.lookup fs (RemoteFile.path f) = Some f.
Proof.
  unfold Remote.lookup. induction fs as [| g fs IH]; simpl; intros Hnd Hin.
  - contradiction.
  - inversion Hnd as [| ? ? Hnotin Hnd']; subst.
    destruct Hin as [-> | Hin].
    + rewrite String.eqb_refl. reflexivity.
    + destruct (String.eqb (RemoteFile.path g) (RemoteFile.path f)) eqn:E.
      * apply String.eqb_eq in E. exfalso. apply Hnotin. rewrite E.
        apply in_map. exact Hin.
      * apply IH; assumption.
Qed.

Lemma NoDup_map_filter {A B : Type} (g : A -> B) (p : A -> bool) (l : list A) :
  NoDup (map g l) -> NoDup (map g (filter p l)).
Proof.
  induction l as [| a l IH]; simpl; intros H.
  - constructor.
  - inversion H as [| ? ? Hn Hd]; subst. destruct (p a); simpl.
    + constructor; auto. intros Hin. apply Hn.
      apply in_map_iff in Hin. destruct Hin as (x & Hx & Hin).
      apply filter_In in Hin. apply in_map_iff. exists x. tauto.
    + auto.
Qed.

Lemma mem_In (s : string) (l : list string) : mem s l = true <-> In s l.
Proof.
  unfold mem. rewrite existsb_exists. split.
  - intros (x & Hin & E). apply String.eqb_eq in E. subst. exact Hin.
  - intros Hin. exists s. split; [exact Hin | apply String.eqb_refl].
Qed.

(** ** Clock readings and ledger queries, inverted *)

Section ReadInversion.
Variable env : Env.

Lemma datetime_now_inv w r w' :
  datetime_now env w = (r, w') ->
  r = Return (now env (tick w)) /\ w' = with_tick (S (tick w)) w.
Proof. unfold datetime_now, bind, reading, ret. intros H. inversion H. auto. Qed.

Lemma datetime_utcnow_inv w r w' :
  datetime_utcnow env w = (r, w') ->
  r = Return (utcnow env (tick w)) /\ w' = with_tick (S (tick w)) w.
Proof. unfold datetime_utcnow, bind, reading, ret. intros H. inversion H. auto. Qed.

Lemma query_remote_paths_inv w r w' :
  query_remote_paths env w = (r, w') ->
  quiet w w' /\ forall l, r = Return l -> l = Ledger.remote_paths (sent_snapshots w).
Proof.
  intros H. split.
  - pose proof (query_remote_paths_quiet env w) as Hq. rewrite H in Hq. exact Hq.
  - revert H. unfold query_remote_paths, db_await, bind, await, get, ret, raise. simpl.
    destruct (db_error env (tick w));
      destruct (cancel_arrives env (tick w) && is_some (current_backup w));
      simpl; intros H l Hl; inversion H; subst; try discriminate;
      inversion H1; reflexivity.
Qed.

Lemma query_sent_id_inv p w r w' :
  query_sent_id env p w = (r, w') ->
  quiet w w' /\ forall o, r = Return o -> o = Ledger.select_id (sent_snapshots w) p.
Proof.
  intros H. split.
  - pose proof (query_sent_id_quiet env p w) as Hq. rewrite H in Hq. exact Hq.
  - revert H. unfold query_sent_id, db_await, bind, await, get, ret, raise. simpl.
    destruct (db_error env (tick w));
      destruct (cancel_arrives env (tick w) && is_some (current_backup w));
      simpl; intros H l Hl; inversion H; subst; try discriminate;
      inversion H1; reflexivity.
Qed.

End ReadInversion.

(* ================================================================== *)
(** * The orphan sweep ([cleanup_failed_uploads]) *)

Section OrphanSweep.
Variable env : Env.
Variable settings : Settings.t.
Variable w0 : World.

(** At the clock reading of logical time [t], [f] was modified more than
    one hour ago. *)
Definition older_than_an_hour (f : RemoteFile.t) (t : nat) : Prop :=
  (inject_Z (RemoteFile.mtime f) + 3600 < DateTime.timestamp (now env t))%Q.

(** The two conditions under which the sweep may delete [f], the second
    met at a clock reading between the start [w0] and [w]. *)
Definition sweepable (f : RemoteFile.t) (w : World) : Prop :=
  ~ In (RemoteFile.path f) (Ledger.remote_paths (sent_snapshots w0)) /\
  exists t, tick w0 <= t < tick w /\ older_than_an_hour f t.

Definition sweep_inv (w : World) : Prop :=
  tick w0 <= tick w /\
  sent_snapshots w = sent_snapshots w0 /\
  NoDup (map RemoteFile.path (remote w)) /\
  (forall f, In f (remote w) -> In f (remote w0)) /\
  (forall f, In f (remote w0) -> In f (remote w) \/ sweepable f w).

Lemma sweepable_later f w w' : tick w <= tick w' -> sweepable f w -> sweepable f w'.
Proof.
  intros Hle (Hn & t & Ht & Hold). split; [exact Hn | ].
  exists t. split; [lia | exact Hold].
Qed.

Lemma sweep_inv_step w w' :
  sweep_inv w -> backstage w w' -> remote w' = remote w -> sweep_inv w'.
Proof.
  intros (Ht & Hl & Hnd & Hsub & Hdel) (Hle & Hl' & _) Hr.
  unfold sweep_inv. rewrite Hr. repeat split; auto.
  - lia.
  - congruence.
  - intros f Hf. destruct (Hdel f Hf) as [H | H]; [left; exact H | right].
    eapply sweepable_later; eauto.
Qed.

Lemma sweep_orphan_inv orphan n w r w' :
  sweep_inv w ->
  ~ In orphan (Ledger.remote_paths (sent_snapshots w0)) ->
  sweep_orphan env orphan n w = (r, w') ->
  sweep_inv w' /\ exists n', r = Return n'.
Proof.
  intros Hinv Horphan H. unfold sweep_orphan in H.
  apply bind_inv in H. destruct H as [(res & w1 & Hstat & H) | (e & Hstat & _)].
  2: { apply execute_command_inv in Hstat. destruct Hstat as (? & ? & _). discriminate. }
  apply execute_command_inv in Hstat.
  destruct Hstat as (res' & Hres & Htick1 & Hb1 & Hcase). inversion Hres; subst res'; clear Hres.
  assert (Hr1 : remote w1 = remote w /\
                (SshResult.success res = true ->
                 exists f0, Remote.lookup (remote w) orphan = Some f0 /\
                            SshResult.stdout res = Int (RemoteFile.mtime f0))).
  { destruct Hcase as [(_ & Hrun & _) | (_ & Hs & Hr & _)].
    - simpl in Hrun. destruct (Remote.lookup (remote w) orphan) as [f0 |] eqn:Hl;
        injection Hrun as Hs Ho Hfs.
      + split; [auto | ]. intros _. exists f0. auto.
      + split; [auto | ]. intros Hs'. congruence.
    - split; [exact Hr | ]. intros Hs'. congruence. }
  destruct Hr1 as [Hr1 Hfound].
  assert (Hinv1 : sweep_inv w1) by (eapply sweep_inv_step; eauto).
  destruct (SshResult.success res) eqn:Hsucc.
  2: { apply ret_inv in H. destruct H; subst. split; eauto. }
  destruct (Hfound eq_refl) as (f0 & Hlook & Hout). clear Hfound.
  rewrite Hout in H.
  assert (Hbody : forall rr ww,
             (d <- datetime_now env ;;
              (if Qltb 1 ((DateTime.timestamp d - inject_Z (RemoteFile.mtime f0)) / 3600)
               then delete_result <- delete_remote_file env orphan ;;
                    ret (if SshResult.success delete_result then S n else n)
               else ret n)) w1 = (rr, ww) ->
             sweep_inv ww /\ exists n', rr = Return n').
  { clear H. intros rr ww H.
    apply bind_inv in H. destruct H as [(d & w2 & Hnow & H) | (e & Hnow & _)].
    2: { apply datetime_now_inv in Hnow. destruct Hnow. discriminate. }
    apply datetime_now_inv in Hnow. destruct Hnow as [Hd Hw2].
    inversion Hd; subst d; clear Hd.
    assert (Hinv2 : sweep_inv w2).
    { eapply sweep_inv_step; [exact Hinv1 | | ]; subst w2.
      - unfold backstage; simpl; repeat split; auto.
      - reflexivity. }
    destruct (Qltb 1 ((DateTime.timestamp (now env (tick w1))
                       - inject_Z (RemoteFile.mtime f0)) / 3600)) eqn:Hage.
    2: { apply ret_inv in H. destruct H; subst rr ww. split; eauto. }
    apply Qltb_lt, age_over_an_hour in Hage.
    apply bind_inv in H. destruct H as [(dres & w3 & Hrm & H) | (e & Hrm & _)].
    2: { apply execute_command_inv in Hrm. destruct Hrm as (? & ? & _). discriminate. }
    apply ret_inv in H. destruct H; subst rr ww. split; [ | eauto].
    apply execute_command_inv in Hrm.
    destruct Hrm as (res' & _ & Htick3 & Hb3 & Hcase3).
    destruct Hcase3 as [(_ & Hrun & _) | (_ & _ & Hr3 & _)].
    2: { eapply sweep_inv_step; eauto. }
    simpl in Hrun. injection Hrun as _ _ Hfs.
    destruct Hinv2 as (Ht2 & Hl2 & Hnd2 & Hsub2 & Hdel2).
    destruct Hb3 as (Hle3 & Hl3 & _).
    unfold sweep_inv. rewrite <- Hfs. repeat split.
    - lia.
    - congruence.
    - apply NoDup_map_filter. exact Hnd2.
    - intros f Hf. apply filter_In in Hf. apply Hsub2. tauto.
    - intros f Hf. destruct (Hdel2 f Hf) as [Hin | Hsw].
      2: { right. eapply sweepable_later; eauto. }
      destruct (String.eqb (RemoteFile.path f) orphan) eqn:Heq.
      + right. apply String.eqb_eq in Heq.
        assert (Hff0 : f = f0).
        { pose proof (lookup_unique _ _ Hnd2 Hin) as Hlk.
          rewrite Heq in Hlk. subst w2. simpl in Hlk. rewrite Hr1 in Hlk. congruence. }
        subst f0. split.
        * rewrite Heq. exact Horphan.
        * exists (tick w1). split.
          -- destruct Hinv1 as (Ht1 & _). subst w2. simpl in Htick3. lia.
          -- exact Hage.
      + left. apply filter_In. split; [exact Hin | ]. rewrite Heq. reflexivity. }
  apply try_except_inv in H. destruct H as [(a & H & Hr) | (e & w2 & H & _)].
  - apply Hbody in H. destruct H as [H _]. split; eauto.
  - apply Hbody in H. destruct H as (_ & n' & Hn'). discriminate.
Qed.

Lemma sweep_loop_inv orphaned_files : forall n w r w',
  sweep_inv w ->
  (forall o, In o orphaned_files -> ~ In o (Ledger.remote_paths (sent_snapshots w0))) ->
  sweep_loop env orphaned_files n w = (r, w') ->
  sweep_inv w'.
Proof.
  induction orphaned_files as [| orphan rest IH]; simpl; intros n w r w' Hinv Hall H.
  - apply ret_inv in H. destruct H; subst. exact Hinv.
  - apply bind_inv in H. destruct H as [(n1 & w1 & H1 & H) | (e & H1 & _)].
    + eapply sweep_orphan_inv in H1; eauto. destruct H1 as [Hinv1 _].
      eapply IH; eauto.
    + eapply sweep_orphan_inv in H1; eauto. destruct H1 as (_ & n' & Hn'). discriminate.
Qed.

Lemma _get_unraid_host_quiet : keeps quiet (_get_unraid_host env settings).
Proof. unfold _get_unraid_host. keeps_auto. Qed.

Lemma cleanup_failed_uploads_inv w r w' :
  sweep_inv w ->
  cleanup_failed_uploads env settings w = (r, w') ->
  sweep_inv w'.
Proof.
  intros Hinv H. unfold cleanup_failed_uploads in H.
  assert (Hbody : forall rr ww,
    (_ <- _get_unraid_host env settings ;;
     find_result <- execute_command env (FindArtifacts (base_path settings)) ;;
     (if negb (SshResult.success find_result) then ret None
      else
        let remote_files :=
          filter Str.truthy (stdout_lines (SshResult.stdout find_result)) in
        sent_files <- query_remote_paths env ;;
        (let orphaned_files := filter (fun f => negb (mem f sent_files)) remote_files in
         deleted_count <- sweep_loop env orphaned_files 0 ;;
         ret (Some (length orphaned_files, deleted_count))))) w = (rr, ww) ->
    sweep_inv ww).
  { clear H. intros rr ww H.
    apply bind_inv in H.
    assert (Hhost : forall rh wh, _get_unraid_host env settings w = (rh, wh) -> sweep_inv wh).
    { intros rh wh Hh. pose proof (_get_unraid_host_quiet w) as Hq. rewrite Hh in Hq.
      simpl in Hq. eapply sweep_inv_step; [exact Hinv | apply quiet_backstage; exact Hq | ].
      destruct Hq as (_ & _ & _ & Hr & _). exact Hr. }
    destruct H as [(h & w1 & Hh & H) | (e & Hh & _)]; [ | eapply Hhost; eauto].
    apply Hhost in Hh.
    apply bind_inv in H. destruct H as [(fres & w2 & Hfind & H) | (e & Hfind & _)].
    2: { apply execute_command_inv in Hfind. destruct Hfind as (? & ? & _). discriminate. }
    apply execute_command_inv in Hfind. destruct Hfind as (res' & _ & _ & Hb2 & Hcase).
    assert (Hinv2 : sweep_inv w2).
    { eapply sweep_inv_step; [exact Hh | exact Hb2 | ].
      destruct Hcase as [(_ & Hrun & _) | (_ & _ & Hr & _)]; [ | exact Hr].
      simpl in Hrun. injection Hrun as _ _ Hfs. auto. }
    destruct (negb (SshResult.success fres)).
    { apply ret_inv in H. destruct H; subst. exact Hinv2. }
    cbv zeta in H.
    apply bind_inv in H.
    assert (Hquery : forall rq wq, query_remote_paths env w2 = (rq, wq) ->
                                   sweep_inv wq /\
                                   forall l, rq = Return l ->
                                             l = Ledger.remote_paths (sent_snapshots w0)).
    { intros rq wq Hq. apply query_remote_paths_inv in Hq. destruct Hq as [Hq Hl]. split.
      - eapply sweep_inv_step; [exact Hinv2 | apply quiet_backstage; exact Hq | ].
        destruct Hq as (_ & _ & _ & Hr & _). exact Hr.
      - intros l Hrl. rewrite (Hl l Hrl). destruct Hinv2 as (_ & Hl2 & _). rewrite Hl2.
        reflexivity. }
    destruct H as [(sent & w3 & Hq & H) | (e & Hq & _)]; [ | eapply Hquery; eauto].
    apply Hquery in Hq. destruct Hq as [Hinv3 Hsent].
    specialize (Hsent sent eq_refl). subst sent.
    apply bind_inv in H. destruct H as [(cnt & w4 & Hloop & H) | (e & Hloop & _)].
    - apply ret_inv in H. destruct H; subst.
      eapply sweep_loop_inv; [exact Hinv3 | | exact Hloop].
      intros o Ho. apply filter_In in Ho. destruct Ho as [_ Ho].
      apply Bool.negb_true_iff in Ho. intros Hin. apply mem_In in Hin. congruence.
    - eapply sweep_loop_inv; [exact Hinv3 | | exact Hloop].
      intros o Ho. apply filter_In in Ho. destruct Ho as [_ Ho].
      apply Bool.negb_true_iff in Ho. intros Hin. apply mem_In in Hin. congruence. }
  apply try_except_inv in H. destruct H as [(a & H & _) | (e & w1 & H & Hh)].
  - eapply Hbody; eauto.
  - apply ret_inv in Hh. destruct Hh; subst. eapply Hbody; eauto.
Qed.

End OrphanSweep.


(** A day-old artifact that the ledger does not know is swept. *)
Definition stale_orphan : RemoteFile.t :=
  RemoteFile.mk "/mnt/user/backups/petalbyte-client/202406/full/@_20240614_full.btrfs.gpg"
                1718330400 4096.


(* ================================================================== *)
(** * The monthly purge ([cleanup_old_monthly_backups]) *)

(** ** LIKE with a trailing percent sign matches every extension *)

Lemma like_percent_unfold (p s : string) :
  Str.like (String "%" p) s
  = Str.like p s || match s with
                    | EmptyString => false
                    | String _ s' => Str.like (String "%" p) s'
                    end.
Proof. destruct s; reflexivity. Qed.

Lemma like_percent_any (s : string) : Str.like "%" s = true.
Proof.
  induction s as [| c s IH].
  - reflexivity.
  - rewrite like_percent_unfold. rewrite IH. apply Bool.orb_true_r.
Qed.

Lemma like_prefix (p : string) : forall s,
  Str.startswith s p = true -> Str.like (p ++ "%") s = true.
Proof.
  induction p as [| a p IH]; intros s H.
  - apply like_percent_any.
  - destruct s as [| b s]; simpl in H; [discriminate | ].
    apply Bool.andb_true_iff in H. destruct H as [Hab Hs].
    apply Ascii.eqb_eq in Hab. subst b.
    specialize (IH s Hs).
    change (String a p ++ "%") with (String a (p ++ "%")).
    destruct (Ascii.eqb a "%") eqn:E1.
    + apply Ascii.eqb_eq in E1. subst a.
      rewrite like_percent_unfold.
      rewrite (like_percent_unfold (p ++ "%") s). rewrite IH.
      rewrite Bool.orb_true_l. apply Bool.orb_true_r.
    + simpl. rewrite E1. destruct (Ascii.eqb a "_") eqn:E2.
      * exact IH.
      * rewrite Ascii.eqb_refl. exact IH.
Qed.

Lemma startswith_app (s p q : string) :
  Str.startswith s (p ++ q) = true -> Str.startswith s p = true.
Proof.
  revert s. induction p as [| a p IH]; intros s H.
  - destruct s; reflexivity.
  - destruct s as [| b s]; simpl in *; [discriminate | ].
    apply Bool.andb_true_iff in H. destruct H as [Hab Hs].
    rewrite Hab. simpl. apply IH. exact Hs.
Qed.

(** After the DELETE no row is left below the directory. *)
Lemma delete_like_clears (dir : string) (l : Ledger.table) (row : SentSnapshot.t) :
  In row (Ledger.delete_like (dir ++ "%") l) ->
  Remote.under dir (SentSnapshot.remote_path row) = false.
Proof.
  unfold Ledger.delete_like. intros H. apply filter_In in H. destruct H as [_ H].
  apply Bool.negb_true_iff in H.
  destruct (Remote.under dir (SentSnapshot.remote_path row)) eqn:E; [ | reflexivity].
  unfold Remote.under in E. apply startswith_app in E.
  apply like_prefix in E. congruence.
Qed.

Lemma delete_like_incl (pattern : string) (l : Ledger.table) (row : SentSnapshot.t) :
  In row (Ledger.delete_like pattern l) -> In row l.
Proof. unfold Ledger.delete_like. intros H. apply filter_In in H. tauto. Qed.

(** ** The DELETE statement, inverted *)

Lemma execute_delete_like_inv env pattern w r w' :
  execute_delete_like env pattern w = (r, w') ->
  (r = Return tt /\ tick w <= tick w' /\ remote w' = remote w /\
   sent_snapshots w' = Ledger.delete_like pattern (sent_snapshots w) /\
   log w' = Commit (DeleteLike pattern) :: log w) \/
  (exists e, r = Raise e /\ quiet w w').
Proof.
  unfold execute_delete_like, db_await, bind, await, modify, emit, ret, raise. simpl.
  destruct (db_error env (tick w));
    destruct (cancel_arrives env (tick w) && is_some (current_backup w)); simpl;
    try (intros H; inversion H; subst; right; eexists; split; [reflexivity | ];
         unfold quiet; simpl; repeat split; auto; fail);
    destruct (db_error env (S (tick w)));
    try destruct (cancel_arrives env (S (tick w)) && is_some (current_backup w)); simpl;
    try destruct (cancel_arrives env (S (tick w)) && true); simpl;
    intros H; inversion H; subst;
    try (right; eexists; split; [reflexivity | ];
         unfold quiet; simpl; repeat split; auto; fail);
    left; simpl; repeat split; auto.
Qed.

(** ** The invariant of the purge *)

(** In a trace (newest event first), every removal of a directory tree
    comes after the commit of the DELETE for that directory. *)
Fixpoint commits_first (trace : list Event) : Prop :=
  match trace with
  | [] => True
  | Ssh (RmTree dir) _ :: older =>
      In (Commit (DeleteLike (dir ++ "%"))) older /\ commits_first older
  | _ :: older => commits_first older
  end.

Lemma commits_first_split (trace l1 l2 : list Event) (dir : string) (c : bool) :
  commits_first trace ->
  trace = (l1 ++ Ssh (RmTree dir) c :: l2)%list ->
  In (Commit (DeleteLike (dir ++ "%"))) l2.
Proof.
  revert trace. induction l1 as [| e l1 IH]; intros trace Hcf Heq; subst trace.
  - simpl in Hcf. tauto.
  - apply (IH (l1 ++ Ssh (RmTree dir) c :: l2)%list); [ | reflexivity].
    simpl in Hcf. destruct e as [cmd b | st]; [destruct cmd | ]; tauto.
Qed.

Section MonthlyPurge.
Variable env : Env.
Variable settings : Settings.t.
Variable w0 : World.

Definition purge_inv (w : World) : Prop :=
  exists trace,
    log w = (trace ++ log w0)%list /\
    commits_first trace /\
    (forall row, In row (sent_snapshots w) -> In row (sent_snapshots w0)) /\
    (forall dir c, In (Ssh (RmTree dir) c) trace ->
                   forall row, In row (sent_snapshots w) ->
                               Remote.under dir (SentSnapshot.remote_path row) = false).

Lemma purge_inv_start : purge_inv w0.
Proof. exists []. simpl. repeat split; auto. intros dir c []. Qed.

Lemma purge_inv_quiet w w' : purge_inv w -> quiet w w' -> purge_inv w'.
Proof.
  intros (trace & Hlog & Hcf & Hsub & Hclear) (_ & Hl & _ & _ & _ & _ & _ & _ & Hlog' & _).
  exists trace. rewrite Hlog', Hl. auto.
Qed.

Definition is_removal (c : Command) : bool :=
  match c with RmTree _ => true | _ => false end.

Lemma purge_inv_command c w r w' :
  purge_inv w -> is_removal c = false ->
  execute_command env c w = (r, w') -> purge_inv w'.
Proof.
  intros (trace & Hlog & Hcf & Hsub & Hclear) Hc H.
  apply execute_command_inv in H. destruct H as (res & _ & _ & Hb & Hcase).
  destruct Hb as (_ & Hl & _).
  assert (Hlog' : exists b, log w' = Ssh c b :: log w).
  { destruct Hcase as [(_ & _ & H) | (_ & _ & _ & H)]; eauto. }
  destruct Hlog' as (b & Hlog').
  exists (Ssh c b :: trace). rewrite Hlog', Hlog, Hl. repeat split; auto.
  - simpl. destruct c; try discriminate; exact Hcf.
  - intros dir c' [Heq | Hin].
    + inversion Heq; subst. discriminate.
    + eapply Hclear; eauto.
Qed.

Lemma prune_month_inv month deleted_months w r w' :
  purge_inv w ->
  prune_month env settings month deleted_months w = (r, w') ->
  purge_inv w'.
Proof.
  intros Hinv H. unfold prune_month in H.
  apply bind_inv in H. destruct H as [(u & w1 & Hdel & H) | (e & Hdel & _)].
  - apply execute_delete_like_inv in Hdel.
    destruct Hdel as [(_ & _ & _ & Hl1 & Hlog1) | (e & He & _)]; [ | discriminate].
    apply bind_inv in H. destruct H as [(res & w2 & Hrm & H) | (e & Hrm & _)].
    2: { apply execute_command_inv in Hrm. destruct Hrm as (? & ? & _). discriminate. }
    apply ret_inv in H. destruct H as [_ ->].
    apply execute_command_inv in Hrm. destruct Hrm as (res' & _ & _ & Hb & Hcase).
    destruct Hb as (_ & Hl2 & _).
    assert (Hlog2 : exists b, log w2 = Ssh (RmTree (base_path settings ++ "/" ++ month)) b
                                         :: log w1).
    { destruct Hcase as [(_ & _ & H) | (_ & _ & _ & H)]; eauto. }
    destruct Hlog2 as (b & Hlog2).
    destruct Hinv as (trace & Hlog & Hcf & Hsub & Hclear).
    exists (Ssh (RmTree (base_path settings ++ "/" ++ month)) b
              :: Commit (DeleteLike ((base_path settings ++ "/" ++ month) ++ "%")) :: trace).
    rewrite Hlog2, Hlog1, Hlog, Hl2, Hl1. repeat split.
    + simpl. left. reflexivity.
    + exact Hcf.
    + intros row Hrow. apply Hsub. eapply delete_like_incl. exact Hrow.
    + intros dir c [Heq | [Heq | Hin]] row Hrow.
      * inversion Heq; subst. eapply delete_like_clears. exact Hrow.
      * discriminate.
      * eapply Hclear; [exact Hin | ]. eapply delete_like_incl. exact Hrow.
  - apply execute_delete_like_inv in Hdel.
    destruct Hdel as [(Hr & _) | (e' & _ & Hq)]; [discriminate | ].
    eapply purge_inv_quiet; eauto.
Qed.

Lemma prune_loop_inv months : forall deleted_months w r w',
  purge_inv w ->
  prune_loop env settings months deleted_months w = (r, w') ->
  purge_inv w'.
Proof.
  induction months as [| month rest IH]; simpl; intros dm w r w' Hinv H.
  - apply ret_inv in H. destruct H; subst. exact Hinv.
  - apply bind_inv in H. destruct H as [(l & w1 & H1 & H) | (e & H1 & _)].
    + eapply IH; [ | exact H]. eapply prune_month_inv; eauto.
    + eapply prune_month_inv; eauto.
Qed.

Lemma cleanup_old_monthly_backups_inv w r w' :
  purge_inv w ->
  cleanup_old_monthly_backups env settings w = (r, w') ->
  purge_inv w'.
Proof.
  intros Hinv H. unfold cleanup_old_monthly_backups in H.
  assert (Hbody : forall rr ww,
    (_ <- _get_unraid_host env settings ;;
     list_result <- execute_command env (ListMonths (base_path settings)) ;;
     (if negb (SshResult.success list_result) then ret None
      else
        let months := filter Str.truthy (stdout_lines (SshResult.stdout list_result)) in
        deleted_months <-
          (if (Settings.months_to_keep settings <? length months)%nat
           then prune_loop env settings (skipn (Settings.months_to_keep settings) months) []
           else ret []) ;;
        ret (Some (length months, deleted_months)))) w = (rr, ww) ->
    purge_inv ww).
  { clear H. intros rr ww H.
    assert (Hhost : forall rh wh, _get_unraid_host env settings w = (rh, wh) -> purge_inv wh).
    { intros rh wh Hh. pose proof (_get_unraid_host_quiet env settings w) as Hq.
      rewrite Hh in Hq. eapply purge_inv_quiet; eauto. }
    apply bind_inv in H.
    destruct H as [(h & w1 & Hh & H) | (e & Hh & _)]; [ | eapply Hhost; eauto].
    apply Hhost in Hh.
    apply bind_inv in H. destruct H as [(lres & w2 & Hls & H) | (e & Hls & _)].
    2: { eapply purge_inv_command; [exact Hh | | exact Hls]. reflexivity. }
    eapply purge_inv_command in Hls; [ | exact Hh | reflexivity].
    destruct (negb (SshResult.success lres)).
    { apply ret_inv in H. destruct H; subst. exact Hls. }
    cbv zeta in H.
    apply bind_inv in H. destruct H as [(dm & w3 & Hloop & H) | (e & Hloop & _)].
    - apply ret_inv in H. destruct H as [_ ->].
      destruct (Settings.months_to_keep settings
                <? length (filter Str.truthy (stdout_lines (SshResult.stdout lres))))%nat.
      + eapply prune_loop_inv; eauto.
      + apply ret_inv in Hloop. destruct Hloop; subst. exact Hls.
    - destruct (Settings.months_to_keep settings
                <? length (filter Str.truthy (stdout_lines (SshResult.stdout lres))))%nat.
      + eapply prune_loop_inv; eauto.
      + apply ret_inv in Hloop. destruct Hloop; discriminate. }
  apply try_except_inv in H. destruct H as [(a & H & _) | (e & w1 & H & Hh)].
  - eapply Hbody; eauto.
  - apply ret_inv in Hh. destruct Hh; subst. eapply Hbody; eauto.
Qed.

End MonthlyPurge.

(** C10. In the trace of the monthly purge (newest event first), every
    attempt to remove a month directory, whether it succeeds or fails, comes
    after the commit of the DELETE of the ledger rows below that directory;
    and when the purge ends no ledger row has a remote path below a
    directory whose removal was attempted. *)
Theorem monthly_purge_deletes_rows_first
        (env : Env) (settings : Settings.t) (w : World)
        (trace newer older : list Event) (dir : string) (connected : bool) :
  log (snd (cleanup_old_monthly_backups env settings w)) = (trace ++ log w)%list ->
  trace = (newer ++ Ssh (RmTree dir) connected :: older)%list ->
  In (Commit (DeleteLike (dir ++ "%"))) older /\
  forall row,
    In row (sent_snapshots (snd (cleanup_old_monthly_backups env settings w))) ->
    Remote.under dir (SentSnapshot.remote_path row) = false.
Proof.
  intros Hlog Hsplit.
  destruct (cleanup_old_monthly_backups env settings w) as [r w'] eqn:E. simpl in *.
  pose proof (cleanup_old_monthly_backups_inv env settings w w r w' (purge_inv_start w) E)
    as (trace' & Hlog' & Hcf & _ & Hclear).
  assert (trace' = trace).
  { rewrite Hlog in Hlog'. apply app_inv_tail in Hlog'. auto. }
  subst trace'. split.
  - eapply commits_first_split; eauto.
  - intros row Hrow. eapply Hclear; [ | exact Hrow].
    rewrite Hsplit. apply in_or_app. right. left. reflexivity.
Qed.

(** Day-1 rollover with two months to keep and three on the remote host;
    the connection drops for the removal of the oldest month. *)
Lemma monthly_purge_deletes_rows_first_witness :
  In (Commit (DeleteLike ("/mnt/user/backups/petalbyte-client/202404" ++ "%")))
     [Commit (DeleteLike "/mnt/user/backups/petalbyte-client/202404%");
      Ssh (ListMonths "/mnt/user/backups/petalbyte-client") true] /\
  forall row,
    In row (sent_snapshots
              (snd (cleanup_old_monthly_backups
                      (Scenario.flaky_ssh Scenario.june1 (fun t => negb (Nat.eqb t 4)))
                      Scenario.settings
                      (Scenario.at_rest Scenario.three_rows Scenario.three_months [])))) ->
    Remote.under "/mnt/user/backups/petalbyte-client/202404"
                 (SentSnapshot.remote_path row) = false.
Proof.
  apply (monthly_purge_deletes_rows_first
           (Scenario.flaky_ssh Scenario.june1 (fun t => negb (Nat.eqb t 4)))
           Scenario.settings
           (Scenario.at_rest Scenario.three_rows Scenario.three_months [])
           [Ssh (RmTree "/mnt/user/backups/petalbyte-client/202404") false;
            Commit (DeleteLike "/mnt/user/backups/petalbyte-client/202404%");
            Ssh (ListMonths "/mnt/user/backups/petalbyte-client") true]
           []
           [Commit (DeleteLike "/mnt/user/backups/petalbyte-client/202404%");
            Ssh (ListMonths "/mnt/user/backups/petalbyte-client") true]
           "/mnt/user/backups/petalbyte-client/202404" false).
  - vm_compute. reflexivity.
  - reflexivity.
Defined.

(* ================================================================== *)
(** * The incremental purge ([cleanup_old_incremental_backups]) *)

Lemma execute_delete_incremental_before_inv env cutoff w r w' :
  execute_delete_incremental_before env cutoff w = (r, w') ->
  (r = Return tt /\ tick w <= tick w' /\ remote w' = remote w /\
   sent_snapshots w' = Ledger.delete_incremental_before cutoff (sent_snapshots w) /\
   log w' = Commit (DeleteIncrementalBefore cutoff) :: log w) \/
  (exists e, r = Raise e /\ quiet w w').
Proof.
  unfold execute_delete_incremental_before, db_await, bind, await, modify, emit, ret, raise.
  simpl.
  destruct (db_error env (tick w));
    destruct (cancel_arrives env (tick w) && is_some (current_backup w)); simpl;
    try (intros H; inversion H; subst; right; eexists; split; [reflexivity | ];
         unfold quiet; simpl; repeat split; auto; fail);
    destruct (db_error env (S (tick w)));
    try destruct (cancel_arrives env (S (tick w)) && is_some (current_backup w)); simpl;
    try destruct (cancel_arrives env (S (tick w)) && true); simpl;
    intros H; inversion H; subst;
    try (right; eexists; split; [reflexivity | ];
         unfold quiet; simpl; repeat split; auto; fail);
    left; simpl; repeat split; auto.
Qed.

(** ** Paths below the two directories of a month *)

Lemma startswith_app_same (p s t : string) :
  Str.startswith (p ++ s) (p ++ t) = Str.startswith s t.
Proof.
  induction p as [| a p IH]; simpl.
  - reflexivity.
  - rewrite Ascii.eqb_refl. exact IH.
Qed.

Lemma startswith_split (s p q : string) :
  Str.startswith s (p ++ q) = true ->
  exists rest, s = p ++ rest /\ Str.startswith rest q = true.
Proof.
  revert s. induction p as [| a p IH]; intros s H.
  - exists s. split; [reflexivity | exact H].
  - destruct s as [| b s]; simpl in H; [discriminate | ].
    apply Bool.andb_true_iff in H. destruct H as [Hab Hs].
    apply Ascii.eqb_eq in Hab. subst b.
    destruct (IH s Hs) as (rest & -> & Hrest).
    exists rest. split; [reflexivity | exact Hrest].
Qed.

Lemma append_assoc (a b c : string) : (a ++ b) ++ c = a ++ (b ++ c).
Proof. induction a as [| x a IH]; simpl; [reflexivity | rewrite IH; reflexivity]. Qed.

(** The incremental and the full directory of one month share no file. *)
Lemma incremental_not_full settings (month path : string) :
  Remote.under (incremental_dir settings month) path = true ->
  Remote.under (full_dir settings month) path = false.
Proof.
  unfold Remote.under, incremental_dir, full_dir. intros H.
  replace ((base_path settings ++ "/" ++ month ++ "/incremental") ++ "/")
    with ((base_path settings ++ "/" ++ month) ++ "/incremental/") in H
    by (rewrite !append_assoc; reflexivity).
  replace ((base_path settings ++ "/" ++ month ++ "/full") ++ "/")
    with ((base_path settings ++ "/" ++ month) ++ "/full/")
    by (rewrite !append_assoc; reflexivity).
  apply startswith_split in H. destruct H as (rest & -> & Hrest).
  rewrite startswith_app_same.
  destruct rest as [| c0 rest]; simpl in Hrest; [discriminate | ].
  destruct rest as [| c1 rest]; simpl in Hrest.
  { rewrite Bool.andb_false_r in Hrest. discriminate. }
  simpl. destruct (Ascii.eqb c0 "/"); [ | reflexivity].
  destruct (Ascii.eqb c1 "i") eqn:E; [ | discriminate].
  apply Ascii.eqb_eq in E. subst c1. reflexivity.
Qed.

Section IncrementalPurge.
Variable env : Env.
Variable settings : Settings.t.

(** What [find ... -mtime +days -delete] removes, run below the incremental
    directory of the month read at [t], at the remote time of [t']. *)
Definition purged (t t' : nat) (f : RemoteFile.t) : bool :=
  Remote.under (incremental_dir settings (DateTime.Ym (now env t))) (RemoteFile.path f)
  && Remote.is_artifact (RemoteFile.path f)
  && Remote.mtime_over (remote_now env t') (Settings.daily_incremental_days settings) f.

(** The cutoff of the ledger statement, from the clock reading at [t]. *)
Definition cutoff_at (t : nat) : Q :=
  (DateTime.wall (now env t) - days_seconds (Settings.daily_incremental_days settings))%Q.

Lemma cleanup_old_incremental_backups_inv w r w' :
  cleanup_old_incremental_backups env settings w = (r, w') ->
  (remote w' = remote w \/
   exists t t', tick w <= t < tick w' /\ tick w <= t' < tick w' /\
                remote w' = filter (fun f => negb (purged t t' f)) (remote w)) /\
  (sent_snapshots w' = sent_snapshots w \/
   exists t, tick w <= t < tick w' /\
             sent_snapshots w'
             = Ledger.delete_incremental_before (cutoff_at t) (sent_snapshots w)).
Proof.
  intros H. unfold cleanup_old_incremental_backups in H.
  assert (Hbody : forall rr ww,
    (_ <- _get_unraid_host env settings ;;
     d <- datetime_now env ;;
     (let incremental_path := incremental_dir settings (DateTime.Ym d) in
      delete_result <-
        execute_command env
          (FindDeleteOlder incremental_path (Settings.daily_incremental_days settings)) ;;
      d' <- datetime_now env ;;
      (let cutoff_date :=
         (DateTime.wall d' - days_seconds (Settings.daily_incremental_days settings))%Q in
       execute_delete_incremental_before env cutoff_date ;;
       ret (SshResult.success delete_result)))) w = (rr, ww) ->
    (remote ww = remote w \/
     exists t t', tick w <= t < tick ww /\ tick w <= t' < tick ww /\
                  remote ww = filter (fun f => negb (purged t t' f)) (remote w)) /\
    (sent_snapshots ww = sent_snapshots w \/
     exists t, tick w <= t < tick ww /\
               sent_snapshots ww
               = Ledger.delete_incremental_before (cutoff_at t) (sent_snapshots w))).
  { clear H. intros rr ww H.
    apply bind_inv in H.
    pose proof (_get_unraid_host_quiet env settings w) as Hq.
    destruct H as [(h & w1 & Hh & H) | (e & Hh & _)]; rewrite Hh in Hq; simpl in Hq;
      destruct Hq as (Ht1 & Hl1 & _ & Hr1 & _).
    2: { split; left; auto. }
    apply bind_inv in H. destruct H as [(d & w2 & Hnow & H) | (e & Hnow & _)].
    2: { apply datetime_now_inv in Hnow. destruct Hnow. discriminate. }
    apply datetime_now_inv in Hnow. destruct Hnow as [Hd Hw2].
    inversion Hd; subst d; clear Hd. cbv zeta in H.
    apply bind_inv in H. destruct H as [(dres & w3 & Hfind & H) | (e & Hfind & _)].
    2: { apply execute_command_inv in Hfind. destruct Hfind as (? & ? & _). discriminate. }
    apply execute_command_inv in Hfind.
    destruct Hfind as (res' & _ & Htick3 & Hb3 & Hcase).
    destruct Hb3 as (_ & Hl3 & _).
    assert (Hw2t : tick w2 = S (tick w1)) by (subst w2; reflexivity).
    assert (Hw2r : remote w2 = remote w1) by (subst w2; reflexivity).
    assert (Hw2l : sent_snapshots w2 = sent_snapshots w1) by (subst w2; reflexivity).
    assert (Hrem3 : remote w3 = remote w \/
                    remote w3 = filter (fun f => negb (purged (tick w1) (tick w2) f))
                                       (remote w)).
    { destruct Hcase as [(_ & Hrun & _) | (_ & _ & Hr & _)].
      - right. simpl in Hrun. injection Hrun as _ _ Hfs.
        rewrite <- Hfs, Hw2r, Hr1. reflexivity.
      - left. congruence. }
    apply bind_inv in H. destruct H as [(d' & w4 & Hnow' & H) | (e & Hnow' & _)].
    2: { apply datetime_now_inv in Hnow'. destruct Hnow'. discriminate. }
    apply datetime_now_inv in Hnow'. destruct Hnow' as [Hd' Hw4].
    inversion Hd'; subst d'; clear Hd'. cbv zeta in H.
    assert (Hw4t : tick w4 = S (tick w3)) by (subst w4; reflexivity).
    assert (Hw4r : remote w4 = remote w3) by (subst w4; reflexivity).
    assert (Hw4l : sent_snapshots w4 = sent_snapshots w3) by (subst w4; reflexivity).
    apply bind_inv in H.
    assert (Hfinal : forall rd wd,
      execute_delete_incremental_before env
        (DateTime.wall (now env (tick w3))
         - days_seconds (Settings.daily_incremental_days settings))%Q w4 = (rd, wd) ->
      tick w4 <= tick wd /\ remote wd = remote w4 /\
      (sent_snapshots wd = sent_snapshots w \/
       sent_snapshots wd
       = Ledger.delete_incremental_before (cutoff_at (tick w3)) (sent_snapshots w))).
    { intros rd wd Hd. apply execute_delete_incremental_before_inv in Hd.
      destruct Hd as [(_ & Ht & Hr & Hl & _) | (e & _ & Hq)].
      - repeat split; auto. right. rewrite Hl. unfold cutoff_at. congruence.
      - destruct Hq as (Ht & Hl & _ & Hr & _). repeat split; auto. left. congruence. }
    assert (Hwrap : forall wd,
      tick w4 <= tick wd -> remote wd = remote w4 ->
      (sent_snapshots wd = sent_snapshots w \/
       sent_snapshots wd
       = Ledger.delete_incremental_before (cutoff_at (tick w3)) (sent_snapshots w)) ->
      (remote wd = remote w \/
       exists t t', tick w <= t < tick wd /\ tick w <= t' < tick wd /\
                    remote wd = filter (fun f => negb (purged t t' f)) (remote w)) /\
      (sent_snapshots wd = sent_snapshots w \/
       exists t, tick w <= t < tick wd /\
                 sent_snapshots wd
                 = Ledger.delete_incremental_before (cutoff_at t) (sent_snapshots w))).
    { intros wd Ht Hr Hl. split.
      - destruct Hrem3 as [Hrem3 | Hrem3]; [left; congruence | right].
        exists (tick w1), (tick w2). repeat split; try lia. congruence.
      - destruct Hl as [Hl | Hl]; [left; exact Hl | right].
        exists (tick w3). split; [lia | exact Hl]. }
    destruct H as [(u & w5 & Hdel & H) | (e & Hdel & _)].
    - apply ret_inv in H. destruct H as [_ ->].
      apply Hfinal in Hdel. destruct Hdel as (Ht & Hr & Hl). apply Hwrap; auto.
    - apply Hfinal in Hdel. destruct Hdel as (Ht & Hr & Hl). apply Hwrap; auto. }
  apply try_except_inv in H. destruct H as [(a & H & _) | (e & w1 & H & Hh)].
  - eapply Hbody; eauto.
  - apply ret_inv in Hh. destruct Hh; subst. eapply Hbody; eauto.
Qed.

End IncrementalPurge.

(** The claim as worded: a ledger row is removed exactly when the artifact
    at its remote path is deleted. *)
Definition rows_follow_artifacts (w w' : World) : Prop :=
  forall row, In row (sent_snapshots w) ->
    (~ In row (sent_snapshots w') <->
     exists f, In f (remote w) /\ ~ In f (remote w') /\
               RemoteFile.path f = SentSnapshot.remote_path row).

(** On 15 June the purge drops the ledger row of an incremental of 10 May,
    whose artifact lies in May's directory and stays on the remote host. *)
Lemma incremental_purge_rows_counterexample :
  ~ rows_follow_artifacts
      (Scenario.at_rest [Scenario.may_incremental_row] [Scenario.may_incremental] [])
      (snd (cleanup_old_incremental_backups
              (Scenario.fair Scenario.june15) Scenario.settings
              (Scenario.at_rest [Scenario.may_incremental_row]
                                [Scenario.may_incremental] []))).
Proof.
  intros H.
  specialize (H Scenario.may_incremental_row (or_introl eq_refl)).
  destruct H as [H _].
  destruct H as (f & Hin & Hgone & _).
  - vm_compute. intros [].
  - apply Hgone. destruct Hin as [<- | []]. vm_compute. left. reflexivity.
Qed.

Lemma filter_out {A : Type} (p : A -> bool) (l : list A) (a : A) :
  In a l -> ~ In a (filter p l) -> p a = false.
Proof.
  intros Hin Hnot. destruct (p a) eqn:E; [ | reflexivity].
  exfalso. apply Hnot. apply filter_In. auto.
Qed.

(** C8 (amended). What the incremental purge deletes on the remote host lies
    below the incremental directory of the month it read from the clock, is
    named [*.btrfs.gpg] and is more than [daily_incremental_days] whole days
    old, and it is not below that month's full directory.  A ledger row that
    the purge removes has kind incremental and was sent before the cutoff,
    now minus [daily_incremental_days]; and the ledger afterwards is either
    untouched or the old one without all such rows, whatever their month and
    whether or not their artifact was deleted. *)
Theorem incremental_purge_scope
        (env : Env) (settings : Settings.t) (w : World)
        (f : RemoteFile.t) (row : SentSnapshot.t) :
  let w' := snd (cleanup_old_incremental_backups env settings w) in
  (In f (remote w) -> ~ In f (remote w') ->
   exists t t',
     tick w <= t < tick w' /\ tick w <= t' < tick w' /\
     Remote.under (incremental_dir settings (DateTime.Ym (now env t))) (RemoteFile.path f)
     = true /\
     Remote.is_artifact (RemoteFile.path f) = true /\
     Remote.mtime_over (remote_now env t') (Settings.daily_incremental_days settings) f
     = true /\
     Remote.under (full_dir settings (DateTime.Ym (now env t))) (RemoteFile.path f)
     = false) /\
  (In row (sent_snapshots w) -> ~ In row (sent_snapshots w') ->
   SentSnapshot.backup_type row = "incremental" /\
   exists t, tick w <= t < tick w' /\
             (SentSnapshot.sent_at row < cutoff_at env settings t)%Q) /\
  (sent_snapshots w' = sent_snapshots w \/
   exists t, tick w <= t < tick w' /\
             sent_snapshots w'
             = Ledger.delete_incremental_before (cutoff_at env settings t)
                                                (sent_snapshots w)).
Proof.
  intros w'. subst w'.
  destruct (cleanup_old_incremental_backups env settings w) as [r w'] eqn:E. simpl.
  apply cleanup_old_incremental_backups_inv in E. destruct E as [Hrem Hled].
  split; [ | split].
  - intros Hin Hgone. destruct Hrem as [Hrem | (t & t' & Ht & Ht' & Hrem)].
    + rewrite Hrem in Hgone. contradiction.
    + rewrite Hrem in Hgone. apply filter_out in Hgone; [ | exact Hin].
      apply Bool.negb_false_iff in Hgone. unfold purged in Hgone.
      apply Bool.andb_true_iff in Hgone. destruct Hgone as [Hgone Hold].
      apply Bool.andb_true_iff in Hgone. destruct Hgone as [Hunder Hart].
      exists t, t'. repeat split; try tauto.
      apply incremental_not_full. exact Hunder.
  - intros Hin Hgone. destruct Hled as [Hled | (t & Ht & Hled)].
    + rewrite Hled in Hgone. contradiction.
    + rewrite Hled in Hgone. unfold Ledger.delete_incremental_before in Hgone.
      apply filter_out in Hgone; [ | exact Hin].
      apply Bool.negb_false_iff in Hgone.
      apply Bool.andb_true_iff in Hgone. destruct Hgone as [Hkind Hsent].
      apply String.eqb_eq in Hkind. apply Qltb_lt in Hsent.
      split; [exact Hkind | ]. exists t. split; [exact Ht | exact Hsent].
  - exact Hled.
Qed.

(** With incrementals kept for a week, on 15 June the purge deletes the
    incremental of 1 June and its ledger row. *)
Lemma incremental_purge_scope_witness :
  exists t t',
    0 <= t < 6 /\ 0 <= t' < 6 /\
    Remote.under (incremental_dir Scenario.weekly
                    (DateTime.Ym (now (Scenario.fair Scenario.june15) t)))
                 (RemoteFile.path Scenario.june_incremental) = true /\
    Remote.is_artifact (RemoteFile.path Scenario.june_incremental) = true /\
    Remote.mtime_over (remote_now (Scenario.fair Scenario.june15) t') 7
                      Scenario.june_incremental = true /\
    Remote.under (full_dir Scenario.weekly
                    (DateTime.Ym (now (Scenario.fair Scenario.june15) t)))
                 (RemoteFile.path Scenario.june_incremental) = false.
Proof.
  apply (proj1 (incremental_purge_scope
                  (Scenario.fair Scenario.june15) Scenario.weekly
                  (Scenario.at_rest [Scenario.june_incremental_row]
                                    [Scenario.june_incremental] [])
                  Scenario.june_incremental Scenario.june_incremental_row)).
  - left. reflexivity.
  - vm_compute. intros [].
Defined.

(* ================================================================== *)
(** * Local snapshot aging ([cleanup_old_snapshots]) *)

Lemma append_inj_l (p a b : string) : p ++ a = p ++ b -> a = b.
Proof.
  induction p as [| c p IH]; simpl; intros H.
  - exact H.
  - inversion H. auto.
Qed.

Lemma concat_snoc_inj (sep : string) (l : list string) (a b : string) :
  String.concat sep (l ++ [a]) = String.concat sep (l ++ [b]) -> a = b.
Proof.
  induction l as [| x l IH]; simpl; intros H.
  - exact H.
  - destruct l as [| y l]; simpl in *.
    + apply append_inj_l in H. apply append_inj_l in H. exact H.
    + apply append_inj_l in H. apply append_inj_l in H. apply IH. exact H.
Qed.

Section Aging.
Variable env : Env.
Variable settings : Settings.t.

Lemma entry_path_inj (a b : DirEntry.t) :
  entry_path settings a = entry_path settings b -> DirEntry.name a = DirEntry.name b.
Proof.
  unfold entry_path, PosixPath.child. intros H.
  apply append_inj_l in H. apply concat_snoc_inj in H. exact H.
Qed.

Lemma same_name_same_entry (l : list DirEntry.t) (a b : DirEntry.t) :
  NoDup (map DirEntry.name l) -> In a l -> In b l ->
  DirEntry.name a = DirEntry.name b -> a = b.
Proof.
  induction l as [| x l IH]; simpl; intros Hnd Ha Hb Hname; [contradiction | ].
  inversion Hnd as [| ? ? Hnotin Hnd']; subst.
  destruct Ha as [-> | Ha], Hb as [-> | Hb]; auto.
  - exfalso. apply Hnotin. rewrite Hname. apply in_map. exact Hb.
  - exfalso. apply Hnotin. rewrite <- Hname. apply in_map. exact Ha.
Qed.

(** The [str] of an entry of the directory names the entries of that
    [str]. *)
Lemma named_by_str (l : list DirEntry.t) (entry e : DirEntry.t) :
  In entry l ->
  named settings l (entry_path settings entry) e
  = String.eqb (entry_path settings e) (entry_path settings entry).
Proof.
  intros Hin. unfold named.
  assert (H : existsb (fun x => String.eqb (entry_path settings x)
                                           (entry_path settings entry)) l = true).
  { apply existsb_exists. exists entry. split; [exact Hin | apply String.eqb_refl]. }
  rewrite H. reflexivity.
Qed.

Lemma delete_by_str (l : list DirEntry.t) (entry : DirEntry.t) :
  In entry l ->
  filter (fun e => negb (named settings l (entry_path settings entry) e)) l
  = filter (fun e => negb (String.eqb (entry_path settings e) (entry_path settings entry))) l.
Proof.
  intros Hin. apply filter_ext. intros e. rewrite named_by_str by exact Hin. reflexivity.
Qed.

Lemma _delete_snapshot_inv p w r w' :
  _delete_snapshot env settings p w = (r, w') ->
  exists b, r = Return b /\ tick w' = S (tick w) /\
            sent_snapshots w' = sent_snapshots w /\
            (snapshot_entries w' = snapshot_entries w \/
             snapshot_entries w'
             = option_map (fun l => filter (fun e => negb (named settings l p e)) l)
                          (snapshot_entries w)).
Proof.
  unfold _delete_snapshot, bind, await, modify, ret. simpl.
  destruct (btrfs_delete_ok env (tick w));
    destruct (cancel_arrives env (tick w) && is_some (current_backup w)); simpl;
    intros H; inversion H; subst; eexists; repeat split; simpl; auto.
Qed.

Variable days : nat.
Variable cutoff_time : Q.
Variable w0 : World.
Variable l0 : list DirEntry.t.
Hypothesis names_unique : NoDup (map DirEntry.name l0).

(** The rule under which aging may delete [e], the double window checked at
    a clock reading between [w0] and [w]. *)
Definition aged_out (e : DirEntry.t) (w : World) : Prop :=
  (DirEntry.st_ctime e < cutoff_time)%Q /\
  (Ledger.select_id (sent_snapshots w0) (entry_path settings e) <> None \/
   (Ledger.select_id (sent_snapshots w0) (entry_path settings e) = None /\
    exists t, tick w0 <= t < tick w /\
              (DirEntry.st_ctime e
               < DateTime.timestamp (now env t) - days_seconds (days * 2))%Q)).

(** The loop's invariant, with the entries [todo] still to be visited:
    they are in the directory, and whatever has gone was aged out. *)
Definition aging_inv (todo : list DirEntry.t) (w : World) : Prop :=
  tick w0 <= tick w /\
  sent_snapshots w = sent_snapshots w0 /\
  exists l, snapshot_entries w = Some l /\
            (forall e, In e l -> In e l0) /\
            (forall e, In e todo -> In e l) /\
            (forall e, In e l0 -> In e l \/ aged_out e w).

Lemma aged_out_later e w w' : tick w <= tick w' -> aged_out e w -> aged_out e w'.
Proof.
  intros Hle (Hc & H). split; [exact Hc | ].
  destruct H as [H | (Hn & t & Ht & Hd)]; [left; exact H | right].
  split; [exact Hn | ]. exists t. split; [lia | exact Hd].
Qed.

Lemma aging_inv_step todo w w' :
  aging_inv todo w -> tick w <= tick w' -> sent_snapshots w' = sent_snapshots w ->
  snapshot_entries w' = snapshot_entries w -> aging_inv todo w'.
Proof.
  intros (Ht & Hl & l & He & Hsub & Htodo & Hdel) Hle Hl' He'.
  unfold aging_inv. repeat split; try lia; try congruence.
  exists l. repeat split; auto; try congruence.
  intros e Hin. destruct (Hdel e Hin) as [H | H]; [left; exact H | right].
  eapply aged_out_later; eauto.
Qed.

Lemma aging_inv_quiet todo w w' : aging_inv todo w -> quiet w w' -> aging_inv todo w'.
Proof.
  intros Hinv (Ht & Hl & _ & _ & He & _). eapply aging_inv_step; eauto.
Qed.

Lemma aging_inv_next entry todo w : aging_inv (entry :: todo) w -> aging_inv todo w.
Proof.
  intros (Ht & Hl & l & He & Hsub & Htodo & Hdel).
  unfold aging_inv. repeat split; auto.
  exists l. repeat split; auto. intros e Hin. apply Htodo. right. exact Hin.
Qed.

Lemma aging_inv_done todo w : aging_inv todo w -> aging_inv [] w.
Proof.
  induction todo as [| x todo IH]; intros H; [exact H | ].
  apply IH. eapply aging_inv_next. exact H.
Qed.

(** Deleting an entry for which the rule holds keeps the invariant. *)
Lemma aging_inv_delete entry todo w r w' :
  aging_inv (entry :: todo) w ->
  ~ In entry todo ->
  (forall w1, tick w < tick w1 -> aged_out entry w1) ->
  _delete_snapshot env settings (entry_path settings entry) w = (r, w') ->
  aging_inv todo w' /\ exists b, r = Return b.
Proof.
  intros Hinv Hfresh Hrule H. apply _delete_snapshot_inv in H.
  destruct H as (b & -> & Htick & Hl & He). split; [ | eauto].
  destruct He as [He | He].
  - apply aging_inv_next in Hinv. eapply aging_inv_step; eauto. lia.
  - destruct Hinv as (Ht & Hl0 & l & Hsome & Hsub & Htodo & Hdel).
    assert (Hentry : In entry l) by (apply Htodo; left; reflexivity).
    rewrite Hsome in He. simpl in He. rewrite (delete_by_str l entry Hentry) in He.
    unfold aging_inv. repeat split; try lia; try congruence.
    eexists. split; [exact He | ]. split; [ | split].
    + intros e Hin. apply filter_In in Hin. apply Hsub. tauto.
    + intros e Hin. apply filter_In. split; [apply Htodo; right; exact Hin | ].
      apply Bool.negb_true_iff. apply String.eqb_neq. intros Heq.
      apply entry_path_inj in Heq.
      assert (e = entry).
      { eapply same_name_same_entry; [exact names_unique | | | exact Heq].
        - apply Hsub. apply Htodo. right. exact Hin.
        - apply Hsub. exact Hentry. }
      subst e. contradiction.
    + intros e Hin. destruct (Hdel e Hin) as [Hin' | Hold].
      2: { right. eapply aged_out_later; [ | exact Hold]. lia. }
      destruct (String.eqb (entry_path settings e) (entry_path settings entry)) eqn:E.
      * right. apply String.eqb_eq in E. apply entry_path_inj in E.
        assert (e = entry).
        { eapply same_name_same_entry; [exact names_unique | exact Hin | | exact E].
          apply Hsub. exact Hentry. }
        subst e. apply Hrule. lia.
      * left. apply filter_In. split; [exact Hin' | ]. rewrite E. reflexivity.
Qed.

Lemma cleanup_entry_inv entry todo n w r w' :
  aging_inv (entry :: todo) w ->
  ~ In entry todo ->
  cleanup_entry env settings days cutoff_time entry n w = (r, w') ->
  aging_inv todo w'.
Proof.
  intros Hinv0 Hfresh H. unfold cleanup_entry in H.
  pose proof (aging_inv_next _ _ _ Hinv0) as Hinv.
  destruct (looks_like_snapshot entry).
  2: { apply ret_inv in H. destruct H; subst. exact Hinv. }
  destruct (Qltb (DirEntry.st_ctime entry) cutoff_time) eqn:Hcut.
  2: { apply ret_inv in H. destruct H; subst. exact Hinv. }
  apply Qltb_lt in Hcut.
  apply bind_inv in H. destruct H as [(o & w1 & Hq & H) | (e & Hq & _)].
  2: { apply query_sent_id_inv in Hq. destruct Hq as [Hq _].
       eapply aging_inv_quiet; eauto. }
  apply query_sent_id_inv in Hq. destruct Hq as [Hq Ho].
  specialize (Ho o eq_refl).
  assert (Hinv1 : aging_inv (entry :: todo) w1) by (eapply aging_inv_quiet; eauto).
  assert (Hl1 : sent_snapshots w = sent_snapshots w0) by (destruct Hinv as (_ & ? & _); auto).
  rewrite Hl1 in Ho.
  destruct o as [i | ].
  - (* recorded as sent *)
    apply bind_inv in H. destruct H as [(ok & w2 & Hdel & H) | (e & Hdel & _)].
    + apply ret_inv in H. destruct H as [_ ->].
      eapply aging_inv_delete in Hdel; eauto; [tauto | ].
      intros w3 _. split; [exact Hcut | left]. congruence.
    + eapply aging_inv_delete in Hdel; eauto; [tauto | ].
      intros w3 _. split; [exact Hcut | left]. congruence.
  - (* not recorded: the double window *)
    apply bind_inv in H. destruct H as [(d & w2 & Hnow & H) | (e & Hnow & _)].
    2: { apply datetime_now_inv in Hnow. destruct Hnow. discriminate. }
    apply datetime_now_inv in Hnow. destruct Hnow as [Hd Hw2].
    inversion Hd; subst d; clear Hd. cbv zeta in H.
    assert (Hinv2 : aging_inv (entry :: todo) w2).
    { subst w2. eapply aging_inv_step; eauto. simpl. lia. }
    destruct (Qltb (DirEntry.st_ctime entry)
                   (DateTime.timestamp (now env (tick w1)) - days_seconds (days * 2)))
             eqn:Hdouble.
    2: { apply ret_inv in H. destruct H; subst. eapply aging_inv_next. exact Hinv2. }
    apply Qltb_lt in Hdouble.
    assert (Hrule : forall w3, tick w2 < tick w3 -> aged_out entry w3).
    { intros w3 Hlt. split; [exact Hcut | right]. split; [congruence | ].
      exists (tick w1). split; [ | exact Hdouble].
      destruct Hinv1 as (Ht1 & _). subst w2. simpl in Hlt. lia. }
    apply bind_inv in H. destruct H as [(ok & w3 & Hdel & H) | (e & Hdel & _)].
    + apply ret_inv in H. destruct H as [_ ->].
      eapply aging_inv_delete in Hdel; eauto. tauto.
    + eapply aging_inv_delete in Hdel; eauto. tauto.
Qed.

Lemma cleanup_loop_inv entries : forall n w r w',
  NoDup entries ->
  aging_inv entries w ->
  cleanup_loop env settings days cutoff_time entries n w = (r, w') ->
  aging_inv [] w'.
Proof.
  induction entries as [| entry rest IH]; simpl; intros n w r w' Hnd Hinv H.
  - apply ret_inv in H. destruct H; subst. exact Hinv.
  - inversion Hnd as [| ? ? Hfresh Hnd']; subst.
    apply bind_inv in H. destruct H as [(n1 & w1 & H1 & H) | (e & H1 & _)].
    + eapply IH; [exact Hnd' | | exact H]. eapply cleanup_entry_inv; eauto.
    + eapply aging_inv_done. eapply cleanup_entry_inv; eauto.
Qed.

End Aging.

Lemma NoDup_of_names (l : list DirEntry.t) : NoDup (map DirEntry.name l) -> NoDup l.
Proof.
  induction l as [| a l IH]; simpl; intros H; constructor; inversion H; subst.
  - intros Hin. apply H2. apply in_map. exact Hin.
  - auto.
Qed.

(** The subvolume of a snapshot directory name, as [list_snapshots] parses
    it: the part before the first underscore. *)
Fixpoint before_underscore (s : string) : string :=
  match s with
  | EmptyString => EmptyString
  | String a s' => if Ascii.eqb a "_" then EmptyString else String a (before_underscore s')
  end.

(** The claim as worded: whatever aging deletes either has a newer sent
    snapshot of the same subvolume left behind, or is not in the ledger and
    older than twice the window (at the time [now_ts]). *)
Definition spares_newest_sent (settings : Settings.t) (days : nat) (now_ts : Q)
           (w w' : World) : Prop :=
  forall l l' e,
    snapshot_entries w = Some l -> snapshot_entries w' = Some l' ->
    In e l -> ~ In e l' ->
    (exists e', In e' l' /\
                before_underscore (DirEntry.name e') = before_underscore (DirEntry.name e) /\
                String.ltb (DirEntry.name e) (DirEntry.name e') = true /\
                Ledger.select_id (sent_snapshots w) (entry_path settings e') <> None) \/
    (Ledger.select_id (sent_snapshots w) (entry_path settings e) = None /\
     (DirEntry.st_ctime e < now_ts - days_seconds (days * 2))%Q).

(** On 15 June, with a window of three days, the only snapshot of "@", sent
    on 1 June, is deleted: no sent predecessor is left. *)
Lemma local_aging_counterexample :
  ~ spares_newest_sent
      Scenario.settings 3 (DateTime.timestamp Scenario.june15)
      (Scenario.at_rest [Scenario.june1_row] [Scenario.june_full] [Scenario.june1_snapshot])
      (snd (cleanup_old_snapshots
              (Scenario.fair Scenario.june15) Scenario.settings 3
              (Scenario.at_rest [Scenario.june1_row] [Scenario.june_full]
                                [Scenario.june1_snapshot]))).
Proof.
  intros H.
  specialize (H [Scenario.june1_snapshot] [] Scenario.june1_snapshot
                eq_refl eq_refl (or_introl eq_refl) (fun x => x)).
  destruct H as [(e' & [] & _) | (Hnone & _)].
  vm_compute in Hnone. discriminate.
Qed.

(** C7 (amended). Every snapshot that [cleanup_old_snapshots] deletes is
    older than the retention window, and it is either recorded as sent in
    the ledger, or not recorded and older than twice the window. *)
Theorem local_aging_rule
        (env : Env) (settings : Settings.t) (days : nat) (w : World)
        (l l' : list DirEntry.t) (e : DirEntry.t) :
  snapshot_entries w = Some l ->
  NoDup (map DirEntry.name l) ->
  snapshot_entries (snd (cleanup_old_snapshots env settings days w)) = Some l' ->
  In e l -> ~ In e l' ->
  (DirEntry.st_ctime e < DateTime.timestamp (now env (tick w)) - days_seconds days)%Q /\
  (Ledger.select_id (sent_snapshots w) (entry_path settings e) <> None \/
   (Ledger.select_id (sent_snapshots w) (entry_path settings e) = None /\
    exists t, tick w <= t < tick (snd (cleanup_old_snapshots env settings days w)) /\
              (DirEntry.st_ctime e
               < DateTime.timestamp (now env t) - days_seconds (days * 2))%Q)).
Proof.
  intros Hl Hnd Hl' Hin Hgone.
  destruct (cleanup_old_snapshots env settings days w) as [r w'] eqn:E. simpl in *.
  unfold cleanup_old_snapshots in E.
  apply bind_inv in E. destruct E as [(o & w1 & Hget & E) | (e0 & Hget & _)].
  2: { apply get_inv in Hget. destruct Hget. discriminate. }
  apply get_inv in Hget. destruct Hget as [Ho ->]. inversion Ho; subst o; clear Ho.
  rewrite Hl in E.
  apply bind_inv in E. destruct E as [(d & w2 & Hnow & E) | (e0 & Hnow & _)].
  2: { apply datetime_now_inv in Hnow. destruct Hnow. discriminate. }
  apply datetime_now_inv in Hnow. destruct Hnow as [Hd Hw2].
  inversion Hd; subst d; clear Hd. cbv zeta in E.
  assert (Hinv : aging_inv env settings days
                           (DateTime.timestamp (now env (tick w)) - days_seconds days)%Q
                           w l l w2).
  { subst w2. unfold aging_inv. simpl. repeat split; auto.
    exists l. repeat split; auto. }
  eapply cleanup_loop_inv in E; [ | exact Hnd | apply NoDup_of_names; exact Hnd | exact Hinv].
  destruct E as (_ & _ & l2 & Hl2 & _ & _ & Hdel).
  assert (l2 = l') by congruence. subst l2.
  destruct (Hdel e Hin) as [H | H]; [contradiction | exact H].
Qed.

Lemma local_aging_rule_witness :
  (DirEntry.st_ctime Scenario.june1_snapshot
   < DateTime.timestamp (now (Scenario.fair Scenario.june15) 0) - days_seconds 3)%Q /\
  (Ledger.select_id [Scenario.june1_row]
                    (entry_path Scenario.settings Scenario.june1_snapshot) <> None \/
   (Ledger.select_id [Scenario.june1_row]
                     (entry_path Scenario.settings Scenario.june1_snapshot) = None /\
    exists t, 0 <= t < 3 /\
              (DirEntry.st_ctime Scenario.june1_snapshot
               < DateTime.timestamp (now (Scenario.fair Scenario.june15) t)
                 - days_seconds (3 * 2))%Q)).
Proof.
  apply (local_aging_rule
           (Scenario.fair Scenario.june15) Scenario.settings 3
           (Scenario.at_rest [Scenario.june1_row] [Scenario.june_full]
                             [Scenario.june1_snapshot])
           [Scenario.june1_snapshot] [] Scenario.june1_snapshot).
  - reflexivity.
  - simpl. constructor; [intros [] | constructor].
  - vm_compute. reflexivity.
  - left. reflexivity.
  - intros [].
Defined.

(* ================================================================== *)
(** * Parts of the world that a computation leaves alone *)

(** [kept f]: the value of [f] is the same before and after. *)
Definition kept {A : Type} (f : World -> A) (w w' : World) : Prop := f w' = f w.

#[export] Instance kept_frame {A : Type} (f : World -> A) : Frame (kept f).
Proof.
  split; unfold kept.
  - reflexivity.
  - intros a b c H1 H2. congruence.
Qed.

Section Kept.
Context {A : Type} (f : World -> A).
Hypothesis f_tick : forall x w, f (with_tick x w) = f w.
Hypothesis f_cancel : forall x w, f (with_cancel_requested x w) = f w.
Hypothesis f_log : forall x w, f (with_log x w) = f w.
Hypothesis f_current : forall x w, f (with_current_backup x w) = f w.
Hypothesis f_remote : forall x w, f (with_remote x w) = f w.
Hypothesis f_entries : forall x w, f (with_snapshot_entries x w) = f w.
Hypothesis f_ledger : forall x w, f (with_sent_snapshots x w) = f w.
Hypothesis f_dirs : forall x w, f (with_remote_dirs x w) = f w.
Variable env : Env.
Variable settings : Settings.t.

Ltac kept_step :=
  match goal with
  | |- kept _ _ _ =>
      unfold kept;
      first [ apply f_tick | apply f_cancel | apply f_log | apply f_current
            | apply f_remote | apply f_entries | apply f_ledger | apply f_dirs ]
  | _ => keeps_step
  end.

Ltac kept_auto := repeat kept_step.

Lemma await_kept : keeps (kept f) (await env).
Proof.
  intros w. unfold kept, await. simpl.
  destruct (cancel_arrives env (tick w) && is_some (current_backup w)); simpl.
  - rewrite f_cancel. apply f_tick.
  - apply f_tick.
Qed.

Lemma reading_kept : keeps (kept f) reading.
Proof. intros w. unfold kept, reading. simpl. apply f_tick. Qed.

Hint Resolve await_kept reading_kept : keeps.

Lemma datetime_now_kept : keeps (kept f) (datetime_now env).
Proof. unfold datetime_now. kept_auto. Qed.

Lemma datetime_utcnow_kept : keeps (kept f) (datetime_utcnow env).
Proof. unfold datetime_utcnow. kept_auto. Qed.

Lemma emit_kept e : keeps (kept f) (emit e).
Proof. unfold emit. kept_auto. Qed.

Lemma db_await_kept : keeps (kept f) (db_await env).
Proof. unfold db_await. kept_auto. Qed.

Hint Resolve datetime_now_kept datetime_utcnow_kept emit_kept db_await_kept : keeps.

Lemma count_sent_kept : keeps (kept f) (count_sent env).
Proof. unfold count_sent. kept_auto. Qed.

Lemma query_sent_id_kept p : keeps (kept f) (query_sent_id env p).
Proof. unfold query_sent_id. kept_auto. Qed.

Lemma query_remote_paths_kept : keeps (kept f) (query_remote_paths env).
Proof. unfold query_remote_paths. kept_auto. Qed.

Lemma insert_sent_kept p rp t sz k parent :
  keeps (kept f) (insert_sent env p rp t sz k parent).
Proof. unfold insert_sent. kept_auto. Qed.

Lemma execute_delete_like_kept pattern : keeps (kept f) (execute_delete_like env pattern).
Proof. unfold execute_delete_like. kept_auto. Qed.

Lemma execute_delete_incremental_before_kept cutoff :
  keeps (kept f) (execute_delete_incremental_before env cutoff).
Proof. unfold execute_delete_incremental_before. kept_auto. Qed.

Lemma execute_command_kept c : keeps (kept f) (execute_command env c).
Proof. unfold execute_command. kept_auto. Qed.

Hint Resolve count_sent_kept query_sent_id_kept query_remote_paths_kept insert_sent_kept
  execute_delete_like_kept execute_delete_incremental_before_kept execute_command_kept
  : keeps.

Lemma check_remote_file_kept p : keeps (kept f) (check_remote_file env p).
Proof. unfold check_remote_file. kept_auto. Qed.

Hint Resolve check_remote_file_kept : keeps.

Lemma verify_remote_file_kept p n : keeps (kept f) (verify_remote_file env p n).
Proof. unfold verify_remote_file. kept_auto. Qed.

Lemma create_remote_directory_kept p : keeps (kept f) (create_remote_directory env p).
Proof. unfold create_remote_directory. kept_auto. Qed.

Lemma delete_remote_file_kept p : keeps (kept f) (delete_remote_file env p).
Proof. unfold delete_remote_file. kept_auto. Qed.

Hint Resolve verify_remote_file_kept create_remote_directory_kept delete_remote_file_kept
  : keeps.

(** *** SnapshotManager *)

Lemma _create_snapshot_kept n m t : keeps (kept f) (_create_snapshot env settings n m t).
Proof. unfold _create_snapshot. kept_auto. Qed.

Lemma _delete_snapshot_kept p : keeps (kept f) (_delete_snapshot env settings p).
Proof. unfold _delete_snapshot. kept_auto. Qed.

Hint Resolve _create_snapshot_kept _delete_snapshot_kept : keeps.

Lemma delete_all_kept l : keeps (kept f) (delete_all env settings l).
Proof. induction l; simpl; kept_auto. Qed.

Hint Resolve delete_all_kept : keeps.

Lemma create_loop_kept subvols : forall t acc,
  keeps (kept f) (create_loop env settings subvols t acc).
Proof.
  induction subvols as [| [n m] rest IH]; intros t acc; simpl; kept_auto.
Qed.

Hint Resolve create_loop_kept : keeps.

Lemma create_snapshots_kept : keeps (kept f) (create_snapshots env settings).
Proof. unfold create_snapshots. kept_auto. Qed.

Lemma iterdir_kept : keeps (kept f) iterdir.
Proof. unfold iterdir. kept_auto. Qed.

Hint Resolve create_snapshots_kept iterdir_kept : keeps.

Lemma first_sent_kept l : keeps (kept f) (first_sent env settings l).
Proof. induction l; simpl; kept_auto. Qed.

Hint Resolve first_sent_kept : keeps.

Lemma find_parent_snapshot_kept s : keeps (kept f) (find_parent_snapshot env settings s).
Proof. unfold find_parent_snapshot. kept_auto. Qed.

Lemma cleanup_entry_kept days c e n : keeps (kept f) (cleanup_entry env settings days c e n).
Proof. unfold cleanup_entry. kept_auto. Qed.

Hint Resolve find_parent_snapshot_kept cleanup_entry_kept : keeps.

Lemma cleanup_loop_kept days c l : forall n,
  keeps (kept f) (cleanup_loop env settings days c l n).
Proof. induction l; intros n; simpl; kept_auto. Qed.

Hint Resolve cleanup_loop_kept : keeps.

Lemma cleanup_old_snapshots_kept days : keeps (kept f) (cleanup_old_snapshots env settings days).
Proof. unfold cleanup_old_snapshots. kept_auto. Qed.

Hint Resolve cleanup_old_snapshots_kept : keeps.

(** *** CleanupManager *)

Lemma _get_unraid_host_kept : keeps (kept f) (_get_unraid_host env settings).
Proof. unfold _get_unraid_host. kept_auto. Qed.

Lemma sweep_orphan_kept o n : keeps (kept f) (sweep_orphan env o n).
Proof. unfold sweep_orphan. kept_auto. Qed.

Hint Resolve _get_unraid_host_kept sweep_orphan_kept : keeps.

Lemma sweep_loop_kept l : forall n, keeps (kept f) (sweep_loop env l n).
Proof. induction l; intros n; simpl; kept_auto. Qed.

Hint Resolve sweep_loop_kept : keeps.

Lemma cleanup_failed_uploads_kept : keeps (kept f) (cleanup_failed_uploads env settings).
Proof. unfold cleanup_failed_uploads. kept_auto. Qed.

Lemma prune_month_kept m l : keeps (kept f) (prune_month env settings m l).
Proof. unfold prune_month. kept_auto. Qed.

Hint Resolve cleanup_failed_uploads_kept prune_month_kept : keeps.

Lemma prune_loop_kept months : forall l, keeps (kept f) (prune_loop env settings months l).
Proof. induction months; intros l; simpl; kept_auto. Qed.

Hint Resolve prune_loop_kept : keeps.

Lemma cleanup_old_monthly_backups_kept :
  keeps (kept f) (cleanup_old_monthly_backups env settings).
Proof. unfold cleanup_old_monthly_backups. kept_auto. Qed.

Lemma cleanup_old_incremental_backups_kept :
  keeps (kept f) (cleanup_old_incremental_backups env settings).
Proof. unfold cleanup_old_incremental_backups. kept_auto. Qed.

Lemma cleanup_local_snapshots_kept : keeps (kept f) (cleanup_local_snapshots env settings).
Proof. unfold cleanup_local_snapshots. kept_auto. Qed.

Hint Resolve cleanup_old_monthly_backups_kept cleanup_old_incremental_backups_kept
  cleanup_local_snapshots_kept : keeps.

(** *** BackupEngine *)

Lemma run_callbacks_kept n : keeps (kept f) (run_callbacks env n).
Proof. induction n; simpl; kept_auto. Qed.

Hint Resolve run_callbacks_kept : keeps.

Lemma _update_progress_kept s a b p c d : keeps (kept f) (_update_progress env s a b p c d).
Proof. unfold _update_progress. kept_auto. Qed.

Lemma _determine_backup_type_kept ff : keeps (kept f) (_determine_backup_type env ff).
Proof. unfold _determine_backup_type. kept_auto. Qed.

Lemma _is_snapshot_sent_kept p : keeps (kept f) (_is_snapshot_sent env p).
Proof. unfold _is_snapshot_sent. kept_auto. Qed.

Lemma _record_sent_snapshot_kept p rp sz k parent :
  keeps (kept f) (_record_sent_snapshot env p rp sz k parent).
Proof. unfold _record_sent_snapshot. kept_auto. Qed.

Lemma _transfer_with_progress_kept p : keeps (kept f) (_transfer_with_progress env p).
Proof. unfold _transfer_with_progress. kept_auto. Qed.

Hint Resolve _update_progress_kept _determine_backup_type_kept _is_snapshot_sent_kept
  _record_sent_snapshot_kept _transfer_with_progress_kept : keeps.

Lemma _send_kept msg p : keeps (kept f) (_send env msg p).
Proof. unfold _send. kept_auto. Qed.

Lemma size_of_kept r : keeps (kept f) (size_of r).
Proof. unfold size_of. kept_auto. Qed.

Hint Resolve _send_kept size_of_kept : keeps.

Lemma _perform_full_backup_kept s : keeps (kept f) (_perform_full_backup env settings s).
Proof. unfold _perform_full_backup, _send_snapshot. kept_auto. Qed.

Lemma _perform_incremental_backup_kept s p :
  keeps (kept f) (_perform_incremental_backup env settings s p).
Proof. unfold _perform_incremental_backup, _send_incremental_snapshot. kept_auto. Qed.

Lemma usable_parent_kept p : keeps (kept f) (usable_parent env p).
Proof. unfold usable_parent. kept_auto. Qed.

Hint Resolve _perform_full_backup_kept _perform_incremental_backup_kept usable_parent_kept
  : keeps.

Lemma _backup_snapshot_kept s k : keeps (kept f) (_backup_snapshot env settings s k).
Proof. unfold _backup_snapshot. kept_auto. Qed.

Lemma check_cancel_kept : keeps (kept f) check_cancel.
Proof. unfold check_cancel. kept_auto. Qed.

End Kept.

(* ================================================================== *)
(** * One subvolume ([_backup_snapshot]) *)

Lemma kept_sent_snapshots {B : Type} (m : M B) w r w' :
  keeps (kept sent_snapshots) m -> m w = (r, w') -> sent_snapshots w' = sent_snapshots w.
Proof. intros H E. specialize (H w). rewrite E in H. exact H. Qed.

Lemma kept_remote {B : Type} (m : M B) w r w' :
  keeps (kept remote) m -> m w = (r, w') -> remote w' = remote w.
Proof. intros H E. specialize (H w). rewrite E in H. exact H. Qed.

Lemma select_id_None_rows (l : Ledger.table) (p : string) :
  Ledger.select_id l p = None -> Ledger.rows_for l p = 0.
Proof.
  unfold Ledger.select_id, Ledger.rows_for.
  destruct (filter _ l); [reflexivity | discriminate].
Qed.

Lemma rows_for_app (l1 l2 : Ledger.table) (p : string) :
  Ledger.rows_for (l1 ++ l2)%list p = Ledger.rows_for l1 p + Ledger.rows_for l2 p.
Proof. unfold Ledger.rows_for. rewrite filter_app, length_app. reflexivity. Qed.

Section Subvolume.
Variable env : Env.
Variable settings : Settings.t.

(** The ledger write: either the row is appended, and the path was not
    recorded before, or the statement raises and the ledger is as before. *)
Lemma insert_sent_inv p rp t sz k parent w r w' :
  insert_sent env p rp t sz k parent w = (r, w') ->
  remote w' = remote w /\
  ((r = Return tt /\ Ledger.select_id (sent_snapshots w) p = None /\
    exists row, sent_snapshots w' = (sent_snapshots w ++ [row])%list /\
                SentSnapshot.snapshot_path row = p /\
                SentSnapshot.remote_path row = rp) \/
   (exists e, r = Raise e /\ sent_snapshots w' = sent_snapshots w)).
Proof.
  intros H. split.
  - eapply kept_remote; [ | exact H]. apply insert_sent_kept; reflexivity.
  - revert H. unfold insert_sent, db_await, bind, await, get, modify, emit, ret, raise.
    simpl.
    destruct (db_error env (tick w));
      destruct (cancel_arrives env (tick w) && is_some (current_backup w)); simpl;
      try (intros H; inversion H; subst; right; eexists; split; reflexivity);
      destruct (Ledger.select_id (sent_snapshots w) p) eqn:Hsel; simpl;
      intros H; inversion H; subst; simpl;
      try (right; eexists; split; reflexivity);
      left; repeat split; auto; eexists; repeat split; reflexivity.
Qed.

Lemma _record_sent_snapshot_inv p rp sz k parent w r w' :
  _record_sent_snapshot env p rp sz k parent w = (r, w') ->
  remote w' = remote w /\
  ((r = Return tt /\ Ledger.select_id (sent_snapshots w) p = None /\
    exists row, sent_snapshots w' = (sent_snapshots w ++ [row])%list /\
                SentSnapshot.snapshot_path row = p /\
                SentSnapshot.remote_path row = rp) \/
   (exists e, r = Raise e /\ sent_snapshots w' = sent_snapshots w)).
Proof.
  unfold _record_sent_snapshot. intros H.
  apply bind_inv in H. destruct H as [(t & w1 & Hnow & H) | (e & Hnow & _)].
  2: { apply datetime_utcnow_inv in Hnow. destruct Hnow. discriminate. }
  apply datetime_utcnow_inv in Hnow. destruct Hnow as [_ ->].
  apply insert_sent_inv in H. exact H.
Qed.

(** What [_send] reports: success means that the size check ran and
    matched, and the size is in the result. *)
Lemma _send_inv msg rf w r w' :
  _send env msg rf w = (r, w') ->
  sent_snapshots w' = sent_snapshots w /\
  forall res, r = Return res ->
    (SubResult.verified res = Some false -> SubResult.success res = false) /\
    (SubResult.success res = true ->
     SubResult.verified res = Some true /\
     (exists n, SubResult.size res = Some n) /\
     Remote.exists_path (remote w') rf = true).
Proof.
  intros H. split.
  - eapply kept_sent_snapshots; [ | exact H]. apply _send_kept; reflexivity.
  - intros res ->. unfold _send in H.
    apply bind_inv in H. destruct H as [(t & w1 & Ha & H) | (e & _ & He)]; [ | discriminate].
    destruct (pipeline env t) as [file_size | ].
    2: { apply raise_inv in H. destruct H. discriminate. }
    apply bind_inv in H. destruct H as [(tr & w2 & Htr & H) | (e & _ & He)]; [ | discriminate].
    destruct (SubResult.success tr) eqn:Htrs.
    + apply bind_inv in H.
      destruct H as [(matches & w3 & Hv & H) | (e & _ & He)]; [ | discriminate].
      apply ret_inv in H. destruct H as [Hres ->]. inversion Hres; subst res; clear Hres.
      simpl. split.
      * intros Hm. inversion Hm. reflexivity.
      * intros ->. repeat split; eauto.
        (* the size check read the file on the remote host *)
        unfold verify_remote_file, check_remote_file in Hv.
        apply bind_inv in Hv.
        destruct Hv as [(o & w4 & Hc & Hv) | (e & _ & He)]; [ | discriminate].
        apply bind_inv in Hc.
        destruct Hc as [(sr & w5 & Hx & Hc) | (e & _ & He)]; [ | discriminate].
        apply execute_command_inv in Hx.
        destruct Hx as (sr' & Hsr & _ & _ & Hcase). inversion Hsr; subst sr'; clear Hsr.
        destruct Hcase as [(_ & Hrun & _) | (_ & Hfail & _)].
        -- simpl in Hrun.
           destruct (Remote.lookup (remote w2) rf) as [f0 | ] eqn:Hlook.
           ++ injection Hrun as Hs Ho Hfs.
              rewrite <- Hs, <- Ho in Hc. apply ret_inv in Hc. destruct Hc as [Ho' ->].
              inversion Ho'; subst o; clear Ho'.
              apply ret_inv in Hv. destruct Hv as [_ ->].
              unfold Remote.exists_path. rewrite <- Hfs, Hlook. reflexivity.
           ++ injection Hrun as Hs Ho Hfs.
              rewrite <- Hs, <- Ho in Hc. apply ret_inv in Hc. destruct Hc as [Ho' ->].
              inversion Ho'; subst o; clear Ho'.
              apply ret_inv in Hv. destruct Hv as [Hm _]. discriminate.
        -- rewrite Hfail in Hc. apply ret_inv in Hc. destruct Hc as [Ho' ->].
           inversion Ho'; subst o; clear Ho'.
           apply ret_inv in Hv. destruct Hv as [Hm _]. discriminate.
    + apply ret_inv in H. destruct H as [Hres ->]. inversion Hres; subst res; clear Hres.
      split.
      * intros _. exact Htrs.
      * intros Hs. congruence.
Qed.

(** What one upload does to the ledger, by its outcome. *)
Definition subvolume_outcome (path : string) (w : World) (r : result SubResult.t)
           (w' : World) : Prop :=
  match r with
  | Return res =>
      (SubResult.verified res = Some false -> SubResult.success res = false) /\
      (SubResult.success res = false -> sent_snapshots w' = sent_snapshots w) /\
      (SubResult.success res = true ->
       SubResult.verified res = Some true /\
       Ledger.select_id (sent_snapshots w) path = None /\
       exists row, sent_snapshots w' = (sent_snapshots w ++ [row])%list /\
                   SentSnapshot.snapshot_path row = path)
  | Raise _ => sent_snapshots w' = sent_snapshots w
  end.

(** The common tail of [_perform_full_backup] and
    [_perform_incremental_backup]: record when the send succeeded, then
    report. *)
Lemma record_and_report_outcome path rf kind parent (result : SubResult.t)
      (report : SubResult.t) w0 w r w' :
  sent_snapshots w = sent_snapshots w0 ->
  (SubResult.verified result = Some false -> SubResult.success result = false) ->
  (SubResult.success result = true ->
   SubResult.verified result = Some true /\ exists n, SubResult.size result = Some n) ->
  SubResult.success report = SubResult.success result ->
  SubResult.verified report = SubResult.verified result ->
  ((if SubResult.success result
    then size <- size_of result ;; _record_sent_snapshot env path rf size kind parent
    else ret tt) ;;
   ret report) w = (r, w') ->
  subvolume_outcome path w0 r w'.
Proof.
  intros Hl Hmis Hok Hs Hv H.
  destruct (SubResult.success result) eqn:Hsucc.
  - destruct (Hok eq_refl) as (Hver & n & Hn).
    apply bind_inv in H. destruct H as [(u & w1 & Hrec & H) | (e & Hrec & ->)].
    + apply ret_inv in H. destruct H as [-> ->]. simpl.
      apply bind_inv in Hrec.
      destruct Hrec as [(sz & w2 & Hsz & Hrec) | (e & _ & He)]; [ | discriminate].
      unfold size_of in Hsz. rewrite Hn in Hsz. apply ret_inv in Hsz.
      destruct Hsz as [Hsz ->]. inversion Hsz; subst sz; clear Hsz.
      apply _record_sent_snapshot_inv in Hrec.
      destruct Hrec as [_ [(_ & Hnone & row & Happ & Hpath & _) | (e & He & _)]];
        [ | discriminate].
      rewrite Hs, Hv. split; [ | split].
      * intros; congruence.
      * intros; congruence.
      * intros _. split; [congruence | ]. split; [congruence | ].
        exists row. split; congruence.
    + simpl. apply bind_inv in Hrec.
      destruct Hrec as [(sz & w2 & Hsz & Hrec) | (e' & Hsz & _)].
      * unfold size_of in Hsz. rewrite Hn in Hsz. apply ret_inv in Hsz.
        destruct Hsz as [_ ->].
        apply _record_sent_snapshot_inv in Hrec.
        destruct Hrec as [_ [(Hr & _) | (e' & _ & Hsame)]]; [discriminate | congruence].
      * unfold size_of in Hsz. rewrite Hn in Hsz. apply ret_inv in Hsz.
        destruct Hsz. discriminate.
  - apply bind_inv in H. destruct H as [(u & w1 & Hrec & H) | (e & Hrec & _)].
    2: { apply ret_inv in Hrec. destruct Hrec. discriminate. }
    apply ret_inv in Hrec. destruct Hrec as [_ ->].
    apply ret_inv in H. destruct H as [-> ->]. simpl.
    rewrite Hs, Hv. split; [ | split]; intros; congruence.
Qed.

Lemma _perform_full_backup_outcome s w r w' :
  _perform_full_backup env settings s w = (r, w') ->
  subvolume_outcome (Snapshot.path s) w r w'.
Proof.
  unfold _perform_full_backup, _send_snapshot. intros H.
  apply bind_inv in H. destruct H as [(d & w1 & Hd & H) | (e & Hd & _)].
  2: { apply datetime_now_inv in Hd. destruct Hd. discriminate. }
  apply datetime_now_inv in Hd. destruct Hd as [_ ->].
  apply bind_inv in H. destruct H as [(d' & w2 & Hd' & H) | (e & Hd' & _)].
  2: { apply datetime_now_inv in Hd'. destruct Hd'. discriminate. }
  apply datetime_now_inv in Hd'. destruct Hd' as [_ ->]. cbv zeta in H.
  apply bind_inv in H. destruct H as [(mk & w3 & Hmk & H) | (e & Hmk & _)].
  2: { apply execute_command_inv in Hmk. destruct Hmk as (? & ? & _). discriminate. }
  assert (Hl3 : sent_snapshots w3 = sent_snapshots w).
  { eapply kept_sent_snapshots in Hmk; [ | apply create_remote_directory_kept; reflexivity].
    exact Hmk. }
  apply bind_inv in H. destruct H as [(result & w4 & Hsend & H) | (e & Hsend & ->)].
  2: { apply _send_inv in Hsend. destruct Hsend as [Hl _]. simpl. congruence. }
  apply _send_inv in Hsend. destruct Hsend as [Hl4 Hres].
  destruct (Hres result eq_refl) as [Hmis Hok].
  eapply record_and_report_outcome in H; eauto; try congruence.
  intros Hs. destruct (Hok Hs) as (? & ? & _). auto.
Qed.

Lemma _perform_incremental_backup_outcome s p w r w' :
  _perform_incremental_backup env settings s p w = (r, w') ->
  subvolume_outcome (Snapshot.path s) w r w'.
Proof.
  unfold _perform_incremental_backup, _send_incremental_snapshot. intros H.
  apply bind_inv in H. destruct H as [(d & w1 & Hd & H) | (e & Hd & _)].
  2: { apply datetime_now_inv in Hd. destruct Hd. discriminate. }
  apply datetime_now_inv in Hd. destruct Hd as [_ ->].
  apply bind_inv in H. destruct H as [(d' & w2 & Hd' & H) | (e & Hd' & _)].
  2: { apply datetime_now_inv in Hd'. destruct Hd'. discriminate. }
  apply datetime_now_inv in Hd'. destruct Hd' as [_ ->]. cbv zeta in H.
  apply bind_inv in H. destruct H as [(mk & w3 & Hmk & H) | (e & Hmk & _)].
  2: { apply execute_command_inv in Hmk. destruct Hmk as (? & ? & _). discriminate. }
  assert (Hl3 : sent_snapshots w3 = sent_snapshots w).
  { eapply kept_sent_snapshots in Hmk; [ | apply create_remote_directory_kept; reflexivity].
    exact Hmk. }
  apply bind_inv in H. destruct H as [(result & w4 & Hsend & H) | (e & Hsend & ->)].
  2: { apply _send_inv in Hsend. destruct Hsend as [Hl _]. simpl. congruence. }
  apply _send_inv in Hsend. destruct Hsend as [Hl4 Hres].
  destruct (Hres result eq_refl) as [Hmis Hok].
  eapply record_and_report_outcome in H; eauto; try congruence.
  intros Hs. destruct (Hok Hs) as (? & ? & _). auto.
Qed.

(** A raised exception becomes the failure dictionary. *)
Lemma subvolume_outcome_caught path snapshot w0 w r w' (m : M SubResult.t) :
  sent_snapshots w = sent_snapshots w0 ->
  (forall r1 w1, m w = (r1, w1) -> subvolume_outcome path w r1 w1) ->
  try_except m (fun e => ret (failure_result snapshot e)) w = (r, w') ->
  (exists res, r = Return res) /\ subvolume_outcome path w0 r w'.
Proof.
  intros Hl Hm H. apply try_except_inv in H.
  destruct H as [(a & H & ->) | (e & w1 & H & Hh)].
  - split; [eauto | ]. apply Hm in H. simpl in *. rewrite <- Hl. exact H.
  - apply ret_inv in Hh. destruct Hh as [-> ->]. split; [eauto | ].
    apply Hm in H. simpl in *. split; [ | split]; intros; try discriminate. congruence.
Qed.

Lemma _backup_snapshot_outcome s k w r w' :
  _backup_snapshot env settings s k w = (r, w') ->
  (exists res, r = Return res) /\ subvolume_outcome (Snapshot.path s) w r w'.
Proof.
  unfold _backup_snapshot. intros H.
  eapply subvolume_outcome_caught; [reflexivity | | exact H].
  clear H r w'. intros r w' H. destruct k.
  - apply _perform_full_backup_outcome. exact H.
  - apply bind_inv in H. destruct H as [(parent & w1 & Hp & H) | (e & Hp & ->)].
    2: { simpl. eapply kept_sent_snapshots; [ | exact Hp].
         apply find_parent_snapshot_kept; reflexivity. }
    assert (Hl1 : sent_snapshots w1 = sent_snapshots w).
    { eapply kept_sent_snapshots; [ | exact Hp].
      apply find_parent_snapshot_kept; reflexivity. }
    apply bind_inv in H. destruct H as [(ok & w2 & Hu & H) | (e & Hu & ->)].
    2: { simpl. eapply kept_sent_snapshots in Hu; [congruence | ].
         apply usable_parent_kept; reflexivity. }
    assert (Hl2 : sent_snapshots w2 = sent_snapshots w).
    { eapply kept_sent_snapshots in Hu; [congruence | ].
      apply usable_parent_kept; reflexivity. }
    assert (Hgo : forall r0 w0, subvolume_outcome (Snapshot.path s) w2 r0 w0 ->
                                subvolume_outcome (Snapshot.path s) w r0 w0).
    { intros r0 w0. unfold subvolume_outcome. rewrite Hl2. auto. }
    apply Hgo.
    destruct parent as [p | ]; [destruct ok | ].
    + apply _perform_incremental_backup_outcome in H. exact H.
    + apply _perform_full_backup_outcome in H. exact H.
    + apply _perform_full_backup_outcome in H. exact H.
Qed.

End Subvolume.

(* ================================================================== *)
(** * One run ([perform_backup]) *)

Lemma bind_Return_inv {A B : Type} (m : M A) (k : A -> M B) w b w' :
  bind m k w = (Return b, w') ->
  exists a w1, m w = (Return a, w1) /\ k a w1 = (Return b, w').
Proof.
  intros H. apply bind_inv in H. destruct H as [H | (e & _ & He)]; [exact H | discriminate].
Qed.

(** One step along a chain of binds that returned. *)
Ltac step_Return H :=
  match type of H with
  | bind _ _ _ = (Return _, _) =>
      apply bind_Return_inv in H; destruct H as (? & ? & ? & H)
  end.

(** One step along a chain of binds, with the case that it raised. *)
Ltac step_any H :=
  match type of H with
  | bind _ _ _ = _ =>
      apply bind_inv in H; destruct H as [(? & ? & ? & H) | (? & H & ?)]
  end.

(** A frame goal whose computation is one of the program's functions. *)
#[export] Hint Extern 1 (keeps (kept _) _) =>
  first [ apply await_kept | apply reading_kept | apply datetime_now_kept
        | apply datetime_utcnow_kept | apply emit_kept | apply db_await_kept
        | apply count_sent_kept | apply query_sent_id_kept | apply query_remote_paths_kept
        | apply insert_sent_kept | apply execute_delete_like_kept
        | apply execute_delete_incremental_before_kept | apply execute_command_kept
        | apply check_remote_file_kept | apply verify_remote_file_kept
        | apply create_remote_directory_kept | apply delete_remote_file_kept
        | apply create_snapshots_kept | apply find_parent_snapshot_kept
        | apply cleanup_old_snapshots_kept | apply _get_unraid_host_kept
        | apply cleanup_failed_uploads_kept | apply cleanup_old_monthly_backups_kept
        | apply cleanup_old_incremental_backups_kept | apply cleanup_local_snapshots_kept
        | apply _update_progress_kept | apply _determine_backup_type_kept
        | apply _backup_snapshot_kept | apply check_cancel_kept ];
  intros; reflexivity : keeps.

Ltac frame_step :=
  match goal with
  | |- kept _ _ _ => unfold kept; reflexivity
  | _ => keeps_step
  end.

Ltac frame_auto := repeat frame_step.

(** From a run [H : m w = (r, w')], the equation [f w' = f w]. *)
Ltac frame_of H f :=
  match type of H with
  | ?m ?w = _ =>
      let K := fresh "Hkept" in
      assert (K : keeps (kept f) m);
      [ frame_auto | specialize (K w); rewrite H in K; unfold kept in K; simpl in K ]
  end.

(** ** The dictionary of results *)

Lemma dict_set_keys (d : list (string * SubResult.t)) (k : string) (v : SubResult.t) :
  map fst (dict_set d k v)
  = if mem k (map fst d) then map fst d else (map fst d ++ [k])%list.
Proof.
  induction d as [| [k0 v0] d IH]; simpl.
  - reflexivity.
  - unfold mem in *. simpl. rewrite (String.eqb_sym k k0).
    destruct (String.eqb k0 k); simpl.
    + reflexivity.
    + rewrite IH. destruct (existsb (String.eqb k) (map fst d)); reflexivity.
Qed.

(** The keys after storing results under [names], one after the other. *)
Fixpoint keys_after (keys names : list string) : list string :=
  match names with
  | [] => keys
  | n :: rest => keys_after (if mem n keys then keys else (keys ++ [n])%list) rest
  end.

Lemma aggregate_status_cases (results : list (string * SubResult.t)) :
  ((forall kv, In kv results -> SubResult.success (snd kv) = true) ->
   aggregate_status results = SUCCESS) /\
  ((exists kv, In kv results /\ SubResult.success (snd kv) = true) ->
   (exists kv, In kv results /\ SubResult.success (snd kv) = false) ->
   aggregate_status results = PARTIAL) /\
  (results <> [] ->
   (forall kv, In kv results -> SubResult.success (snd kv) = false) ->
   aggregate_status results = FAILED).
Proof.
  unfold aggregate_status. split; [ | split].
  - intros Hall. rewrite (proj2 (forallb_forall _ results)); auto.
  - intros (kv & Hin & Hs) (kv' & Hin' & Hf).
    destruct (forallb (fun kv0 => SubResult.success (snd kv0)) results) eqn:E.
    + rewrite forallb_forall in E. specialize (E kv' Hin'). congruence.
    + rewrite (proj2 (existsb_exists _ results)); eauto.
  - intros Hne Hall.
    destruct (forallb (fun kv0 => SubResult.success (snd kv0)) results) eqn:E.
    + destruct results as [| kv rest]; [congruence | ].
      rewrite forallb_forall in E. specialize (E kv (or_introl eq_refl)).
      specialize (Hall kv (or_introl eq_refl)). congruence.
    + destruct (existsb (fun kv0 => SubResult.success (snd kv0)) results) eqn:E'.
      * apply existsb_exists in E'. destruct E' as (kv & Hin & Hs).
        specialize (Hall kv Hin). congruence.
      * reflexivity.
Qed.

Section Run.
Variable env : Env.
Variable settings : Settings.t.

Lemma _create_snapshot_name n m t w o w' :
  _create_snapshot env settings n m t w = (Return (Some o), w') ->
  Snapshot.subvolume o = n.
Proof.
  unfold _create_snapshot, bind, await, get, modify, ret. simpl.
  destruct (btrfs_snapshot_ok env (tick w)
            && negb (has_entry settings
                       match snapshot_entries _ with Some l => l | None => [] end _));
    intros H; inversion H; reflexivity.
Qed.

Lemma create_loop_names subvols : forall t acc w l w',
  create_loop env settings subvols t acc w = (Return l, w') ->
  map Snapshot.subvolume l = (map Snapshot.subvolume acc ++ map fst subvols)%list.
Proof.
  induction subvols as [| [n m] rest IH]; simpl; intros t acc w l w' H.
  - apply ret_inv in H. destruct H as [H _]. inversion H. rewrite app_nil_r. reflexivity.
  - apply bind_Return_inv in H. destruct H as (o & w1 & Hc & H).
    destruct o as [s | ].
    + apply _create_snapshot_name in Hc. apply IH in H.
      rewrite H, map_app. simpl. rewrite Hc, <- app_assoc. reflexivity.
    + apply bind_Return_inv in H. destruct H as (u & w2 & _ & H).
      apply raise_inv in H. destruct H. discriminate.
Qed.

(** A run that gets past step 3 has one snapshot per configured
    subvolume. *)
Lemma create_snapshots_names w l w' :
  create_snapshots env settings w = (Return l, w') ->
  map Snapshot.subvolume l = ["@"; "@home"].
Proof.
  unfold create_snapshots. intros H.
  apply bind_Return_inv in H. destruct H as (d & w1 & _ & H).
  apply create_loop_names in H. exact H.
Qed.

Lemma backup_loop_keys snapshots : forall i len k total acc w total' results w',
  backup_loop env settings snapshots i len k total acc w = (Return (total', results), w') ->
  map fst results = keys_after (map fst acc) (map Snapshot.subvolume snapshots).
Proof.
  induction snapshots as [| s rest IH]; simpl; intros i len k total acc w total' results w' H.
  - apply ret_inv in H. destruct H as [H _]. inversion H. reflexivity.
  - apply bind_Return_inv in H. destruct H as (u & w1 & _ & H).
    apply bind_Return_inv in H. destruct H as (u' & w2 & _ & H).
    apply bind_Return_inv in H. destruct H as (br & w3 & _ & H).
    apply bind_Return_inv in H. destruct H as (t1 & w4 & _ & H).
    apply IH in H. rewrite H, dict_set_keys. reflexivity.
Qed.

(** When the [try] block runs to its end, the result object holds the
    aggregate of one result per configured subvolume. *)
Lemma perform_backup_body_Return backup_type force_full w u w' :
  perform_backup_body env settings backup_type force_full w = (Return u, w') ->
  BackupResult.status (run_result w')
  = aggregate_status (BackupResult.subvolumes (run_result w')) /\
  map fst (BackupResult.subvolumes (run_result w')) = ["@"; "@home"].
Proof.
  unfold perform_backup_body. intros H.
  repeat step_Return H.
  match goal with
  | Hs : create_snapshots _ _ _ = _, Hl : backup_loop _ _ _ _ _ _ _ _ _ = (Return ?p, _) |- _ =>
      destruct p as [total_size subvolume_results];
      apply create_snapshots_names in Hs; apply backup_loop_keys in Hl;
      rewrite Hs in Hl; simpl in Hl; rename Hl into Hkeys
  end.
  repeat step_Return H.
  frame_of H run_result.
  match goal with
  | Ht : set_totals _ _ _ = _, Hs : set_status _ _ = _ |- _ =>
      unfold set_totals in Ht; unfold set_status in Hs;
      apply modify_inv in Ht; destruct Ht as [_ Ht];
      apply modify_inv in Hs; destruct Hs as [_ Hs]
  end.
  subst. rewrite Hkept. simpl. split; [reflexivity | exact Hkeys].
Qed.

(** The ways in which [perform_backup] can return: the [try] block ran to
    its end and the status is the aggregate, or the [except] branch set
    the status to failed and recorded the message. *)
Lemma perform_backup_inv backup_type force_full w res w' :
  perform_backup env settings backup_type force_full w = (Return res, w') ->
  (BackupResult.status res = aggregate_status (BackupResult.subvolumes res) /\
   map fst (BackupResult.subvolumes res) = ["@"; "@home"]) \/
  (exists e, BackupResult.error_message res = Some e /\ BackupResult.status res = FAILED).
Proof.
  unfold perform_backup. intros H.
  repeat step_Return H.
  apply get_inv in H. destruct H as [Hres Hw'].
  match type of Hw' with _ = ?x => subst x end.
  inversion Hres; subst res; clear Hres.
  match goal with
  | Hf : try_finally _ _ _ = _ |- _ => unfold try_finally in Hf; rename Hf into Hrun
  end.
  match type of Hrun with
  | context [try_except ?m ?h ?w0] => destruct (try_except m h w0) as [r1 w1] eqn:Htry
  end.
  match type of Hrun with
  | context [bind ?m ?k w1] => destruct (bind m k w1) as [[u2 | e2] w2] eqn:Hfin
  end; [ | discriminate].
  injection Hrun as Hr1 Hw2. subst r1 w2.
  (* the finalizer changes the identifier only *)
  assert (Hfinal : BackupResult.status (run_result w') = BackupResult.status (run_result w1)
                   /\ BackupResult.error_message (run_result w')
                      = BackupResult.error_message (run_result w1)
                   /\ BackupResult.subvolumes (run_result w')
                      = BackupResult.subvolumes (run_result w1)).
  { apply bind_Return_inv in Hfin. destruct Hfin as (u3 & w3 & Hsave & Hcur).
    apply modify_inv in Hcur. destruct Hcur as [_ ->]. simpl.
    unfold _save_backup_history in Hsave.
    repeat step_Return Hsave.
    unfold set_backup_id in Hsave. apply modify_inv in Hsave. destruct Hsave as [_ ->].
    simpl.
    repeat match goal with
           | Hm : modify _ _ = _ |- _ => apply modify_inv in Hm; destruct Hm as [_ ->]
           | Hg : get _ _ = _ |- _ => apply get_inv in Hg; destruct Hg as [_ ->]
           end.
    simpl.
    match goal with
    | Hd : db_await _ _ = (_, ?wd) |- _ =>
        frame_of Hd run_result; rewrite Hkept
    end.
    auto. }
  destruct Hfinal as (Hst & Herr & Hsub). rewrite Hst, Herr, Hsub.
  apply try_except_inv in Htry. destruct Htry as [(a & Hbody & _) | (e & w3 & _ & Hh)].
  - left. apply perform_backup_body_Return in Hbody. exact Hbody.
  - right. exists e.
    repeat step_any Hh.
    all: repeat match goal with
           | Hm : set_status _ _ = _ |- _ =>
               unfold set_status in Hm; apply modify_inv in Hm; destruct Hm as [? ?]
           | Hm : set_error_message _ _ = _ |- _ =>
               unfold set_error_message in Hm; apply modify_inv in Hm; destruct Hm as [? ?]
           | Hm : datetime_utcnow _ _ = _ |- _ =>
               apply datetime_utcnow_inv in Hm; destruct Hm as [? ?]
           | Hm : ret _ _ = _ |- _ => apply ret_inv in Hm; destruct Hm as [? ?]
           end; subst; try discriminate.
    simpl. auto.
Qed.

End Run.

Section RunLoop.
Variable env : Env.
Variable settings : Settings.t.

Lemma run_callbacks_raise n : forall w e w',
  run_callbacks env n w = (Raise e, w') -> exists t, callback_error env t = Some e.
Proof.
  induction n as [| n IH]; simpl; intros w e w' H.
  - apply ret_inv in H. destruct H. discriminate.
  - apply bind_inv in H. destruct H as [(t & w1 & _ & H) | (e' & Ha & _)].
    + destruct (callback_error env t) as [e0 | ] eqn:E.
      * apply raise_inv in H. destruct H as [H _]. inversion H; subst. eauto.
      * eapply IH; eauto.
    + unfold await in Ha. inversion Ha.
Qed.

Lemma _update_progress_raise s a b p c d w e w' :
  _update_progress env s a b p c d w = (Raise e, w') ->
  exists t, callback_error env t = Some e.
Proof.
  unfold _update_progress. intros H.
  step_any H; [ | apply modify_inv in H; destruct H; discriminate].
  step_any H; [ | apply get_inv in H; destruct H; discriminate].
  eapply run_callbacks_raise; eauto.
Qed.

Lemma check_cancel_raise w e w' :
  check_cancel w = (Raise e, w') -> e = "Backup cancelled by user".
Proof.
  unfold check_cancel, bind, get. simpl.
  destruct (cancel_requested w); unfold raise, ret; intros H; inversion H; reflexivity.
Qed.

(** The loop over the snapshots stops early only for a cancel request or
    for a progress callback that raises, never for a subvolume that
    failed. *)
Lemma backup_loop_raise snapshots : forall i len k total acc w e w',
  backup_loop env settings snapshots i len k total acc w = (Raise e, w') ->
  e = "Backup cancelled by user" \/ exists t, callback_error env t = Some e.
Proof.
  induction snapshots as [| s rest IH]; simpl; intros i len k total acc w e w' H.
  - apply ret_inv in H. destruct H. discriminate.
  - step_any H.
    2: { match goal with Hq : Raise _ = Raise _ |- _ => inversion Hq; subst end.
         left. eapply check_cancel_raise; eauto. }
    step_any H.
    2: { match goal with Hq : Raise _ = Raise _ |- _ => inversion Hq; subst end.
         right. eapply _update_progress_raise; eauto. }
    step_any H.
    2: { apply _backup_snapshot_outcome in H. destruct H as [(res & Hres) _]. discriminate. }
    step_any H.
    2: { match type of H with
         | (if ?c then _ else _) _ = _ => destruct c
         end.
         - apply ret_inv in H. destruct H. discriminate.
         - step_any H.
           + apply ret_inv in H. destruct H. discriminate.
           + unfold set_status in H. apply modify_inv in H. destruct H. discriminate. }
    eapply IH; eauto.
Qed.

End RunLoop.

(** ** The rounds of the loop over the snapshots (step 5) *)

(** [rounds env settings k len i snapshots w rs w']: from the world [w] the
    loop makes one round for each of [snapshots], the first with index
    [i], and ends in [w'].  In a round the cancel check passes and the
    progress is published, which gives [wa]; [_backup_snapshot] is called
    in [wa] and returns [r] in [wb]; a failure marks the status [partial];
    the next round begins in the world [wc] so reached.  [rs] are the
    results of the rounds, in order. *)
Inductive rounds (env : Env) (settings : Settings.t) (k : BackupType) (len : nat)
  : nat -> list Snapshot.t -> World -> list SubResult.t -> World -> Prop :=
| rounds_done i w : rounds env settings k len i [] w [] w
| rounds_next i s rest w wa r wb wc rs w' :
    (check_cancel ;;
     _update_progress env ("Backing up " ++ Snapshot.subvolume s) 5 7
                      (50 + inject_Z (Z.of_nat i) * 30 / inject_Z (Z.of_nat len))%Q
                      (Some (Snapshot.subvolume s)) None) w = (Return tt, wa) ->
    _backup_snapshot env settings s k wa = (Return r, wb) ->
    (if SubResult.success r then ret tt else set_status PARTIAL) wb = (Return tt, wc) ->
    rounds env settings k len (S i) rest wc rs w' ->
    rounds env settings k len i (s :: rest) w (r :: rs) w'.

(** [subvolume_results[snapshot.subvolume] = backup_result], round after
    round. *)
Definition store_results (acc : list (string * SubResult.t)) (snapshots : list Snapshot.t)
           (rs : list SubResult.t) : list (string * SubResult.t) :=
  fold_left (fun d sr => dict_set d (Snapshot.subvolume (fst sr)) (snd sr))
            (combine snapshots rs) acc.

Section Rounds.
Variable env : Env.
Variable settings : Settings.t.

(** A loop that returns has made a round for every snapshot, and returns
    the results of the rounds. *)
Lemma backup_loop_rounds snapshots : forall i len k total acc w total' results w',
  backup_loop env settings snapshots i len k total acc w = (Return (total', results), w') ->
  exists rs,
    rounds env settings k len i snapshots w rs w' /\
    results = store_results acc snapshots rs.
Proof.
  induction snapshots as [| s rest IH]; simpl; intros i len k total acc w total' results w' H.
  - apply ret_inv in H. destruct H as [H ->]. inversion H; subst.
    exists []. split; [constructor | reflexivity].
  - apply bind_Return_inv in H. destruct H as ([] & w1 & H1 & H).
    apply bind_Return_inv in H. destruct H as ([] & w2 & H2 & H).
    apply bind_Return_inv in H. destruct H as (r & w3 & H3 & H).
    apply bind_Return_inv in H. destruct H as (t1 & w4 & H4 & H).
    apply IH in H. destruct H as (rs & Hrounds & ->).
    exists (r :: rs). split; [ | reflexivity].
    eapply rounds_next; [ | exact H3 | | exact Hrounds].
    + unfold bind. rewrite H1. exact H2.
    + destruct (SubResult.success r).
      * apply ret_inv in H4. destruct H4 as [_ ->]. reflexivity.
      * apply bind_Return_inv in H4. destruct H4 as ([] & w5 & Hs & H4).
        apply ret_inv in H4. destruct H4 as [_ ->]. exact Hs.
Qed.

(** After a round that failed the loop goes on with the snapshots that
    are left, the failure stored and the status marked [partial]. *)
Lemma backup_loop_after_failure s rest i len k total acc w wa r wb :
  (check_cancel ;;
   _update_progress env ("Backing up " ++ Snapshot.subvolume s) 5 7
                    (50 + inject_Z (Z.of_nat i) * 30 / inject_Z (Z.of_nat len))%Q
                    (Some (Snapshot.subvolume s)) None) w = (Return tt, wa) ->
  _backup_snapshot env settings s k wa = (Return r, wb) ->
  SubResult.success r = false ->
  backup_loop env settings (s :: rest) i len k total acc w
  = backup_loop env settings rest (S i) len k total
                (dict_set acc (Snapshot.subvolume s) r) (snd (set_status PARTIAL wb)).
Proof.
  intros H1 H2 Hs. cbn [backup_loop].
  apply bind_Return_inv in H1. destruct H1 as ([] & w1 & Hc & Hp).
  unfold bind at 1. rewrite Hc.
  unfold bind at 1. rewrite Hp.
  unfold bind at 1. rewrite H2. cbv zeta. rewrite Hs.
  unfold bind at 1. unfold bind at 1.
  destruct (set_status PARTIAL wb) as [[[] | e] wc] eqn:E.
  - reflexivity.
  - unfold set_status in E. apply modify_inv in E. destruct E. discriminate.
Qed.

(** The [try] block that runs to its end has made the two rounds, and the
    result object holds their results. *)
Lemma perform_backup_body_rounds backup_type force_full w u w' :
  perform_backup_body env settings backup_type force_full w = (Return u, w') ->
  exists k s1 s2 wa r1 r2 wb,
    Snapshot.subvolume s1 = "@" /\ Snapshot.subvolume s2 = "@home" /\
    rounds env settings k 2 0 [s1; s2] wa [r1; r2] wb /\
    BackupResult.subvolumes (run_result w') = [("@", r1); ("@home", r2)].
Proof.
  unfold perform_backup_body. intros H.
  repeat step_Return H.
  match goal with
  | Hs : create_snapshots _ _ _ = (Return ?l, _),
    Hl : backup_loop _ _ _ _ _ ?k _ _ _ = (Return ?p, _) |- _ =>
      destruct p as [total_size subvolume_results];
      apply create_snapshots_names in Hs; apply backup_loop_rounds in Hl;
      destruct Hl as (rs & Hrounds & Hresults);
      rename l into snapshots; rename Hs into Hnames
  end.
  destruct snapshots as [| s1 [| s2 [| s3 rest]]]; try discriminate.
  injection Hnames as Hn1 Hn2.
  inversion Hrounds as [| ? ? ? ? ? r1 ? ? rs1 ? Ha1 Hb1 Hc1 Hrest1]; subst.
  inversion Hrest1 as [| ? ? ? ? ? r2 ? ? rs2 ? Ha2 Hb2 Hc2 Hrest2]; subst.
  inversion Hrest2; subst.
  repeat step_Return H.
  frame_of H run_result.
  match goal with
  | Ht : set_totals _ _ _ = _, Hs : set_status _ _ = _ |- _ =>
      unfold set_totals in Ht; unfold set_status in Hs;
      apply modify_inv in Ht; destruct Ht as [_ Ht];
      apply modify_inv in Hs; destruct Hs as [_ Hs]
  end.
  subst. rewrite Hkept. simpl.
  eexists _, s1, s2, _, r1, r2, _.
  split; [exact Hn1 | ]. split; [exact Hn2 | ]. split; [exact Hrounds | ].
  unfold store_results. simpl. rewrite Hn1, Hn2. reflexivity.
Qed.

(** A run that returns without an error message has made the two rounds. *)
Lemma perform_backup_rounds backup_type force_full w res w' :
  perform_backup env settings backup_type force_full w = (Return res, w') ->
  BackupResult.error_message res = None ->
  exists k s1 s2 wa r1 r2 wb,
    Snapshot.subvolume s1 = "@" /\ Snapshot.subvolume s2 = "@home" /\
    rounds env settings k 2 0 [s1; s2] wa [r1; r2] wb /\
    BackupResult.subvolumes res = [("@", r1); ("@home", r2)].
Proof.
  unfold perform_backup. intros H Herr.
  repeat step_Return H.
  apply get_inv in H. destruct H as [Hres Hw'].
  match type of Hw' with _ = ?x => subst x end.
  inversion Hres; subst res; clear Hres.
  match goal with
  | Hf : try_finally _ _ _ = _ |- _ => unfold try_finally in Hf; rename Hf into Hrun
  end.
  match type of Hrun with
  | context [try_except ?m ?h ?w0] => destruct (try_except m h w0) as [r1 w1] eqn:Htry
  end.
  match type of Hrun with
  | context [bind ?m ?k w1] => destruct (bind m k w1) as [[u2 | e2] w2] eqn:Hfin
  end; [ | discriminate].
  injection Hrun as Hr1 Hw2. subst r1 w2.
  assert (Hfinal : BackupResult.error_message (run_result w')
                   = BackupResult.error_message (run_result w1)
                   /\ BackupResult.subvolumes (run_result w')
                      = BackupResult.subvolumes (run_result w1)).
  { apply bind_Return_inv in Hfin. destruct Hfin as (u3 & w3 & Hsave & Hcur).
    apply modify_inv in Hcur. destruct Hcur as [_ ->]. simpl.
    unfold _save_backup_history in Hsave.
    repeat step_Return Hsave.
    unfold set_backup_id in Hsave. apply modify_inv in Hsave. destruct Hsave as [_ ->].
    simpl.
    repeat match goal with
           | Hm : modify _ _ = _ |- _ => apply modify_inv in Hm; destruct Hm as [_ ->]
           | Hg : get _ _ = _ |- _ => apply get_inv in Hg; destruct Hg as [_ ->]
           end.
    simpl.
    match goal with
    | Hd : db_await _ _ = (_, ?wd) |- _ =>
        frame_of Hd run_result; rewrite Hkept
    end.
    auto. }
  destruct Hfinal as (Herr' & Hsub). rewrite Herr' in Herr. rewrite Hsub.
  apply try_except_inv in Htry. destruct Htry as [(a & Hbody & _) | (e & w3 & _ & Hh)].
  - apply perform_backup_body_rounds in Hbody. exact Hbody.
  - exfalso.
    repeat step_any Hh.
    all: repeat match goal with
           | Hm : set_status _ _ = _ |- _ =>
               unfold set_status in Hm; apply modify_inv in Hm; destruct Hm as [? ?]
           | Hm : set_error_message _ _ = _ |- _ =>
               unfold set_error_message in Hm; apply modify_inv in Hm; destruct Hm as [? ?]
           | Hm : datetime_utcnow _ _ = _ |- _ =>
               apply datetime_utcnow_inv in Hm; destruct Hm as [? ?]
           | Hm : ret _ _ = _ |- _ => apply ret_inv in Hm; destruct Hm as [? ?]
           end; subst; try discriminate.
Qed.

End Rounds.

(** C6. A run whose [try] block reaches its end (no error message) has
    made one round of the loop for each of the two snapshots, in order:
    [_backup_snapshot] was called for "@" and, whatever it returned, was
    then called for "@home", and the result object holds what the two calls
    returned.  Its status is [success] when every result succeeded,
    [partial] when one succeeded and another did not, [failed] when none
    succeeded.  [_backup_snapshot] always returns a result, and the loop
    over the snapshots raises only for a cancel request or for a progress
    callback that raises, never for a subvolume that failed. *)
Theorem run_status_is_the_aggregate
        (env : Env) (settings : Settings.t) (backup_type : option BackupType)
        (force_full : bool) (w : World) (res : BackupResult.t) (w' : World) :
  perform_backup env settings backup_type force_full w = (Return res, w') ->
  BackupResult.error_message res = None ->
  map fst (BackupResult.subvolumes res) = ["@"; "@home"] /\
  (exists k s1 s2 wa r1 r2 wb,
     Snapshot.subvolume s1 = "@" /\ Snapshot.subvolume s2 = "@home" /\
     rounds env settings k 2 0 [s1; s2] wa [r1; r2] wb /\
     BackupResult.subvolumes res = [("@", r1); ("@home", r2)]) /\
  ((forall kv, In kv (BackupResult.subvolumes res) -> SubResult.success (snd kv) = true) ->
   BackupResult.status res = SUCCESS) /\
  ((exists kv, In kv (BackupResult.subvolumes res) /\ SubResult.success (snd kv) = true) ->
   (exists kv, In kv (BackupResult.subvolumes res) /\ SubResult.success (snd kv) = false) ->
   BackupResult.status res = PARTIAL) /\
  ((forall kv, In kv (BackupResult.subvolumes res) -> SubResult.success (snd kv) = false) ->
   BackupResult.status res = FAILED) /\
  (forall snapshot kind w0,
     exists r, fst (_backup_snapshot env settings snapshot kind w0) = Return r) /\
  (forall snapshots i len kind total acc w0 e w1,
     backup_loop env settings snapshots i len kind total acc w0 = (Raise e, w1) ->
     e = "Backup cancelled by user" \/ exists t, callback_error env t = Some e).
Proof.
  intros H Herr.
  pose proof (perform_backup_rounds _ _ _ _ _ _ _ H Herr) as Hrounds.
  apply perform_backup_inv in H.
  destruct H as [[Hst Hkeys] | (e & He & _)]; [ | congruence].
  destruct (aggregate_status_cases (BackupResult.subvolumes res)) as (Hs & Hp & Hf).
  rewrite Hst. split; [exact Hkeys | ]. split; [exact Hrounds | ].
  split; [exact Hs | ]. split; [exact Hp | ].
  split; [ | split].
  - intros Hall. apply Hf; [ | exact Hall].
    intros Hnil. rewrite Hnil in Hkeys. simpl in Hkeys. discriminate.
  - intros snapshot kind w0.
    destruct (_backup_snapshot env settings snapshot kind w0) as [r w1] eqn:E.
    apply _backup_snapshot_outcome in E. destruct E as [(r0 & ->) _].
    exists r0. reflexivity.
  - intros snapshots i len kind total acc w0 e w1 Hloop.
    eapply backup_loop_raise; eauto.
Qed.

(** The transfer of the second subvolume breaks: the first is in the
    ledger, the second is reported failed, the run is partial. *)
Definition partial_run : result BackupResult.t * World :=
  perform_backup (Scenario.transfer_fails_at Scenario.june15 22) Scenario.settings
                 None false (Scenario.at_rest [] [] []).

Definition partial_result : BackupResult.t :=
  Eval vm_compute in Scenario.returned partial_run.

Definition partial_world : World := Eval vm_compute in snd partial_run.

(** The transfer of the first subvolume breaks: it is reported failed,
    the second subvolume is backed up all the same, and the run is
    partial. *)
Definition first_fails_run : result BackupResult.t * World :=
  perform_backup (Scenario.transfer_fails_at Scenario.june15 14) Scenario.settings
                 None false (Scenario.at_rest [] [] []).

Definition first_fails_result : BackupResult.t :=
  Eval vm_compute in Scenario.returned first_fails_run.

Definition first_fails_world : World := Eval vm_compute in snd first_fails_run.

Lemma run_status_is_the_aggregate_witness :
  (exists r1 r2,
     BackupResult.subvolumes first_fails_result = [("@", r1); ("@home", r2)] /\
     SubResult.success r1 = false /\ SubResult.success r2 = true) /\
  BackupResult.status first_fails_result = PARTIAL.
Proof.
  destruct (run_status_is_the_aggregate
              (Scenario.transfer_fails_at Scenario.june15 14) Scenario.settings
              None false (Scenario.at_rest [] [] []) first_fails_result first_fails_world)
    as (Hkeys & Hrounds & _ & Hpartial & _).
  - vm_compute. reflexivity.
  - reflexivity.
  - split.
    + destruct Hrounds as (k & s1 & s2 & wa & r1 & r2 & wb & _ & _ & _ & Hsub).
      exists r1, r2. split; [exact Hsub | ].
      vm_compute in Hsub. injection Hsub as <- <-. split; reflexivity.
    + apply Hpartial.
      * eexists. split; [simpl; right; left; reflexivity | reflexivity].
      * eexists. split; [simpl; left; reflexivity | reflexivity].
Defined.

(** A run never ends with the status [cancelled]: it ends with the
    aggregate of its results or, after any exception, with [failed]. *)
Lemma perform_backup_never_cancelled
      (env : Env) (settings : Settings.t) (backup_type : option BackupType)
      (force_full : bool) (w : World) (res : BackupResult.t) (w' : World) :
  perform_backup env settings backup_type force_full w = (Return res, w') ->
  BackupResult.status res <> CANCELLED.
Proof.
  intros H. apply perform_backup_inv in H.
  destruct H as [[Hst _] | (e & _ & Hst)]; rewrite Hst; [ | discriminate].
  unfold aggregate_status.
  destruct (forallb _ _); [discriminate | ]. destruct (existsb _ _); discriminate.
Qed.

(** C1. A cancel request served while the snapshots are created is seen
    at the check after step 3, and one served during the first upload is
    seen at the check between the subvolumes; in both runs the exception
    raised by the check ends in the general handler, and the run is
    returned and recorded in the history as [failed], with the message of
    the cancel check, not as [cancelled]. *)
Theorem cancelled_run_is_reported_failed :
  let after_snapshots :=
    perform_backup (Scenario.cancel_at Scenario.june15 7) Scenario.settings None false
                   (Scenario.at_rest [] [] []) in
  let between_subvolumes :=
    perform_backup (Scenario.cancel_at Scenario.june15 14) Scenario.settings None false
                   (Scenario.at_rest [] [] []) in
  (BackupResult.status (Scenario.returned after_snapshots) = FAILED /\
   BackupResult.error_message (Scenario.returned after_snapshots)
   = Some "Backup cancelled by user" /\
   cancel_requested (snd after_snapshots) = true /\
   map BackupHistory.status (backup_history (snd after_snapshots)) = [FAILED]) /\
  (BackupResult.status (Scenario.returned between_subvolumes) = FAILED /\
   BackupResult.error_message (Scenario.returned between_subvolumes)
   = Some "Backup cancelled by user" /\
   cancel_requested (snd between_subvolumes) = true /\
   map BackupHistory.status (backup_history (snd between_subvolumes)) = [FAILED]).
Proof. vm_compute. repeat split. Qed.

(* ================================================================== *)
(** * The kind of a run ([_determine_backup_type], [_backup_snapshot]) *)

(** [idle]: time has not gone back, and the ledger and the run's result
    object are as before. *)
Definition idle (w w' : World) : Prop :=
  tick w <= tick w' /\
  sent_snapshots w' = sent_snapshots w /\
  run_result w' = run_result w.

#[export] Instance idle_frame : Frame idle.
Proof.
  split; unfold idle.
  - intros w. repeat split; auto.
  - intros a b c (H1 & H2 & H3) (H4 & H5 & H6). repeat split; [lia | congruence | congruence].
Qed.

Section Idle.
Variable env : Env.
Variable settings : Settings.t.

Ltac idle_step :=
  match goal with
  | |- idle _ _ => unfold idle; simpl; repeat split; lia
  | _ => keeps_step
  end.

Ltac idle_auto := repeat idle_step.

Lemma await_idle : keeps idle (await env).
Proof.
  intros w. unfold idle, await. simpl.
  destruct (cancel_arrives env (tick w) && is_some (current_backup w)); simpl;
    repeat split; lia.
Qed.

Lemma reading_idle : keeps idle reading.
Proof. intros w. unfold idle, reading. simpl. repeat split; lia. Qed.

Hint Resolve await_idle reading_idle : keeps.

Lemma datetime_now_idle : keeps idle (datetime_now env).
Proof. unfold datetime_now. idle_auto. Qed.

Lemma datetime_utcnow_idle : keeps idle (datetime_utcnow env).
Proof. unfold datetime_utcnow. idle_auto. Qed.

Lemma db_await_idle : keeps idle (db_await env).
Proof. unfold db_await. idle_auto. Qed.

Hint Resolve datetime_now_idle datetime_utcnow_idle db_await_idle : keeps.

Lemma query_remote_paths_idle : keeps idle (query_remote_paths env).
Proof. unfold query_remote_paths. idle_auto. Qed.

Lemma execute_command_idle c : keeps idle (execute_command env c).
Proof.
  intros w. destruct (execute_command env c w) as [r w'] eqn:E.
  apply execute_command_inv in E. destruct E as (res & _ & Ht & Hb & _).
  destruct Hb as (_ & Hl & _ & _ & _ & _ & Hr).
  unfold idle. simpl. repeat split; [lia | exact Hl | exact Hr].
Qed.

Hint Resolve query_remote_paths_idle execute_command_idle : keeps.

Lemma _get_unraid_host_idle : keeps idle (_get_unraid_host env settings).
Proof. unfold _get_unraid_host. idle_auto. Qed.

Lemma sweep_orphan_idle o n : keeps idle (sweep_orphan env o n).
Proof. unfold sweep_orphan, delete_remote_file. idle_auto. Qed.

Hint Resolve _get_unraid_host_idle sweep_orphan_idle : keeps.

Lemma sweep_loop_idle l : forall n, keeps idle (sweep_loop env l n).
Proof. induction l; intros n; simpl; idle_auto. Qed.

Hint Resolve sweep_loop_idle : keeps.

Lemma cleanup_failed_uploads_idle : keeps idle (cleanup_failed_uploads env settings).
Proof. unfold cleanup_failed_uploads. idle_auto. Qed.

Lemma run_callbacks_idle n : keeps idle (run_callbacks env n).
Proof. induction n; simpl; idle_auto. Qed.

Hint Resolve run_callbacks_idle : keeps.

Lemma _update_progress_idle s a b p c d : keeps idle (_update_progress env s a b p c d).
Proof. unfold _update_progress. idle_auto. Qed.

Lemma check_cancel_idle : keeps idle check_cancel.
Proof. unfold check_cancel. idle_auto. Qed.

End Idle.

(** A step of a chain of binds that keeps [R]: it raised, or the chain
    goes on from a world related to the first. *)
Lemma bind_keeps_inv {A B : Type} (R : World -> World -> Prop) (m : M A) (k : A -> M B)
      w r w' :
  keeps R m ->
  bind m k w = (r, w') ->
  (exists e, r = Raise e /\ R w w') \/
  (exists a w1, R w w1 /\ k a w1 = (r, w')).
Proof.
  intros Hm H. specialize (Hm w). apply bind_inv in H.
  destruct H as [(a & w1 & Hs & H) | (e & H & Hr)].
  - right. exists a, w1. rewrite Hs in Hm. auto.
  - left. exists e. rewrite H in Hm. auto.
Qed.

(** The kind written in the run's result object. *)
Definition kind_of_run (w : World) : BackupType := BackupResult.backup_type (run_result w).

(** The error message written in the run's result object. *)
Definition message_of_run (w : World) : option string :=
  BackupResult.error_message (run_result w).

Section Kind.
Variable env : Env.
Variable settings : Settings.t.

(** Lines 83 to 85 of [perform_backup]: the kind named by the caller, or
    the decision of [_determine_backup_type]. *)
Definition decided_kind (backup_type : option BackupType) (force_full : bool)
  : M BackupType :=
  match backup_type with
  | None => _determine_backup_type env force_full
  | Some t => ret t
  end.

(** The decision of [_determine_backup_type], by its three inputs: the
    flag, the day of the month read from the clock, the ledger. *)
Lemma _determine_backup_type_inv force_full w k w' :
  _determine_backup_type env force_full w = (Return k, w') ->
  (k = FULL <->
   force_full = true \/ DateTime.day (now env (tick w)) = 1 \/ sent_snapshots w = []).
Proof.
  unfold _determine_backup_type. intros H.
  destruct force_full.
  - step_Return H. match goal with Hr : ret true _ = _ |- _ =>
                     apply ret_inv in Hr; destruct Hr as [Hr ->]; inversion Hr; subst end.
    apply ret_inv in H. destruct H as [H _]. inversion H. tauto.
  - step_Return H.
    match goal with Hr : bind (datetime_now env) _ _ = _ |- _ => rename Hr into Hday end.
    step_Return Hday.
    match goal with Hd : datetime_now env _ = _ |- _ =>
      apply datetime_now_inv in Hd; destruct Hd as [Hd ->]; inversion Hd; subst end.
    apply ret_inv in Hday. destruct Hday as [Hday ->]. inversion Hday; subst; clear Hday.
    destruct (Nat.eqb (DateTime.day (now env (tick w))) 1) eqn:Eday.
    + apply ret_inv in H. destruct H as [H _]. inversion H.
      apply Nat.eqb_eq in Eday. tauto.
    + apply Nat.eqb_neq in Eday.
      step_Return H.
      match goal with Hc : count_sent env _ = _ |- _ => rename Hc into Hcount end.
      unfold count_sent in Hcount. step_Return Hcount.
      match goal with Hd : db_await env _ = _ |- _ => frame_of Hd sent_snapshots end.
      apply get_inv in Hcount. destruct Hcount as [Hcount ->].
      inversion Hcount; subst; clear Hcount.
      apply ret_inv in H. destruct H as [H _]. inversion H; subst; clear H.
      rewrite Hkept. simpl.
      destruct (sent_snapshots w) as [| row rest]; simpl.
      * tauto.
      * split; [discriminate | ]. intros [Hf | [Hd | Hn]]; congruence.
Qed.

Lemma set_status_kind s : keeps (kept kind_of_run) (set_status s).
Proof. unfold set_status. frame_auto. Qed.

Lemma set_error_message_kind e : keeps (kept kind_of_run) (set_error_message e).
Proof. unfold set_error_message. frame_auto. Qed.

Lemma set_totals_kind n l : keeps (kept kind_of_run) (set_totals n l).
Proof. unfold set_totals. frame_auto. Qed.

Lemma set_backup_id_kind i : keeps (kept kind_of_run) (set_backup_id i).
Proof. unfold set_backup_id. frame_auto. Qed.

Lemma set_backup_id_message i : keeps (kept message_of_run) (set_backup_id i).
Proof. unfold set_backup_id. frame_auto. Qed.

Hint Resolve set_status_kind set_error_message_kind set_totals_kind set_backup_id_kind
  set_backup_id_message : keeps.

Lemma backup_loop_kind snapshots : forall i len k total acc,
  keeps (kept kind_of_run) (backup_loop env settings snapshots i len k total acc).
Proof. induction snapshots as [| s rest IH]; intros; simpl; frame_auto. Qed.

Hint Resolve backup_loop_kind : keeps.

Lemma _save_backup_history_kind : keeps (kept kind_of_run) (_save_backup_history env).
Proof. unfold _save_backup_history. frame_auto. Qed.

Lemma _save_backup_history_message : keeps (kept message_of_run) (_save_backup_history env).
Proof. unfold _save_backup_history. frame_auto. Qed.

Hint Resolve _save_backup_history_kind _save_backup_history_message : keeps.

(** The [try] block up to the decision leaves the ledger and the result
    object alone; after it, nothing changes the kind. *)
Lemma perform_backup_body_kind backup_type force_full w r w' :
  perform_backup_body env settings backup_type force_full w = (r, w') ->
  (exists e, r = Raise e /\ kind_of_run w' = kind_of_run w) \/
  (exists k w1 w2,
     idle w w1 /\ decided_kind backup_type force_full w1 = (Return k, w2) /\
     kind_of_run w' = k).
Proof.
  unfold perform_backup_body. intros H.
  apply (bind_keeps_inv idle) in H; [ | apply _update_progress_idle].
  destruct H as [(e & -> & _ & _ & Hr) | (a1 & w1 & H1 & H)];
    [left; exists e; unfold kind_of_run; rewrite Hr; auto | ].
  apply (bind_keeps_inv idle) in H; [ | apply cleanup_failed_uploads_idle].
  destruct H as [(e & -> & H2) | (a2 & w2 & H2 & H)];
    [left; exists e; pose proof (frame_trans _ _ _ H1 H2) as (_ & _ & Hr);
     unfold kind_of_run; rewrite Hr; auto | ].
  pose proof (frame_trans _ _ _ H1 H2) as H12. clear H1 H2.
  apply (bind_keeps_inv idle) in H; [ | apply check_cancel_idle].
  destruct H as [(e & -> & H3) | (a3 & w3 & H3 & H)];
    [left; exists e; pose proof (frame_trans _ _ _ H12 H3) as (_ & _ & Hr);
     unfold kind_of_run; rewrite Hr; auto | ].
  pose proof (frame_trans _ _ _ H12 H3) as H13. clear H12 H3.
  apply (bind_keeps_inv idle) in H; [ | apply _update_progress_idle].
  destruct H as [(e & -> & H4) | (a4 & w4 & H4 & H)];
    [left; exists e; pose proof (frame_trans _ _ _ H13 H4) as (_ & _ & Hr);
     unfold kind_of_run; rewrite Hr; auto | ].
  pose proof (frame_trans _ _ _ H13 H4) as H14. clear H13 H4.
  apply bind_inv in H. destruct H as [(k & w5 & Hd & H) | (e & Hd & ->)].
  - right. exists k, w4, w5. split; [exact H14 | ]. split; [exact Hd | ].
    apply bind_inv in H. destruct H as [(u & w6 & Hs & H) | (e & Hs & _)].
    + unfold set_backup_type in Hs. apply modify_inv in Hs. destruct Hs as [_ ->].
      frame_of H kind_of_run. rewrite Hkept. reflexivity.
    + unfold set_backup_type in Hs. apply modify_inv in Hs. destruct Hs as [Hs _].
      discriminate.
  - left. exists e. split; [reflexivity | ].
    destruct H14 as (_ & _ & Hr).
    assert (Hk : kind_of_run w' = kind_of_run w4).
    { destruct backup_type as [t | ].
      - apply ret_inv in Hd. destruct Hd as [Hd _]. discriminate.
      - frame_of Hd kind_of_run. exact Hkept. }
    rewrite Hk. unfold kind_of_run. rewrite Hr. reflexivity.
Qed.

(** The kind of a returned run: the run failed before the decision and
    the kind is the initial [full], or the kind is the one decided, on the
    ledger as it was when the run began. *)
Lemma perform_backup_kind backup_type force_full w res w' :
  perform_backup env settings backup_type force_full w = (Return res, w') ->
  (BackupResult.backup_type res = FULL /\
   exists e, BackupResult.error_message res = Some e) \/
  (exists k w1 w2,
     tick w <= tick w1 /\ sent_snapshots w1 = sent_snapshots w /\
     decided_kind backup_type force_full w1 = (Return k, w2) /\
     BackupResult.backup_type res = k).
Proof.
  unfold perform_backup. intros H.
  step_Return H.
  match goal with Hu : datetime_utcnow env _ = _ |- _ =>
    apply datetime_utcnow_inv in Hu; destruct Hu as [_ Hu] end.
  step_Return H.
  match goal with Hm : modify _ _ = _ |- _ => apply modify_inv in Hm; destruct Hm as [_ Hm] end.
  step_Return H.
  match goal with Hm : modify (with_run_result _) _ = _ |- _ =>
    apply modify_inv in Hm; destruct Hm as [_ Hm] end.
  subst.
  step_Return H.
  apply get_inv in H. destruct H as [Hres Hw'].
  match type of Hw' with _ = ?x => subst x end.
  inversion Hres; subst res; clear Hres.
  match goal with
  | Hf : try_finally _ _ _ = _ |- _ => unfold try_finally in Hf; rename Hf into Hrun
  end.
  match type of Hrun with
  | context [try_except ?m ?h ?w0] => destruct (try_except m h w0) as [r1 wt] eqn:Htry
  end.
  match type of Hrun with
  | context [bind ?m ?k wt] => destruct (bind m k wt) as [[u2 | e2] wf] eqn:Hfin
  end; [ | discriminate].
  injection Hrun as Hr1 Hwf. subst r1 wf.
  frame_of Hfin kind_of_run. rename Hkept into Hfk.
  frame_of Hfin message_of_run. rename Hkept into Hfm.
  unfold kind_of_run in Hfk. unfold message_of_run in Hfm. rewrite Hfk, Hfm.
  apply try_except_inv in Htry. destruct Htry as [(a & Hbody & _) | (e & wb & Hbody & Hh)].
  - apply perform_backup_body_kind in Hbody.
    destruct Hbody as [(e & He & _) | (k & w1 & w2 & Hi & Hd & Hk)]; [discriminate | ].
    right. exists k, w1, w2. destruct Hi as (Ht & Hl & _). simpl in *.
    split; [lia | ]. split; [exact Hl | ]. split; [exact Hd | exact Hk].
  - assert (Hhk : kind_of_run wt = kind_of_run wb) by (frame_of Hh kind_of_run; exact Hkept).
    assert (Hhm : message_of_run wt = Some e).
    { repeat step_any Hh.
      all: repeat match goal with
             | Hm : set_status _ _ = _ |- _ =>
                 unfold set_status in Hm; apply modify_inv in Hm; destruct Hm as [? ?]
             | Hm : set_error_message _ _ = _ |- _ =>
                 unfold set_error_message in Hm; apply modify_inv in Hm; destruct Hm as [? ?]
             | Hm : datetime_utcnow _ _ = _ |- _ =>
                 apply datetime_utcnow_inv in Hm; destruct Hm as [? ?]
             | Hm : ret _ _ = _ |- _ => apply ret_inv in Hm; destruct Hm as [? ?]
             end; subst; try discriminate.
      reflexivity. }
    unfold kind_of_run in Hhk. unfold message_of_run in Hhm. rewrite Hhk.
    apply perform_backup_body_kind in Hbody.
    destruct Hbody as [(e0 & _ & Hk) | (k & w1 & w2 & Hi & Hd & Hk)].
    + left. unfold kind_of_run in Hk. rewrite Hk. simpl. eauto.
    + right. exists k, w1, w2. destruct Hi as (Ht & Hl & _). simpl in *.
      split; [lia | ]. split; [exact Hl | ]. split; [exact Hd | exact Hk].
Qed.

(** The world in which the [try] block of [perform_backup] begins: the
    start time has been read, the cancel flag is reset and the result
    object is new (lines 61 to 72). *)
Definition started (w : World) : World :=
  with_run_result (BackupResult.mk 0%Z RUNNING FULL None None [])
                  (with_cancel_requested false (with_tick (S (tick w)) w)).

(** The [try] block up to the decision of the kind (lines 74 to 82). *)
Definition before_decision : M unit :=
  _update_progress env "Cleaning up failed uploads" 1 7 10%Q None None ;;
  cleanup_failed_uploads env settings ;;
  check_cancel ;;
  _update_progress env "Determining backup type" 2 7 20%Q None None.

Lemma before_decision_idle : keeps idle before_decision.
Proof.
  unfold before_decision.
  apply keeps_bind; [typeclasses eauto | apply _update_progress_idle | intros _].
  apply keeps_bind; [typeclasses eauto | apply cleanup_failed_uploads_idle | intros _].
  apply keeps_bind; [typeclasses eauto | apply check_cancel_idle | intros _].
  apply _update_progress_idle.
Qed.

(** What [_determine_backup_type] does in a world: the flag and the day
    that the clock shows are looked at first, then the ledger is counted. *)
Lemma _determine_backup_type_run force_full w :
  fst (_determine_backup_type env force_full w)
  = if force_full || Nat.eqb (DateTime.day (now env (tick w))) 1 then Return FULL
    else match db_error env (S (tick w)) with
         | Some e => Raise e
         | None => Return match sent_snapshots w with
                          | [] => FULL
                          | _ :: _ => INCREMENTAL
                          end
         end.
Proof.
  unfold _determine_backup_type, count_sent, db_await, datetime_now, reading, await,
    bind, get, ret, raise.
  destruct force_full; simpl; [reflexivity | ].
  destruct (Nat.eqb (DateTime.day (now env (tick w))) 1); simpl; [reflexivity | ].
  destruct (cancel_arrives env (S (tick w)) && is_some (current_backup w)); simpl;
    destruct (db_error env (S (tick w))); simpl; try reflexivity;
    destruct (sent_snapshots w); reflexivity.
Qed.

(** The [try] block, cut at the decision: it raises what an earlier step
    or the decision raises, and otherwise the kind that it leaves in the
    result object is the kind decided. *)
Lemma perform_backup_body_decision backup_type force_full w r w' :
  perform_backup_body env settings backup_type force_full w = (r, w') ->
  match before_decision w with
  | (Raise e, w1) => r = Raise e /\ w' = w1
  | (Return _, w1) =>
      match decided_kind backup_type force_full w1 with
      | (Raise e, w2) => r = Raise e /\ w' = w2
      | (Return k, _) => kind_of_run w' = k
      end
  end.
Proof.
  unfold perform_backup_body, before_decision. intros H.
  apply bind_inv in H. destruct H as [(a1 & w1 & H1 & H) | (e & H1 & ->)].
  2: { unfold bind. rewrite H1. auto. }
  apply bind_inv in H. destruct H as [(a2 & w2 & H2 & H) | (e & H2 & ->)].
  2: { unfold bind. rewrite H1, H2. auto. }
  apply bind_inv in H. destruct H as [(a3 & w3 & H3 & H) | (e & H3 & ->)].
  2: { unfold bind. rewrite H1, H2, H3. auto. }
  apply bind_inv in H. destruct H as [(a4 & w4 & H4 & H) | (e & H4 & ->)].
  2: { unfold bind. rewrite H1, H2, H3, H4. auto. }
  unfold bind at 1 2 3. rewrite H1, H2, H3, H4.
  apply bind_inv in H. destruct H as [(k & w5 & Hd & H) | (e & Hd & ->)].
  - fold (decided_kind backup_type force_full) in Hd. rewrite Hd.
    apply bind_inv in H. destruct H as [(u & w6 & Hs & H) | (e & Hs & _)].
    + unfold set_backup_type in Hs. apply modify_inv in Hs. destruct Hs as [_ ->].
      frame_of H kind_of_run. rewrite Hkept. reflexivity.
    + unfold set_backup_type in Hs. apply modify_inv in Hs. destruct Hs as [Hs _].
      discriminate.
  - fold (decided_kind backup_type force_full) in Hd. rewrite Hd. auto.
Qed.

(** What a returned run reports: the kind in the result object when the
    [try] block ended, and the message of what the block raised. *)
Lemma perform_backup_outcome backup_type force_full w res w' :
  perform_backup env settings backup_type force_full w = (Return res, w') ->
  exists r wb,
    perform_backup_body env settings backup_type force_full (started w) = (r, wb) /\
    BackupResult.backup_type res = kind_of_run wb /\
    match r with
    | Return _ => True
    | Raise e => BackupResult.error_message res = Some e
    end.
Proof.
  unfold perform_backup. intros H.
  step_Return H.
  match goal with Hu : datetime_utcnow env _ = _ |- _ =>
    apply datetime_utcnow_inv in Hu; destruct Hu as [_ Hu] end.
  step_Return H.
  match goal with Hm : modify _ _ = _ |- _ => apply modify_inv in Hm; destruct Hm as [_ Hm] end.
  step_Return H.
  match goal with Hm : modify (with_run_result _) _ = _ |- _ =>
    apply modify_inv in Hm; destruct Hm as [_ Hm] end.
  subst.
  step_Return H.
  apply get_inv in H. destruct H as [Hres Hw'].
  match type of Hw' with _ = ?x => subst x end.
  inversion Hres; subst res; clear Hres.
  match goal with
  | Hf : try_finally _ _ _ = _ |- _ => unfold try_finally in Hf; rename Hf into Hrun
  end.
  match type of Hrun with
  | context [try_except ?m ?h ?w0] => destruct (try_except m h w0) as [r1 wt] eqn:Htry
  end.
  match type of Hrun with
  | context [bind ?m ?k wt] => destruct (bind m k wt) as [[u2 | e2] wf] eqn:Hfin
  end; [ | discriminate].
  injection Hrun as Hr1 Hwf. subst r1 wf.
  frame_of Hfin kind_of_run. rename Hkept into Hfk.
  frame_of Hfin message_of_run. rename Hkept into Hfm.
  unfold kind_of_run in Hfk. unfold message_of_run in Hfm. rewrite Hfk, Hfm.
  apply try_except_inv in Htry. destruct Htry as [(a & Hbody & _) | (e & wb & Hbody & Hh)].
  - exists (Return a), wt. split; [exact Hbody | ]. split; [reflexivity | exact I].
  - assert (Hhk : kind_of_run wt = kind_of_run wb) by (frame_of Hh kind_of_run; exact Hkept).
    assert (Hhm : message_of_run wt = Some e).
    { repeat step_any Hh.
      all: repeat match goal with
             | Hm : set_status _ _ = _ |- _ =>
                 unfold set_status in Hm; apply modify_inv in Hm; destruct Hm as [? ?]
             | Hm : set_error_message _ _ = _ |- _ =>
                 unfold set_error_message in Hm; apply modify_inv in Hm; destruct Hm as [? ?]
             | Hm : datetime_utcnow _ _ = _ |- _ =>
                 apply datetime_utcnow_inv in Hm; destruct Hm as [? ?]
             | Hm : ret _ _ = _ |- _ => apply ret_inv in Hm; destruct Hm as [? ?]
             end; subst; try discriminate.
      reflexivity. }
    exists (Raise e), wb. split; [exact Hbody | ]. split; [exact Hhk | exact Hhm].
Qed.

(** What [_backup_snapshot] reports for a full backup. *)
Lemma _backup_snapshot_full_kind s w r w' :
  _backup_snapshot env settings s FULL w = (Return r, w') ->
  SubResult.backup_type r = Some "full" \/
  (SubResult.success r = false /\ SubResult.backup_type r = None).
Proof.
  unfold _backup_snapshot. intros H. apply try_except_inv in H.
  destruct H as [(a & H & Ha) | (e & w1 & _ & H)].
  - left. inversion Ha; subst a; clear Ha.
    unfold _perform_full_backup in H. repeat step_Return H.
    apply ret_inv in H. destruct H as [H _]. inversion H. reflexivity.
  - right. apply ret_inv in H. destruct H as [H _]. inversion H. auto.
Qed.

(** Without a parent, [_backup_snapshot] does for an incremental run what
    it does for a full one. *)
Lemma _backup_snapshot_fallback s w w1 :
  find_parent_snapshot env settings (Snapshot.subvolume s) w = (Return None, w1) ->
  _backup_snapshot env settings s INCREMENTAL w = _backup_snapshot env settings s FULL w1.
Proof.
  intros H. unfold _backup_snapshot, try_except, bind. rewrite H. reflexivity.
Qed.

End Kind.

(** A caller names the kind [incremental] and asks for a full backup, on
    the first of the month, with an empty ledger. *)
Definition named_incremental_run : result BackupResult.t * World :=
  perform_backup (Scenario.fair Scenario.june1) Scenario.settings (Some INCREMENTAL) true
                 (Scenario.at_rest [] [] []).

(** All three conditions of the decision hold, and the run that is
    returned and recorded in the history is incremental. *)
Lemma named_kind_counterexample :
  DateTime.day (now (Scenario.fair Scenario.june1) 0) = 1 /\
  sent_snapshots (Scenario.at_rest [] [] []) = [] /\
  BackupResult.status (Scenario.returned named_incremental_run) = SUCCESS /\
  BackupResult.backup_type (Scenario.returned named_incremental_run) = INCREMENTAL /\
  map BackupHistory.backup_type (backup_history (snd named_incremental_run))
  = ["incremental"].
Proof. vm_compute. repeat split. Qed.

(** C5 (amended). The decision is taken in the world that the run has
    reached when the orphan sweep and the first cancel check are done.  A
    run that fails before that keeps the initial kind [full] and reports
    the error.  Otherwise the ledger is still as it was when the run began,
    and: a kind that the caller names is the run's kind, whatever the flag,
    the day and the ledger are; when the caller names none, the kind is
    full if full was forced or the clock shows day 1 at the decision;
    otherwise the ledger is counted, and the kind is full for an empty
    ledger and incremental for any other, unless the count raises, which
    leaves the kind [full] and the error in the result.  In an incremental
    run a subvolume for which [find_parent_snapshot] returns no parent is
    backed up as in a full run, and what a full backup reports is the kind
    ["full"] or a failure. *)
Theorem run_kind_decision
        (env : Env) (settings : Settings.t) (backup_type : option BackupType)
        (force_full : bool) (w : World) (res : BackupResult.t) (w' : World) :
  perform_backup env settings backup_type force_full w = (Return res, w') ->
  match before_decision env settings (started w) with
  | (Raise e, _) =>
      BackupResult.backup_type res = FULL /\ BackupResult.error_message res = Some e
  | (Return _, w1) =>
      sent_snapshots w1 = sent_snapshots w /\
      match backup_type with
      | Some k => BackupResult.backup_type res = k
      | None =>
          if force_full || Nat.eqb (DateTime.day (now env (tick w1))) 1
          then BackupResult.backup_type res = FULL
          else match db_error env (S (tick w1)) with
               | Some e =>
                   BackupResult.backup_type res = FULL /\
                   BackupResult.error_message res = Some e
               | None =>
                   BackupResult.backup_type res
                   = match sent_snapshots w with
                     | [] => FULL
                     | _ :: _ => INCREMENTAL
                     end
               end
      end
  end /\
  (forall s w0 w1,
     find_parent_snapshot env settings (Snapshot.subvolume s) w0 = (Return None, w1) ->
     _backup_snapshot env settings s INCREMENTAL w0
     = _backup_snapshot env settings s FULL w1) /\
  (forall s w0 r w1,
     _backup_snapshot env settings s FULL w0 = (Return r, w1) ->
     SubResult.backup_type r = Some "full" \/
     (SubResult.success r = false /\ SubResult.backup_type r = None)).
Proof.
  intros H. split; [ | split].
  - apply perform_backup_outcome in H. destruct H as (r & wb & Hbody & Hkind & Hmsg).
    apply perform_backup_body_decision in Hbody.
    pose proof (before_decision_idle env settings (started w)) as Hidle.
    destruct (before_decision env settings (started w)) as [[u | e] w1] eqn:Hbefore.
    + simpl in Hidle. destruct Hidle as (_ & Hledger & Hres).
      unfold started in Hledger. simpl in Hledger.
      split; [exact Hledger | ].
      destruct backup_type as [k | ].
      * simpl in Hbody. congruence.
      * simpl in Hbody.
        pose proof (_determine_backup_type_run env force_full w1) as Hrun.
        destruct (_determine_backup_type env force_full w1) as [[k | e] w2] eqn:Hd;
          simpl in Hrun.
        -- rewrite Hkind, Hbody.
           destruct (force_full || Nat.eqb (DateTime.day (now env (tick w1))) 1);
             [congruence | ].
           destruct (db_error env (S (tick w1))); [discriminate | ].
           rewrite <- Hledger. congruence.
        -- destruct Hbody as [-> ->].
           assert (Hk : kind_of_run w2 = FULL).
           { frame_of Hd kind_of_run. rewrite Hkept. unfold kind_of_run.
             rewrite Hres. reflexivity. }
           destruct (force_full || Nat.eqb (DateTime.day (now env (tick w1))) 1);
             [discriminate | ].
           destruct (db_error env (S (tick w1))) as [e0 | ].
           ++ inversion Hrun; subst e0. split; [congruence | exact Hmsg].
           ++ destruct (sent_snapshots w1); discriminate.
    + simpl in Hidle. destruct Hidle as (_ & _ & Hres).
      destruct Hbody as [-> ->]. split; [ | exact Hmsg].
      rewrite Hkind. unfold kind_of_run. rewrite Hres. reflexivity.
  - intros s w0 w1. apply _backup_snapshot_fallback.
  - intros s w0 r w1. apply _backup_snapshot_full_kind.
Qed.

(** Mid-June, nothing forced, the full of 1 June in the ledger. *)
Definition incremental_run : result BackupResult.t * World :=
  perform_backup (Scenario.fair Scenario.june15) Scenario.settings None false
                 (Scenario.at_rest [Scenario.june1_row] [Scenario.june_full]
                                   [Scenario.june1_snapshot]).

Definition incremental_result : BackupResult.t :=
  Eval vm_compute in Scenario.returned incremental_run.

Definition incremental_world : World := Eval vm_compute in snd incremental_run.

(** The world of that run at the decision. *)
Definition incremental_decision : result unit * World :=
  Eval vm_compute in
    before_decision (Scenario.fair Scenario.june15) Scenario.settings
                    (started (Scenario.at_rest [Scenario.june1_row] [Scenario.june_full]
                                               [Scenario.june1_snapshot])).

Lemma run_kind_decision_witness :
  BackupResult.backup_type incremental_result = INCREMENTAL.
Proof.
  destruct (run_kind_decision
              (Scenario.fair Scenario.june15) Scenario.settings None false
              (Scenario.at_rest [Scenario.june1_row] [Scenario.june_full]
                                [Scenario.june1_snapshot])
              incremental_result incremental_world) as [Hkind _].
  - vm_compute. reflexivity.
  - assert (E : before_decision (Scenario.fair Scenario.june15) Scenario.settings
                  (started (Scenario.at_rest [Scenario.june1_row] [Scenario.june_full]
                                             [Scenario.june1_snapshot]))
                = incremental_decision) by (vm_compute; reflexivity).
    rewrite E in Hkind. destruct Hkind as [_ Hkind]. exact Hkind.
Defined.

(* ================================================================== *)
(** * A ledger write that fails ([_record_sent_snapshot]) *)

Section Upload.
Variable env : Env.
Variable settings : Settings.t.

(** [_perform_full_backup] up to the call of [_send_snapshot]: the remote
    file name and the result of the upload. *)
Definition full_upload (snapshot : Snapshot.t) : M (string * SubResult.t) :=
  d <- datetime_now env ;;
  d' <- datetime_now env ;;
  let remote_dir := full_dir settings (DateTime.Ym d') in
  let remote_file :=
    remote_dir ++ "/" ++ Snapshot.subvolume snapshot ++ "_" ++ DateTime.Ymd d
               ++ "_full.btrfs.gpg" in
  create_remote_directory env remote_dir ;;
  result <- _send_snapshot env (Snapshot.path snapshot) remote_file ;;
  ret (remote_file, result).

(** [_perform_incremental_backup] up to the call of
    [_send_incremental_snapshot]. *)
Definition incremental_upload (snapshot : Snapshot.t) (parent_snapshot : string)
  : M (string * SubResult.t) :=
  d <- datetime_now env ;;
  d' <- datetime_now env ;;
  let remote_dir := incremental_dir settings (DateTime.Ym d') in
  let remote_file :=
    remote_dir ++ "/" ++ Snapshot.subvolume snapshot ++ "_" ++ DateTime.Ymd d
               ++ "_incremental.btrfs.gpg" in
  create_remote_directory env remote_dir ;;
  result <- _send_incremental_snapshot env (Snapshot.path snapshot) parent_snapshot
                                       remote_file ;;
  ret (remote_file, result).

(** [_perform_full_backup] is the upload, then the ledger write when the
    upload succeeded, then the report. *)
Lemma _perform_full_backup_after_upload s w rf result w1 :
  full_upload s w = (Return (rf, result), w1) ->
  _perform_full_backup env settings s w
  = ((if SubResult.success result then
        size <- size_of result ;;
        _record_sent_snapshot env (Snapshot.path s) rf size FULL None
      else ret tt) ;;
     ret (SubResult.mk (SubResult.success result) (SubResult.error result)
                       (SubResult.size result) (SubResult.verified result)
                       (Some "full") (Some rf) (Some (Snapshot.subvolume s)) None None)) w1.
Proof.
  unfold full_upload, _perform_full_backup. intros H.
  unfold bind at 1. unfold bind at 1 in H.
  destruct (datetime_now env w) as [[d | e] wa]; [ | discriminate].
  unfold bind at 1. unfold bind at 1 in H.
  destruct (datetime_now env wa) as [[d' | e] wb]; [ | discriminate].
  cbv zeta in *.
  unfold bind at 1. unfold bind at 1 in H.
  destruct (create_remote_directory env _ wb) as [[u | e] wc]; [ | discriminate].
  unfold bind at 1. unfold bind at 1 in H.
  destruct (_send_snapshot env _ _ wc) as [[res | e] wd]; [ | discriminate].
  apply ret_inv in H. destruct H as [H ->]. inversion H; subst. reflexivity.
Qed.

Lemma _perform_incremental_backup_after_upload s p w rf result w1 :
  incremental_upload s p w = (Return (rf, result), w1) ->
  _perform_incremental_backup env settings s p w
  = ((if SubResult.success result then
        size <- size_of result ;;
        _record_sent_snapshot env (Snapshot.path s) rf size INCREMENTAL (Some p)
      else ret tt) ;;
     ret (SubResult.mk (SubResult.success result) (SubResult.error result)
                       (SubResult.size result) (SubResult.verified result)
                       (Some "incremental") (Some rf) (Some (Snapshot.subvolume s)) None
                       (Some p))) w1.
Proof.
  unfold incremental_upload, _perform_incremental_backup. intros H.
  unfold bind at 1. unfold bind at 1 in H.
  destruct (datetime_now env w) as [[d | e] wa]; [ | discriminate].
  unfold bind at 1. unfold bind at 1 in H.
  destruct (datetime_now env wa) as [[d' | e] wb]; [ | discriminate].
  cbv zeta in *.
  unfold bind at 1. unfold bind at 1 in H.
  destruct (create_remote_directory env _ wb) as [[u | e] wc]; [ | discriminate].
  unfold bind at 1. unfold bind at 1 in H.
  destruct (_send_incremental_snapshot env _ _ _ wc) as [[res | e] wd]; [ | discriminate].
  apply ret_inv in H. destruct H as [H ->]. inversion H; subst. reflexivity.
Qed.

(** An upload that reports success left its file on the remote host, and
    no upload touches the ledger. *)
Lemma full_upload_inv s w rf result w1 :
  full_upload s w = (Return (rf, result), w1) ->
  sent_snapshots w1 = sent_snapshots w /\
  (SubResult.success result = true -> Remote.exists_path (remote w1) rf = true).
Proof.
  unfold full_upload, _send_snapshot. intros H.
  step_Return H.
  match goal with Hd : datetime_now env w = _ |- _ => frame_of Hd sent_snapshots end.
  step_Return H.
  match goal with Hd : datetime_now env _ = (Return _, ?wb) |- _ =>
    match wb with w => fail 1 | _ => frame_of Hd sent_snapshots end end.
  cbv zeta in H. step_Return H.
  match goal with Hd : create_remote_directory env _ _ = _ |- _ =>
    frame_of Hd sent_snapshots end.
  step_Return H.
  match goal with Hd : _send env _ _ _ = _ |- _ =>
    apply _send_inv in Hd; destruct Hd as [Hl Hres] end.
  apply ret_inv in H. destruct H as [H ->]. inversion H; subst; clear H.
  split; [congruence | ].
  intros Hs. destruct (Hres _ eq_refl) as [_ Hok]. apply Hok in Hs. tauto.
Qed.

Lemma incremental_upload_inv s p w rf result w1 :
  incremental_upload s p w = (Return (rf, result), w1) ->
  sent_snapshots w1 = sent_snapshots w /\
  (SubResult.success result = true -> Remote.exists_path (remote w1) rf = true).
Proof.
  unfold incremental_upload, _send_incremental_snapshot. intros H.
  step_Return H.
  match goal with Hd : datetime_now env w = _ |- _ => frame_of Hd sent_snapshots end.
  step_Return H.
  match goal with Hd : datetime_now env _ = (Return _, ?wb) |- _ =>
    match wb with w => fail 1 | _ => frame_of Hd sent_snapshots end end.
  cbv zeta in H. step_Return H.
  match goal with Hd : create_remote_directory env _ _ = _ |- _ =>
    frame_of Hd sent_snapshots end.
  step_Return H.
  match goal with Hd : _send env _ _ _ = _ |- _ =>
    apply _send_inv in Hd; destruct Hd as [Hl Hres] end.
  apply ret_inv in H. destruct H as [H ->]. inversion H; subst; clear H.
  split; [congruence | ].
  intros Hs. destruct (Hres _ eq_refl) as [_ Hok]. apply Hok in Hs. tauto.
Qed.

(** The [try] of [_backup_snapshot] around a body that uploaded and then
    failed to write the ledger row. *)
Lemma record_failure_caught s (m : M SubResult.t) rf result n kind parent report w w1 e w2 :
  m w = ((if SubResult.success result then
            size <- size_of result ;;
            _record_sent_snapshot env (Snapshot.path s) rf size kind parent
          else ret tt) ;;
         ret report) w1 ->
  SubResult.success result = true ->
  SubResult.size result = Some n ->
  _record_sent_snapshot env (Snapshot.path s) rf n kind parent w1 = (Raise e, w2) ->
  try_except m (fun e => ret (failure_result s e)) w = (Return (failure_result s e), w2) /\
  sent_snapshots w2 = sent_snapshots w1 /\ remote w2 = remote w1.
Proof.
  intros Hm Hs Hn Hrec. split.
  - unfold try_except. rewrite Hm, Hs. unfold bind, size_of. rewrite Hn.
    unfold ret at 1. rewrite Hrec. reflexivity.
  - apply _record_sent_snapshot_inv in Hrec.
    destruct Hrec as [Hr [(Hret & _) | (e' & _ & Hl)]]; [discriminate | auto].
Qed.

End Upload.

(** The ways of [_backup_snapshot] to an upload: a full backup; an
    incremental one on the parent found; a full one in an incremental run,
    when no usable parent was found.  [uploaded env settings s k w kind
    parent rf result w1]: called for kind [k] in world [w], the body
    uploaded to [rf] with the result [result], reaching [w1], and goes on to
    record a row of kind [kind] with parent [parent]. *)
Inductive uploaded (env : Env) (settings : Settings.t) (s : Snapshot.t)
  : BackupType -> World -> BackupType -> option string -> string -> SubResult.t -> World
    -> Prop :=
| uploaded_full w rf result w1 :
    full_upload env settings s w = (Return (rf, result), w1) ->
    uploaded env settings s FULL w FULL None rf result w1
| uploaded_incremental w p wa wb rf result w1 :
    find_parent_snapshot env settings (Snapshot.subvolume s) w = (Return (Some p), wa) ->
    usable_parent env (Some p) wa = (Return true, wb) ->
    incremental_upload env settings s p wb = (Return (rf, result), w1) ->
    uploaded env settings s INCREMENTAL w INCREMENTAL (Some p) rf result w1
| uploaded_fallback w parent wa wb rf result w1 :
    find_parent_snapshot env settings (Snapshot.subvolume s) w = (Return parent, wa) ->
    usable_parent env parent wa = (Return false, wb) ->
    full_upload env settings s wb = (Return (rf, result), w1) ->
    uploaded env settings s INCREMENTAL w FULL None rf result w1.

Lemma aggregate_status_failed (results : list (string * SubResult.t)) :
  aggregate_status results = FAILED ->
  forall kv, In kv results -> SubResult.success (snd kv) = false.
Proof.
  unfold aggregate_status.
  destruct (forallb _ results); [discriminate | ].
  destruct (existsb _ results) eqn:E; [discriminate | ].
  intros _ kv Hin. destruct (SubResult.success (snd kv)) eqn:Hs; [ | reflexivity].
  assert (Hex : existsb (fun kv => SubResult.success (snd kv)) results = true).
  { apply existsb_exists. exists kv. auto. }
  congruence.
Qed.

(** The database is locked when the row of the first subvolume is
    written: the subvolume is reported failed, the second subvolume is
    backed up and recorded, and the run is partial.  The artifact of the
    first subvolume is on the remote host, without a row. *)
Lemma ledger_write_failure_counterexample :
  let run := perform_backup (Scenario.db_locked_at Scenario.june15 17) Scenario.settings
                            None false (Scenario.at_rest [] [] []) in
  BackupResult.status (Scenario.returned run) = PARTIAL /\
  BackupResult.error_message (Scenario.returned run) = None /\
  map (fun kv => (fst kv, SubResult.success (snd kv), SubResult.error (snd kv)))
      (BackupResult.subvolumes (Scenario.returned run))
  = [("@", false, Some "OperationalError: database is locked"); ("@home", true, None)] /\
  map SentSnapshot.snapshot_path (sent_snapshots (snd run))
  = ["/.snapshots/@home_20240615_020000"] /\
  Remote.exists_path
    (remote (snd run))
    "/mnt/user/backups/petalbyte-client/202406/full/@_20240615_full.btrfs.gpg" = true /\
  map BackupHistory.status (backup_history (snd run)) = [PARTIAL].
Proof. vm_compute. repeat split. Qed.

(** C2 (amended). When the upload of a subvolume succeeded and writing
    its ledger row raises, [_backup_snapshot] catches the exception: it
    returns the failure result with the message of the exception, and the
    ledger is as it was before the subvolume.  The uploaded artifact is on
    the remote host and has no row of its own: the ledger names its path
    afterwards exactly when a row written earlier named it, and otherwise
    the artifact is an orphan.  The loop goes on with the snapshots that
    are left, the failure stored and the status marked [partial]; a run
    that reaches its end is [failed] only when no subvolume succeeded, and
    [partial] when another subvolume succeeded. *)
Theorem ledger_write_failure_fails_the_subvolume
        (env : Env) (settings : Settings.t) (s : Snapshot.t) (k kind : BackupType)
        (parent : option string) (w : World) (rf : string) (result : SubResult.t)
        (n : Z) (w1 : World) (e : string) (w2 : World) :
  uploaded env settings s k w kind parent rf result w1 ->
  SubResult.success result = true ->
  SubResult.size result = Some n ->
  _record_sent_snapshot env (Snapshot.path s) rf n kind parent w1 = (Raise e, w2) ->
  _backup_snapshot env settings s k w = (Return (failure_result s e), w2) /\
  sent_snapshots w2 = sent_snapshots w /\
  Remote.exists_path (remote w2) rf = true /\
  (In rf (Ledger.remote_paths (sent_snapshots w2))
   <-> In rf (Ledger.remote_paths (sent_snapshots w))) /\
  (forall rest i len total acc w0,
     (check_cancel ;;
      _update_progress env ("Backing up " ++ Snapshot.subvolume s) 5 7
                       (50 + inject_Z (Z.of_nat i) * 30 / inject_Z (Z.of_nat len))%Q
                       (Some (Snapshot.subvolume s)) None) w0 = (Return tt, w) ->
     backup_loop env settings (s :: rest) i len k total acc w0
     = backup_loop env settings rest (S i) len k total
                   (dict_set acc (Snapshot.subvolume s) (failure_result s e))
                   (snd (set_status PARTIAL w2))) /\
  (forall backup_type force_full w0 res w3,
     perform_backup env settings backup_type force_full w0 = (Return res, w3) ->
     BackupResult.error_message res = None ->
     (BackupResult.status res = FAILED ->
      forall kv, In kv (BackupResult.subvolumes res) -> SubResult.success (snd kv) = false) /\
     ((exists kv, In kv (BackupResult.subvolumes res) /\ SubResult.success (snd kv) = true) ->
      (exists kv, In kv (BackupResult.subvolumes res) /\ SubResult.success (snd kv) = false) ->
      BackupResult.status res = PARTIAL)).
Proof.
  intros Hup Hs Hn Hrec.
  assert (Hsub : _backup_snapshot env settings s k w = (Return (failure_result s e), w2) /\
                 sent_snapshots w2 = sent_snapshots w /\
                 Remote.exists_path (remote w2) rf = true).
  { destruct Hup as [w rf result w1 Hu | w p wa wb rf result w1 Hp Hok Hu
                     | w parent wa wb rf result w1 Hp Hok Hu].
    - pose proof (_perform_full_backup_after_upload _ _ _ _ _ _ _ Hu) as Hm.
      apply full_upload_inv in Hu. destruct Hu as [Hl He].
      eapply record_failure_caught in Hm; eauto.
      destruct Hm as (Hr & Hl2 & Hr2).
      split; [exact Hr | ]. split; [congruence | ]. rewrite Hr2. auto.
    - pose proof (_perform_incremental_backup_after_upload _ _ _ _ _ _ _ _ Hu) as Hm.
      apply incremental_upload_inv in Hu. destruct Hu as [Hl He].
      frame_of Hp sent_snapshots. rename Hkept into Hla.
      assert (Hlb : sent_snapshots wb = sent_snapshots wa).
      { eapply kept_sent_snapshots; [ | exact Hok]. apply usable_parent_kept; reflexivity. }
      assert (Hbody :
                (parent <- find_parent_snapshot env settings (Snapshot.subvolume s) ;;
                 ok <- usable_parent env parent ;;
                 match parent, ok with
                 | Some p, true => _perform_incremental_backup env settings s p
                 | _, _ => _perform_full_backup env settings s
                 end) w
                = ((if SubResult.success result then
                      size <- size_of result ;;
                      _record_sent_snapshot env (Snapshot.path s) rf size INCREMENTAL (Some p)
                    else ret tt) ;;
                   ret (SubResult.mk (SubResult.success result) (SubResult.error result)
                                     (SubResult.size result) (SubResult.verified result)
                                     (Some "incremental") (Some rf)
                                     (Some (Snapshot.subvolume s)) None (Some p))) w1).
      { unfold bind at 1. rewrite Hp. unfold bind at 1. rewrite Hok. exact Hm. }
      eapply record_failure_caught in Hbody; eauto.
      destruct Hbody as (Hr & Hl2 & Hr2).
      split; [exact Hr | ]. split; [congruence | ]. rewrite Hr2. auto.
    - pose proof (_perform_full_backup_after_upload _ _ _ _ _ _ _ Hu) as Hm.
      apply full_upload_inv in Hu. destruct Hu as [Hl He].
      frame_of Hp sent_snapshots. rename Hkept into Hla.
      assert (Hlb : sent_snapshots wb = sent_snapshots wa).
      { eapply kept_sent_snapshots; [ | exact Hok]. apply usable_parent_kept; reflexivity. }
      assert (Hbody :
                (parent <- find_parent_snapshot env settings (Snapshot.subvolume s) ;;
                 ok <- usable_parent env parent ;;
                 match parent, ok with
                 | Some p, true => _perform_incremental_backup env settings s p
                 | _, _ => _perform_full_backup env settings s
                 end) w
                = ((if SubResult.success result then
                      size <- size_of result ;;
                      _record_sent_snapshot env (Snapshot.path s) rf size FULL None
                    else ret tt) ;;
                   ret (SubResult.mk (SubResult.success result) (SubResult.error result)
                                     (SubResult.size result) (SubResult.verified result)
                                     (Some "full") (Some rf)
                                     (Some (Snapshot.subvolume s)) None None)) w1).
      { unfold bind at 1. rewrite Hp. unfold bind at 1. rewrite Hok.
        destruct parent; exact Hm. }
      eapply record_failure_caught in Hbody; eauto.
      destruct Hbody as (Hr & Hl2 & Hr2).
      split; [exact Hr | ]. split; [congruence | ]. rewrite Hr2. auto. }
  destruct Hsub as (H1 & H2 & H3).
  split; [exact H1 | ]. split; [exact H2 | ]. split; [exact H3 | ].
  split; [rewrite H2; tauto | ]. split.
  - intros rest i len total acc w0 Hround.
    apply (backup_loop_after_failure env settings s rest i len k total acc w0 w
             (failure_result s e) w2 Hround H1).
    reflexivity.
  - intros backup_type force_full w0 res w3 Hrun Herr.
    apply perform_backup_inv in Hrun.
    destruct Hrun as [[Hagg _] | (e0 & He0 & _)]; [ | congruence].
    split.
    + intros Hst. apply aggregate_status_failed. congruence.
    + rewrite Hagg.
      destruct (aggregate_status_cases (BackupResult.subvolumes res)) as (_ & Hp & _).
      exact Hp.
Qed.

(** The database is locked when the row of a full backup of "@" is
    written, on an engine at rest with an empty ledger. *)
Lemma ledger_write_failure_fails_the_subvolume_witness :
  let s := Snapshot.mk "@" "/.snapshots/@_20240615_020000" "20240615_020000" "/host" in
  let run := _backup_snapshot (Scenario.db_locked_at Scenario.june15 7) Scenario.settings
                              s FULL (Scenario.at_rest [] [] []) in
  fst run = Return (failure_result s "OperationalError: database is locked") /\
  sent_snapshots (snd run) = [] /\
  Remote.exists_path
    (remote (snd run))
    "/mnt/user/backups/petalbyte-client/202406/full/@_20240615_full.btrfs.gpg" = true.
Proof.
  cbv zeta.
  edestruct (ledger_write_failure_fails_the_subvolume
               (Scenario.db_locked_at Scenario.june15 7) Scenario.settings
               (Snapshot.mk "@" "/.snapshots/@_20240615_020000" "20240615_020000" "/host")
               FULL FULL None (Scenario.at_rest [] [] []))
    as (H1 & H2 & H3 & _).
  - apply uploaded_full. lazy. reflexivity.
  - reflexivity.
  - reflexivity.
  - lazy. reflexivity.
  - rewrite H1. simpl fst. simpl snd. split; [ | split].
    + vm_compute. reflexivity.
    + rewrite H2. reflexivity.
    + vm_compute. reflexivity.
Defined.

(* ================================================================== *)
(** * Runs in progress in the process ([start_backup], [_run_scheduled_backup]) *)

(** C9. The busy check of [start_backup] reads the slot of the engine of
    [api/backup.py] only.  With the schedule enabled, a scheduled run
    begins on the scheduler's own engine; a POST /backup/start served
    while it is in progress is answered 200, and when its background task
    begins two runs are in progress.  In general, whenever the slot of the
    API engine is empty the request is answered 200 and a task is added,
    whatever runs on the scheduler's engine. *)
Theorem scheduled_run_does_not_block_start :
  (let result :=
     SingleFlight.run [SingleFlight.CronFires; SingleFlight.Http SingleFlight.PostStart;
                       SingleFlight.TaskBegins]
                      (SingleFlight.started true) in
   fst result = [200] /\
   SingleFlight.active_runs (snd result) = 2 /\
   SingleFlight.runs (SingleFlight.backup_engine (snd result)) = 1 /\
   option_map SingleFlight.runs (SingleFlight.scheduler_engine (snd result)) = Some 1) /\
  (forall p e,
     SingleFlight.scheduler_engine p = Some e ->
     0 < SingleFlight.runs e ->
     SingleFlight.current_backup (SingleFlight.backup_engine p) = None ->
     fst (SingleFlight.start_backup p) = 200 /\
     SingleFlight.background_tasks (snd (SingleFlight.start_backup p))
     = S (SingleFlight.background_tasks p) /\
     0 < SingleFlight.active_runs (snd (SingleFlight.start_backup p))).
Proof.
  split.
  - vm_compute. repeat split.
  - intros p e He Hruns Hslot. unfold SingleFlight.start_backup. rewrite Hslot. simpl.
    split; [reflexivity | ]. split; [reflexivity | ].
    unfold SingleFlight.active_runs. simpl. rewrite He. lia.
Qed.

(* ================================================================== *)
(** * Further properties of the code *)

(** ** Verification ([verification.py], [ssh_manager.py]) *)

(** X1. [verify_remote_file] never raises and changes neither the remote
    files nor the ledger.  It reports a match exactly when the SSH command
    ran and the file is on the remote host with the expected size: when
    SSH is down or the file is missing the answer is no match. *)
Theorem verify_remote_file_matches_iff
        (env : Env) (remote_path : string) (expected_size : Z) (w : World) :
  exists matches w',
    verify_remote_file env remote_path expected_size w = (Return matches, w') /\
    remote w' = remote w /\
    sent_snapshots w' = sent_snapshots w /\
    (matches = true <->
     ssh_connects env (tick w) = true /\
     exists f, Remote.lookup (remote w) remote_path = Some f /\
               RemoteFile.size f = expected_size).
Proof.
  destruct (verify_remote_file env remote_path expected_size w) as [r w'] eqn:E.
  unfold verify_remote_file, check_remote_file in E.
  apply bind_inv in E. destruct E as [(o & w1 & Hc & E) | (e & Hc & _)].
  2: { apply bind_inv in Hc. destruct Hc as [(sr & w2 & Hx & Hc) | (e' & Hx & _)].
       - destruct (SshResult.success sr); [destruct (SshResult.stdout sr) | ];
           apply ret_inv in Hc; destruct Hc; discriminate.
       - apply execute_command_inv in Hx. destruct Hx as (? & ? & _). discriminate. }
  apply bind_inv in Hc. destruct Hc as [(sr & w2 & Hx & Hc) | (e' & _ & He)]; [ | discriminate].
  apply execute_command_inv in Hx.
  destruct Hx as (sr' & Hsr & _ & Hb & Hcase). inversion Hsr; subst sr'; clear Hsr.
  destruct Hb as (_ & Hl & _).
  destruct Hcase as [(Hup & Hrun & _) | (Hdown & Hfail & Hrem & _)].
  - simpl in Hrun.
    destruct (Remote.lookup (remote w) remote_path) as [f | ] eqn:Hlook;
      injection Hrun as Hs Ho Hfs; rewrite <- Hs, <- Ho in Hc;
      apply ret_inv in Hc; destruct Hc as [Ho' ->]; inversion Ho'; subst o; clear Ho';
      apply ret_inv in E; destruct E as [-> ->].
    + exists (Z.eqb (RemoteFile.size f) expected_size), w2.
      split; [reflexivity | ]. split; [congruence | ]. split; [exact Hl | ].
      rewrite Z.eqb_eq. split.
      * intros Heq. split; [exact Hup | ]. exists f. auto.
      * intros (_ & f' & Hf' & Hsz). congruence.
    + exists false, w2.
      split; [reflexivity | ]. split; [congruence | ]. split; [exact Hl | ].
      split; [discriminate | ]. intros (_ & f' & Hf' & _). discriminate.
  - rewrite Hfail in Hc. apply ret_inv in Hc. destruct Hc as [Ho' ->].
    inversion Ho'; subst o; clear Ho'.
    apply ret_inv in E. destruct E as [-> ->].
    exists false, w2.
    split; [reflexivity | ]. split; [exact Hrem | ]. split; [exact Hl | ].
    split; [discriminate | ]. intros (Hup & _). congruence.
Qed.

(** X2. The two counts of [verify_backups] add up to the number of
    results, and no result is counted as failed exactly when every result
    succeeded and was verified. *)
Theorem verify_backups_counts (results : list SubResult.t) :
  fst (verify_backups results) + snd (verify_backups results) = length results /\
  (snd (verify_backups results) = 0 <->
   forall r, In r results ->
             SubResult.success r = true /\ SubResult.verified r = Some true).
Proof.
  unfold verify_backups. simpl. split; [apply filter_length | ].
  induction results as [| r rest IH]; simpl.
  - split; [intros _ r [] | reflexivity].
  - destruct (SubResult.success r) eqn:Hs; simpl.
    + destruct (SubResult.verified r) as [[ | ] | ] eqn:Hv; simpl.
      * rewrite IH. split.
        -- intros H r0 [<- | Hin]; [auto | apply H; exact Hin].
        -- intros H r0 Hin. apply H. right. exact Hin.
      * split; [discriminate | ]. intros H.
        destruct (H r (or_introl eq_refl)) as [_ Hv']. congruence.
      * split; [discriminate | ]. intros H.
        destruct (H r (or_introl eq_refl)) as [_ Hv']. congruence.
    + split; [discriminate | ]. intros H.
      destruct (H r (or_introl eq_refl)) as [Hs' _]. congruence.
Qed.

(** ** The cancel flag at the start of a run ([perform_backup]) *)

(** X3. [perform_backup] resets [cancel_requested] before its first
    check: a run does the same, and ends in the same world, whether or not
    the flag was set when it was called.  A cancel request that came too
    late for one run does not cancel the next. *)
Theorem stale_cancel_request_is_dropped
        (env : Env) (settings : Settings.t) (backup_type : option BackupType)
        (force_full : bool) (w : World) (flag : bool) :
  perform_backup env settings backup_type force_full (with_cancel_requested flag w)
  = perform_backup env settings backup_type force_full w.
Proof.
  unfold perform_backup.
  unfold bind at 1. symmetry. unfold bind at 1. symmetry.
  unfold datetime_utcnow, reading, bind, ret. simpl.
  destruct w; reflexivity.
Qed.

(** ** The parent of an incremental backup ([find_parent_snapshot]) *)

Lemma ascii_compare_trans (a b c : ascii) :
  Ascii.compare a b = Lt -> Ascii.compare b c = Lt -> Ascii.compare a c = Lt.
Proof. unfold Ascii.compare. rewrite !N.compare_lt_iff. lia. Qed.

Lemma string_compare_trans : forall a b c : string,
  String.compare a b = Lt -> String.compare b c = Lt -> String.compare a c = Lt.
Proof.
  induction a as [| x a IH]; intros [| y b] [| z c]; simpl; try congruence.
  destruct (Ascii.compare x y) eqn:Exy; try discriminate;
    destruct (Ascii.compare y z) eqn:Eyz; try discriminate; intros H1 H2.
  - apply Ascii.compare_eq_iff in Exy, Eyz. subst.
    assert (E : Ascii.compare z z = Eq) by (unfold Ascii.compare; apply N.compare_refl).
    rewrite E. eauto.
  - apply Ascii.compare_eq_iff in Exy. subst. rewrite Eyz. reflexivity.
  - apply Ascii.compare_eq_iff in Eyz. subst. rewrite Exy. reflexivity.
  - rewrite (ascii_compare_trans _ _ _ Exy Eyz). reflexivity.
Qed.

Lemma string_ltb_trans (a b c : string) :
  String.ltb a b = true -> String.ltb b c = true -> String.ltb a c = true.
Proof.
  unfold String.ltb. intros H1 H2.
  destruct (String.compare a b) eqn:E1; try discriminate.
  destruct (String.compare b c) eqn:E2; try discriminate.
  rewrite (string_compare_trans _ _ _ E1 E2). reflexivity.
Qed.

Lemma string_ltb_irrefl (a : string) : String.ltb a a = false.
Proof.
  unfold String.ltb. destruct (String.compare a a) eqn:E; try reflexivity.
  pose proof (String.compare_antisym a a) as H. rewrite E in H. discriminate.
Qed.

(** No entry is followed by one with a greater name. *)
Fixpoint names_descend (l : list DirEntry.t) : Prop :=
  match l with
  | [] => True
  | a :: l' =>
      (forall x, In x l' -> String.ltb (DirEntry.name a) (DirEntry.name x) = false) /\
      names_descend l'
  end.

Lemma insert_by_name_desc_In (e : DirEntry.t) (l : list DirEntry.t) (x : DirEntry.t) :
  In x (insert_by_name_desc e l) <-> x = e \/ In x l.
Proof.
  induction l as [| a l IH]; simpl.
  - intuition.
  - destruct (String.ltb (DirEntry.name a) (DirEntry.name e)); simpl.
    + intuition.
    + rewrite IH. intuition.
Qed.

Lemma sort_by_name_desc_In (l : list DirEntry.t) (x : DirEntry.t) :
  In x (sort_by_name_desc l) <-> In x l.
Proof.
  induction l as [| a l IH]; simpl; [tauto | ].
  rewrite insert_by_name_desc_In, IH. intuition.
Qed.

Lemma insert_by_name_desc_descend (e : DirEntry.t) (l : list DirEntry.t) :
  names_descend l -> names_descend (insert_by_name_desc e l).
Proof.
  induction l as [| a l IH]; simpl.
  - intros _. split; [intros x [] | exact I].
  - intros [Ha Hl]. destruct (String.ltb (DirEntry.name a) (DirEntry.name e)) eqn:Hae; simpl.
    + split; [ | split; assumption].
      intros x [<- | Hx].
      * destruct (String.ltb (DirEntry.name e) (DirEntry.name a)) eqn:Hea; [ | reflexivity].
        pose proof (string_ltb_trans _ _ _ Hae Hea) as Haa.
        rewrite string_ltb_irrefl in Haa. discriminate.
      * destruct (String.ltb (DirEntry.name e) (DirEntry.name x)) eqn:Hex; [ | reflexivity].
        pose proof (string_ltb_trans _ _ _ Hae Hex) as Hax.
        rewrite (Ha x Hx) in Hax. discriminate.
    + split; [ | apply IH; exact Hl].
      intros x Hx. apply insert_by_name_desc_In in Hx. destruct Hx as [-> | Hx]; auto.
Qed.

Lemma sort_by_name_desc_descend (l : list DirEntry.t) : names_descend (sort_by_name_desc l).
Proof.
  induction l as [| a l IH]; simpl; [exact I | ].
  apply insert_by_name_desc_descend. exact IH.
Qed.

Lemma names_descend_app (pre : list DirEntry.t) (e : DirEntry.t) (post : list DirEntry.t) :
  names_descend (pre ++ e :: post)%list ->
  forall x, In x post -> String.ltb (DirEntry.name e) (DirEntry.name x) = false.
Proof.
  induction pre as [| a pre IH]; simpl.
  - intros [H _]. exact H.
  - intros [_ H]. apply IH. exact H.
Qed.

Section Parent.
Variable env : Env.
Variable settings : Settings.t.

(** The loop of [find_parent_snapshot]: the first entry that the ledger
    knows, after entries that it does not know. *)
Lemma first_sent_inv l : forall w r w',
  first_sent env settings l w = (Return r, w') ->
  quiet w w' /\
  match r with
  | Some p =>
      exists pre e post,
        l = (pre ++ e :: post)%list /\ p = entry_path settings e /\
        Ledger.select_id (sent_snapshots w) p <> None /\
        forall x, In x pre ->
                  Ledger.select_id (sent_snapshots w) (entry_path settings x) = None
  | None =>
      forall x, In x l -> Ledger.select_id (sent_snapshots w) (entry_path settings x) = None
  end.
Proof.
  induction l as [| a l IH]; intros w r w' H; simpl in H.
  - apply ret_inv in H. destruct H as [H ->]. inversion H; subst r.
    split; [apply frame_refl | ]. intros x [].
  - step_Return H.
    match goal with Hx : query_sent_id env _ _ = _ |- _ =>
      apply query_sent_id_inv in Hx; destruct Hx as [Hquiet Hq];
      specialize (Hq _ eq_refl) end.
    pose proof Hquiet as (_ & Hledger & _).
    match type of H with
    | match ?o with _ => _ end _ = _ => destruct o as [i | ] eqn:Ho
    end.
    + apply ret_inv in H. destruct H as [H ->]. inversion H; subst r.
      split; [exact Hquiet | ].
      exists [], a, l. split; [reflexivity | ]. split; [reflexivity | ].
      split; [congruence | ]. intros y [].
    + apply IH in H. destruct H as [Hq2 H].
      split; [eapply frame_trans; eauto | ].
      destruct r as [p | ].
      * destruct H as (pre & e & post & -> & -> & Hsent & Hpre).
        exists (a :: pre), e, post. split; [reflexivity | ]. split; [reflexivity | ].
        rewrite Hledger in Hsent, Hpre. split; [exact Hsent | ].
        intros y [<- | Hy]; [symmetry; exact Hq | auto].
      * rewrite Hledger in H. intros y [<- | Hy]; [symmetry; exact Hq | auto].
Qed.

End Parent.

(** X4. What [find_parent_snapshot] returns is the path of a directory of
    the snapshot directory whose name begins with the subvolume and an
    underscore and whose path is in the ledger, and no such directory with
    a greater name is in the ledger: the parent is the newest snapshot of
    the subvolume that was sent.  It returns [None] only when no directory
    of the subvolume is in the ledger.  Neither the ledger nor the snapshot
    directory is changed. *)
Theorem find_parent_snapshot_newest_sent
        (env : Env) (settings : Settings.t) (subvolume : string)
        (w : World) (r : option string) (w' : World) :
  find_parent_snapshot env settings subvolume w = (Return r, w') ->
  sent_snapshots w' = sent_snapshots w /\
  snapshot_entries w' = snapshot_entries w /\
  exists entries,
    snapshot_entries w = Some entries /\
    let candidate e :=
      In e entries /\ DirEntry.is_dir e = true /\
      Str.startswith (DirEntry.name e) (subvolume ++ "_") = true in
    match r with
    | Some p =>
        exists e,
          candidate e /\ p = entry_path settings e /\
          Ledger.select_id (sent_snapshots w) p <> None /\
          forall e', candidate e' ->
                     String.ltb (DirEntry.name e) (DirEntry.name e') = true ->
                     Ledger.select_id (sent_snapshots w) (entry_path settings e') = None
    | None =>
        forall e, candidate e ->
                  Ledger.select_id (sent_snapshots w) (entry_path settings e) = None
    end.
Proof.
  unfold find_parent_snapshot. intros H.
  step_Return H.
  match goal with Hi : iterdir _ = _ |- _ => unfold iterdir in Hi; rename Hi into Hdir end.
  step_Return Hdir.
  match goal with Hg : get snapshot_entries _ = _ |- _ =>
    apply get_inv in Hg; destruct Hg as [Hg ->]; inversion Hg; subst; clear Hg end.
  destruct (snapshot_entries w) as [entries | ] eqn:Hentries.
  2: { apply raise_inv in Hdir. destruct Hdir. discriminate. }
  apply ret_inv in Hdir. destruct Hdir as [Hdir ->]. inversion Hdir; subst; clear Hdir.
  apply first_sent_inv in H. destruct H as [Hquiet H].
  destruct Hquiet as (_ & Hl & _ & _ & He & _).
  split; [exact Hl | ]. split; [congruence | ].
  exists entries. split; [reflexivity | ]. cbv zeta.
  assert (Hcand : forall e,
             In e (sort_by_name_desc
                     (filter (fun e => DirEntry.is_dir e
                                       && Str.startswith (DirEntry.name e) (subvolume ++ "_"))
                             entries)) <->
             In e entries /\ DirEntry.is_dir e = true /\
             Str.startswith (DirEntry.name e) (subvolume ++ "_") = true).
  { intros e. rewrite sort_by_name_desc_In, filter_In, andb_true_iff. tauto. }
  destruct r as [p | ].
  - destruct H as (pre & e & post & Hsplit & -> & Hsent & Hpre).
    exists e. split.
    { apply Hcand. rewrite Hsplit. apply in_or_app. right. left. reflexivity. }
    split; [reflexivity | ]. split; [exact Hsent | ].
    intros e' He' Hlt. apply Hcand in He'. rewrite Hsplit in He'.
    apply in_app_or in He'. destruct He' as [Hin | [<- | Hin]].
    + apply Hpre. exact Hin.
    + rewrite string_ltb_irrefl in Hlt. discriminate.
    + pose proof (sort_by_name_desc_descend
                    (filter (fun e => DirEntry.is_dir e
                                      && Str.startswith (DirEntry.name e) (subvolume ++ "_"))
                            entries)) as Hd.
      rewrite Hsplit in Hd.
      rewrite (names_descend_app _ _ _ Hd _ Hin) in Hlt. discriminate.
  - intros e Hc. apply H. apply Hcand. exact Hc.
Qed.

(** The snapshot of 1 June is in the ledger; a newer one of 15 June is
    not: the parent is the snapshot of 1 June. *)
Lemma find_parent_snapshot_newest_sent_witness :
  let w := Scenario.at_rest [Scenario.june1_row] []
             [Scenario.june1_snapshot; DirEntry.mk "@_20240615_020000" true 1718416800] in
  sent_snapshots
    (snd (find_parent_snapshot (Scenario.fair Scenario.june15) Scenario.settings "@" w))
  = sent_snapshots w.
Proof.
  cbv zeta.
  refine (proj1 (find_parent_snapshot_newest_sent
                   (Scenario.fair Scenario.june15) Scenario.settings "@" _
                   (Some "/.snapshots/@_20240601_020000") _ _)).
  vm_compute. reflexivity.
Defined.

(** The two spellings of a snapshot path differ when the configured
    snapshot directory ends with a slash: [_create_snapshot] records
    [f"{snapshot_dir}/{name}"], [find_parent_snapshot] asks the ledger for
    [str(Path(snapshot_dir) / name)].  After a run of 15 June that sent
    both subvolumes, the snapshot of [@] is found as a parent under
    ["/.snapshots"] and is not found under ["/.snapshots/"]. *)
Lemma trailing_slash_hides_the_parent :
  let env := Scenario.fair Scenario.june15 in
  let slash := Settings.mk "petalbyte-client" 2 31 3 "tower" "/mnt/user/backups"
                           "/.snapshots/" true "/host" "/host-home" in
  let after settings :=
    snd (perform_backup env settings None false (Scenario.at_rest [] [] [])) in
  map SentSnapshot.snapshot_path (sent_snapshots (after slash))
  = ["/.snapshots//@_20240615_020000"; "/.snapshots//@home_20240615_020000"] /\
  fst (find_parent_snapshot env slash "@" (after slash)) = Return None /\
  fst (find_parent_snapshot env Scenario.settings "@" (after Scenario.settings))
  = Return (Some "/.snapshots/@_20240615_020000").
Proof.
  vm_compute. repeat split.
Qed.

(** ** The history row and the slot at the end of a run ([perform_backup]) *)

(** Frames for the functions that publish progress and write the result
    object: [R] holds across every step that keeps [g], across
    [_update_progress] and across every write to the result object. *)
Section RunFrame.
Context {A : Type} (g : World -> A) (R : World -> World -> Prop) `{Frame R}.
Hypothesis g_tick : forall x w, g (with_tick x w) = g w.
Hypothesis g_cancel : forall x w, g (with_cancel_requested x w) = g w.
Hypothesis g_log : forall x w, g (with_log x w) = g w.
Hypothesis g_remote : forall x w, g (with_remote x w) = g w.
Hypothesis g_entries : forall x w, g (with_snapshot_entries x w) = g w.
Hypothesis g_ledger : forall x w, g (with_sent_snapshots x w) = g w.
Hypothesis g_dirs : forall x w, g (with_remote_dirs x w) = g w.
Hypothesis R_kept : forall w w', g w' = g w -> R w w'.
Hypothesis R_current : forall b w, R w (with_current_backup (Some b) w).
Hypothesis R_result : forall x w, R w (with_run_result x w).
Variable env : Env.
Variable settings : Settings.t.

Lemma kept_R {B : Type} (m : M B) : keeps (kept g) m -> keeps R m.
Proof. intros Hm w. apply R_kept. apply Hm. Qed.

Ltac by_kept :=
  apply kept_R;
  first [ apply datetime_now_kept | apply datetime_utcnow_kept
        | apply create_snapshots_kept | apply _get_unraid_host_kept
        | apply cleanup_failed_uploads_kept | apply cleanup_old_monthly_backups_kept
        | apply cleanup_old_incremental_backups_kept | apply cleanup_local_snapshots_kept
        | apply run_callbacks_kept | apply _determine_backup_type_kept
        | apply _backup_snapshot_kept | apply check_cancel_kept ];
  first [ exact g_tick | exact g_cancel | exact g_log | exact g_remote
        | exact g_entries | exact g_ledger | exact g_dirs ].

Ltac run_step :=
  match goal with
  | |- R _ _ => cbv beta zeta; first [ apply R_current | apply R_result ]
  | _ => first [ keeps_step | by_kept ]
  end.

Ltac run_auto := repeat run_step.

Lemma _update_progress_keeps s a b p c d : keeps R (_update_progress env s a b p c d).
Proof. unfold _update_progress. run_auto. Qed.

Lemma set_status_keeps s : keeps R (set_status s).
Proof. unfold set_status. run_auto. Qed.

Lemma set_backup_type_keeps t : keeps R (set_backup_type t).
Proof. unfold set_backup_type. run_auto. Qed.

Lemma set_error_message_keeps e : keeps R (set_error_message e).
Proof. unfold set_error_message. run_auto. Qed.

Lemma set_totals_keeps n l : keeps R (set_totals n l).
Proof. unfold set_totals. run_auto. Qed.

Hint Resolve _update_progress_keeps set_status_keeps set_backup_type_keeps
  set_error_message_keeps set_totals_keeps : keeps.

Lemma backup_loop_keeps snapshots : forall i len k total acc,
  keeps R (backup_loop env settings snapshots i len k total acc).
Proof. induction snapshots as [| s rest IH]; intros; simpl; run_auto. Qed.

Hint Resolve backup_loop_keeps : keeps.

Lemma perform_backup_body_keeps backup_type force_full :
  keeps R (perform_backup_body env settings backup_type force_full).
Proof. unfold perform_backup_body. run_auto. Qed.

Hint Resolve perform_backup_body_keeps : keeps.

(** The [try] block with its [except] branch. *)
Lemma perform_backup_try_keeps backup_type force_full :
  keeps R (try_except
             (perform_backup_body env settings backup_type force_full)
             (fun e =>
                set_status FAILED ;;
                set_error_message e ;;
                _ <- datetime_utcnow env ;;
                ret tt)).
Proof. run_auto. Qed.

End RunFrame.

(** [slot_set]: a slot that was filled is still filled. *)
Definition slot_set (w w' : World) : Prop :=
  is_some (current_backup w) = true -> is_some (current_backup w') = true.

#[export] Instance slot_set_frame : Frame slot_set.
Proof. split; unfold slot_set; auto. Qed.

Lemma next_history_id_fresh (h : list BackupHistory.t) (x : BackupHistory.t) :
  In x h ->
  (BackupHistory.id x
   < fold_right (fun x acc => Pos.max (Pos.succ (BackupHistory.id x)) acc) 1 h)%positive.
Proof.
  induction h as [| a h IH]; simpl; [intros [] | ].
  intros [<- | Hin]; [lia | ]. specialize (IH Hin). lia.
Qed.

Section RunEnd.
Variable env : Env.
Variable settings : Settings.t.

(** Neither the [try] block nor the [except] branch writes the history. *)
Lemma perform_backup_try_history backup_type force_full :
  keeps (kept backup_history)
        (try_except
           (perform_backup_body env settings backup_type force_full)
           (fun e =>
              set_status FAILED ;;
              set_error_message e ;;
              _ <- datetime_utcnow env ;;
              ret tt)).
Proof.
  apply (perform_backup_try_keeps backup_history (kept backup_history));
    try (intros; reflexivity).
  intros w w' Hg. exact Hg.
Qed.

(** Once filled, the slot stays filled until the [finally]. *)
Lemma perform_backup_try_slot backup_type force_full :
  keeps slot_set
        (try_except
           (perform_backup_body env settings backup_type force_full)
           (fun e =>
              set_status FAILED ;;
              set_error_message e ;;
              _ <- datetime_utcnow env ;;
              ret tt)).
Proof.
  apply (perform_backup_try_keeps (fun w => is_some (current_backup w)) slot_set);
    try (intros; reflexivity).
  - intros w w' Hg. unfold slot_set. congruence.
  - intros x w. unfold slot_set. auto.
  - intros x w. unfold slot_set. auto.
Qed.

(** The first statement of the [try] block fills the slot, whatever it
    held. *)
Lemma perform_backup_body_fills_slot backup_type force_full w :
  perform_backup_body env settings backup_type force_full w
  = perform_backup_body env settings backup_type force_full
      (with_current_backup
         (Some (BackupProgress.mk "Cleaning up failed uploads" 7 1 10%Q None None)) w).
Proof.
  unfold perform_backup_body.
  unfold bind at 1. symmetry. unfold bind at 1. symmetry.
  unfold _update_progress.
  unfold bind at 1. symmetry. unfold bind at 1. symmetry.
  unfold modify. destruct w; reflexivity.
Qed.

(** The [except] branch returns. *)
Lemma perform_backup_try_returns backup_type force_full w :
  exists u w',
    try_except
      (perform_backup_body env settings backup_type force_full)
      (fun e =>
         set_status FAILED ;;
         set_error_message e ;;
         _ <- datetime_utcnow env ;;
         ret tt) w = (Return u, w').
Proof.
  unfold try_except.
  destruct (perform_backup_body env settings backup_type force_full w) as [[u | e] w1].
  - eauto.
  - unfold set_status, set_error_message, datetime_utcnow, reading, bind, modify, ret.
    eauto.
Qed.

(** [_save_backup_history], by its outcome. *)
Lemma _save_backup_history_inv w r w' :
  _save_backup_history env w = (r, w') ->
  current_backup w' = current_backup w /\
  ((exists e, r = Raise e /\ db_error env (tick w) = Some e /\
              backup_history w' = backup_history w) \/
   (r = Return tt /\
    let new_id :=
      fold_right (fun x acc => Pos.max (Pos.succ (BackupHistory.id x)) acc) 1%positive
                 (backup_history w) in
    let res := run_result w in
    backup_history w'
    = (backup_history w
         ++ [BackupHistory.mk new_id (BackupType_value (BackupResult.backup_type res))
                              (BackupResult.status res) (BackupResult.size_bytes res)
                              (BackupResult.error_message res)])%list /\
    run_result w'
    = BackupResult.mk (Zpos new_id) (BackupResult.status res)
                      (BackupResult.backup_type res) (BackupResult.size_bytes res)
                      (BackupResult.error_message res) (BackupResult.subvolumes res))).
Proof.
  unfold _save_backup_history, set_backup_id, db_await, await, bind, get, modify, ret, raise.
  simpl.
  destruct (db_error env (tick w)) as [e0 | ];
    destruct (cancel_arrives env (tick w) && is_some (current_backup w));
    simpl; intros H; inversion H; subst; simpl; split; try reflexivity;
    try (left; exists e0; repeat split; reflexivity);
    right; split; try reflexivity; split; reflexivity.
Qed.

End RunEnd.

(** X5. A run that returns has emptied the slot and has added exactly one
    row to the history, after the rows that were there: the row carries the
    status, the kind, the size and the error message of the result that is
    returned, its identifier is the [backup_id] of the result, and it is
    greater than the identifier of every earlier row. *)
Theorem perform_backup_records_one_history_row
        (env : Env) (settings : Settings.t) (backup_type : option BackupType)
        (force_full : bool) (w : World) (res : BackupResult.t) (w' : World) :
  perform_backup env settings backup_type force_full w = (Return res, w') ->
  current_backup w' = None /\
  exists row,
    backup_history w' = (backup_history w ++ [row])%list /\
    BackupHistory.status row = BackupResult.status res /\
    BackupHistory.backup_type row = BackupType_value (BackupResult.backup_type res) /\
    BackupHistory.size_bytes row = BackupResult.size_bytes res /\
    BackupHistory.error_message row = BackupResult.error_message res /\
    BackupResult.backup_id res = Zpos (BackupHistory.id row) /\
    forall x, In x (backup_history w) -> (BackupHistory.id x < BackupHistory.id row)%positive.
Proof.
  unfold perform_backup. intros H.
  step_Return H.
  match goal with Hu : datetime_utcnow env _ = _ |- _ =>
    apply datetime_utcnow_inv in Hu; destruct Hu as [_ Hu] end.
  step_Return H.
  match goal with Hm : modify _ _ = _ |- _ => apply modify_inv in Hm; destruct Hm as [_ Hm] end.
  step_Return H.
  match goal with Hm : modify (with_run_result _) _ = _ |- _ =>
    apply modify_inv in Hm; destruct Hm as [_ Hm] end.
  subst.
  step_Return H.
  apply get_inv in H. destruct H as [Hres Hw'].
  match type of Hw' with _ = ?x => subst x end.
  inversion Hres; subst res; clear Hres.
  match goal with
  | Hf : try_finally _ _ _ = _ |- _ => unfold try_finally in Hf; rename Hf into Hrun
  end.
  match type of Hrun with
  | context [try_except ?m ?h ?w0] =>
      pose proof (perform_backup_try_history env settings backup_type force_full w0) as Hh;
      destruct (try_except m h w0) as [r1 wt] eqn:Htry
  end.
  unfold kept in Hh. simpl in Hh.
  match type of Hrun with
  | context [bind ?m ?k wt] => destruct (bind m k wt) as [[u2 | e2] wf] eqn:Hfin
  end; [ | discriminate].
  injection Hrun as Hr1 Hwf. subst r1 wf.
  apply bind_Return_inv in Hfin. destruct Hfin as (u3 & w3 & Hsave & Hcur).
  apply modify_inv in Hcur. destruct Hcur as [_ ->]. simpl.
  apply _save_backup_history_inv in Hsave.
  destruct Hsave as [_ [(e & He & _) | (_ & Hrow & Hresult)]]; [discriminate | ].
  cbv zeta in Hrow, Hresult. rewrite Hh in Hrow, Hresult. simpl in Hrow, Hresult.
  split; [reflexivity | ].
  eexists. split; [rewrite Hrow; reflexivity | ].
  rewrite Hresult. simpl.
  repeat (split; [reflexivity | ]).
  intros old Hold. apply next_history_id_fresh. exact Hold.
Qed.

Lemma perform_backup_records_one_history_row_witness :
  current_backup partial_world = None /\
  map BackupHistory.status (backup_history partial_world) = [PARTIAL].
Proof.
  destruct (perform_backup_records_one_history_row
              (Scenario.transfer_fails_at Scenario.june15 22) Scenario.settings
              None false (Scenario.at_rest [] [] []) partial_result partial_world)
    as (Hslot & row & Hrows & Hstatus & _).
  - vm_compute. reflexivity.
  - split; [exact Hslot | ]. rewrite Hrows. simpl. rewrite Hstatus. reflexivity.
Defined.

(** X6. [perform_backup] raises only when the history row cannot be
    saved: the exception is the one of the database, no row is added, and
    the slot is left filled, because the statement that empties it follows
    the save in the [finally] block. *)
Theorem perform_backup_raises_only_from_history
        (env : Env) (settings : Settings.t) (backup_type : option BackupType)
        (force_full : bool) (w : World) (e : string) (w' : World) :
  perform_backup env settings backup_type force_full w = (Raise e, w') ->
  (exists t, db_error env t = Some e) /\
  backup_history w' = backup_history w /\
  is_some (current_backup w') = true.
Proof.
  unfold perform_backup. intros H.
  step_any H.
  2: { match goal with Hu : datetime_utcnow env _ = _ |- _ =>
         apply datetime_utcnow_inv in Hu; destruct Hu; discriminate end. }
  match goal with Hu : datetime_utcnow env _ = _ |- _ =>
    apply datetime_utcnow_inv in Hu; destruct Hu as [_ Hu] end.
  step_any H.
  2: { match goal with Hm : modify _ _ = _ |- _ =>
         apply modify_inv in Hm; destruct Hm; discriminate end. }
  match goal with Hm : modify _ _ = _ |- _ => apply modify_inv in Hm; destruct Hm as [_ Hm] end.
  step_any H.
  2: { match goal with Hm : modify _ _ = _ |- _ =>
         apply modify_inv in Hm; destruct Hm; discriminate end. }
  match goal with Hm : modify (with_run_result _) _ = _ |- _ =>
    apply modify_inv in Hm; destruct Hm as [_ Hm] end.
  subst.
  step_any H.
  1: { apply get_inv in H. destruct H. discriminate. }
  unfold try_finally in H.
  match type of H with
  | context [try_except ?m ?h ?w0] =>
      pose proof (perform_backup_try_history env settings backup_type force_full w0) as Hh;
      pose proof (perform_backup_try_slot
                    env settings backup_type force_full
                    (with_current_backup
                       (Some (BackupProgress.mk "Cleaning up failed uploads" 7 1 10%Q
                                                None None)) w0)) as Hs;
      destruct (perform_backup_try_returns env settings backup_type force_full w0)
        as (u & wt & Htry);
      assert (Hsame :
                try_except m h w0
                = try_except m h
                    (with_current_backup
                       (Some (BackupProgress.mk "Cleaning up failed uploads" 7 1 10%Q
                                                None None)) w0))
        by (unfold try_except; rewrite <- perform_backup_body_fills_slot; reflexivity);
      rewrite <- Hsame in Hs; clear Hsame;
      rewrite Htry in H, Hh, Hs
  end.
  unfold kept in Hh. simpl in Hh. unfold slot_set in Hs. simpl in Hs.
  specialize (Hs eq_refl).
  match type of H with
  | context [bind ?m ?k wt] => destruct (bind m k wt) as [[u2 | e2] wf] eqn:Hfin
  end; [discriminate | ].
  injection H as -> ->.
  apply bind_inv in Hfin. destruct Hfin as [(u3 & w3 & _ & Hcur) | (e3 & Hsave & He3)].
  { cbv beta in Hcur. unfold modify in Hcur. discriminate. }
  inversion He3; subst e3; clear He3.
  apply _save_backup_history_inv in Hsave.
  destruct Hsave as [Hslot [(e0 & He0 & Hdb & Hhist) | (Hr & _)]]; [ | discriminate].
  split; [exists (tick wt); congruence | ].
  split; [congruence | ]. rewrite Hslot. exact Hs.
Qed.

(** The database is locked when the history row of an otherwise
    successful run is saved. *)
Definition unsaved_run : result BackupResult.t * World :=
  Eval vm_compute in
    perform_backup (Scenario.db_locked_at Scenario.june15 35) Scenario.settings None false
                   (Scenario.at_rest [] [] []).

Lemma perform_backup_raises_only_from_history_witness :
  backup_history (snd unsaved_run) = [] /\
  is_some (current_backup (snd unsaved_run)) = true.
Proof.
  destruct (perform_backup_raises_only_from_history
              (Scenario.db_locked_at Scenario.june15 35) Scenario.settings None false
              (Scenario.at_rest [] [] []) "OperationalError: database is locked"
              (snd unsaved_run)) as (_ & Hh & Hs).
  - vm_compute. reflexivity.
  - split; [exact Hh | exact Hs].
Defined.

(** ** The remote cleanups ([cleanup.py]) *)

(** [only_deletes]: every remote file and every ledger row present
    afterwards was present before, unchanged. *)
Definition only_deletes (w w' : World) : Prop :=
  (forall f, In f (remote w') -> In f (remote w)) /\
  (forall row, In row (sent_snapshots w') -> In row (sent_snapshots w)).

#[export] Instance only_deletes_frame : Frame only_deletes.
Proof.
  split; unfold only_deletes.
  - intros w. split; auto.
  - intros a b c [H1 H2] [H3 H4]. split; auto.
Qed.

Lemma kept_only_deletes {B : Type} (m : M B) :
  keeps (kept (fun w => (remote w, sent_snapshots w))) m -> keeps only_deletes m.
Proof.
  intros Hm w. specialize (Hm w). unfold kept in Hm. inversion Hm as [[Hr Hl]].
  unfold only_deletes. rewrite Hr, Hl. split; auto.
Qed.

(** No command of the cleanups creates or changes a file. *)
Lemma run_only_deletes (c : Command) (tnow : Z) (fs : Remote.files) (ds : list string)
      (f : RemoteFile.t) :
  In f (snd (Remote.run c tnow fs ds)) -> In f fs.
Proof.
  destruct c; simpl; try tauto;
    try (rewrite filter_In; tauto);
    destruct (Remote.lookup fs _); simpl; tauto.
Qed.

Section OnlyDeletes.
Variable env : Env.
Variable settings : Settings.t.

Ltac del_step :=
  match goal with
  | |- only_deletes _ _ =>
      unfold only_deletes; simpl; split; intros ? Hin;
      first [ exact Hin | apply filter_In in Hin; tauto ]
  | _ => first [ keeps_step | apply kept_only_deletes; solve [auto with keeps] ]
  end.

Ltac del_auto := repeat del_step.

Lemma execute_command_only_deletes c : keeps only_deletes (execute_command env c).
Proof.
  intros w. destruct (execute_command env c w) as [r w'] eqn:E.
  apply execute_command_inv in E.
  destruct E as (res & _ & _ & Hb & Hcase). destruct Hb as (_ & Hl & _).
  unfold only_deletes. simpl. rewrite Hl. split; [ | auto].
  destruct Hcase as [(_ & Hrun & _) | (_ & _ & Hr & _)].
  - intros f Hin. apply (run_only_deletes c (remote_now env (tick w)) _ (remote_dirs w)).
    rewrite Hrun. exact Hin.
  - rewrite Hr. auto.
Qed.

Hint Resolve execute_command_only_deletes : keeps.

Lemma delete_remote_file_only_deletes p : keeps only_deletes (delete_remote_file env p).
Proof. unfold delete_remote_file. del_auto. Qed.

Lemma execute_delete_like_only_deletes p : keeps only_deletes (execute_delete_like env p).
Proof. unfold execute_delete_like, Ledger.delete_like. del_auto. Qed.

Lemma execute_delete_incremental_before_only_deletes c :
  keeps only_deletes (execute_delete_incremental_before env c).
Proof.
  unfold execute_delete_incremental_before, Ledger.delete_incremental_before. del_auto.
Qed.

Hint Resolve delete_remote_file_only_deletes execute_delete_like_only_deletes
  execute_delete_incremental_before_only_deletes : keeps.

Lemma sweep_orphan_only_deletes o n : keeps only_deletes (sweep_orphan env o n).
Proof. unfold sweep_orphan. del_auto. Qed.

Hint Resolve sweep_orphan_only_deletes : keeps.

Lemma sweep_loop_only_deletes l : forall n, keeps only_deletes (sweep_loop env l n).
Proof. induction l; intros n; simpl; del_auto. Qed.

Hint Resolve sweep_loop_only_deletes : keeps.

Lemma cleanup_failed_uploads_only_deletes :
  keeps only_deletes (cleanup_failed_uploads env settings).
Proof. unfold cleanup_failed_uploads. del_auto. Qed.

Lemma prune_month_only_deletes m l : keeps only_deletes (prune_month env settings m l).
Proof. unfold prune_month. del_auto. Qed.

Hint Resolve prune_month_only_deletes : keeps.

Lemma prune_loop_only_deletes months : forall l,
  keeps only_deletes (prune_loop env settings months l).
Proof. induction months; intros l; simpl; del_auto. Qed.

Hint Resolve prune_loop_only_deletes : keeps.

Lemma cleanup_old_monthly_backups_only_deletes :
  keeps only_deletes (cleanup_old_monthly_backups env settings).
Proof. unfold cleanup_old_monthly_backups. del_auto. Qed.

Lemma cleanup_old_incremental_backups_only_deletes :
  keeps only_deletes (cleanup_old_incremental_backups env settings).
Proof. unfold cleanup_old_incremental_backups. del_auto. Qed.

(** One orphan adds at most one to the count. *)
Lemma sweep_orphan_count o n w n' w' :
  sweep_orphan env o n w = (Return n', w') -> n <= n' <= S n.
Proof.
  unfold sweep_orphan. intros H.
  step_Return H.
  match type of H with (if ?c then _ else _) _ = _ => destruct c end.
  2: { apply ret_inv in H. destruct H as [H _]. inversion H. lia. }
  apply try_except_inv in H. destruct H as [(a & H & Ha) | (e & w1 & _ & H)].
  2: { apply ret_inv in H. destruct H as [H _]. inversion H. lia. }
  inversion Ha; subst a; clear Ha.
  match type of H with (match ?c with _ => _ end) _ = _ => destruct c end.
  1: { apply raise_inv in H. destruct H. discriminate. }
  step_Return H.
  match type of H with (if ?c then _ else _) _ = _ => destruct c end.
  2: { apply ret_inv in H. destruct H as [H _]. inversion H. lia. }
  step_Return H. apply ret_inv in H. destruct H as [H _]. inversion H.
  match goal with |- context [if ?c then _ else _] => destruct c end; lia.
Qed.

Lemma sweep_loop_count l : forall n w n' w',
  sweep_loop env l n w = (Return n', w') -> n <= n' <= n + length l.
Proof.
  induction l as [| o l IH]; intros n w n' w' H; simpl in H.
  - apply ret_inv in H. destruct H as [H _]. inversion H. simpl. lia.
  - step_Return H.
    match goal with Ho : sweep_orphan env _ _ _ = _ |- _ => apply sweep_orphan_count in Ho end.
    apply IH in H. simpl. lia.
Qed.

Lemma cleanup_failed_uploads_count w o d w' :
  cleanup_failed_uploads env settings w = (Return (Some (o, d)), w') -> d <= o.
Proof.
  unfold cleanup_failed_uploads. intros H.
  apply try_except_inv in H. destruct H as [(a & H & Ha) | (e & w1 & _ & H)].
  2: { apply ret_inv in H. destruct H. discriminate. }
  inversion Ha; subst a; clear Ha.
  step_Return H. step_Return H.
  match type of H with (if ?c then _ else _) _ = _ => destruct c end.
  { apply ret_inv in H. destruct H. discriminate. }
  cbv zeta in H. step_Return H. step_Return H.
  apply ret_inv in H. destruct H as [H _]. inversion H; subst.
  match goal with Hl : sweep_loop env _ _ _ = _ |- _ => apply sweep_loop_count in Hl end.
  lia.
Qed.

End OnlyDeletes.

(** X7. The three remote cleanups never raise, and they only delete:
    every remote file and every ledger row present afterwards was present
    before.  The orphan sweep leaves the ledger as it is and never reports
    more deleted files than orphans. *)
Theorem remote_cleanups_only_delete (env : Env) (settings : Settings.t) (w : World) :
  (exists r w',
     cleanup_failed_uploads env settings w = (Return r, w') /\
     only_deletes w w' /\
     sent_snapshots w' = sent_snapshots w /\
     match r with
     | Some (orphaned_files, deleted_files) => deleted_files <= orphaned_files
     | None => True
     end) /\
  (exists r w',
     cleanup_old_monthly_backups env settings w = (Return r, w') /\ only_deletes w w') /\
  (exists r w',
     cleanup_old_incremental_backups env settings w = (Return r, w') /\ only_deletes w w').
Proof.
  split; [ | split].
  - pose proof (cleanup_failed_uploads_only_deletes env settings w) as Hd.
    pose proof (cleanup_failed_uploads_idle env settings w) as Hi.
    destruct (cleanup_failed_uploads env settings w) as [[r | e] w'] eqn:E.
    + exists r, w'. split; [reflexivity | ]. split; [exact Hd | ].
      destruct Hi as (_ & Hl & _). split; [exact Hl | ].
      destruct r as [[o d] | ]; [ | exact I].
      eapply cleanup_failed_uploads_count. exact E.
    + unfold cleanup_failed_uploads in E. apply try_except_inv in E.
      destruct E as [(a & _ & Ha) | (e0 & w1 & _ & E)]; [discriminate | ].
      apply ret_inv in E. destruct E. discriminate.
  - pose proof (cleanup_old_monthly_backups_only_deletes env settings w) as Hd.
    destruct (cleanup_old_monthly_backups env settings w) as [[r | e] w'] eqn:E.
    + exists r, w'. auto.
    + unfold cleanup_old_monthly_backups in E. apply try_except_inv in E.
      destruct E as [(a & _ & Ha) | (e0 & w1 & _ & E)]; [discriminate | ].
      apply ret_inv in E. destruct E. discriminate.
  - pose proof (cleanup_old_incremental_backups_only_deletes env settings w) as Hd.
    destruct (cleanup_old_incremental_backups env settings w) as [[r | e] w'] eqn:E.
    + exists r, w'. auto.
    + unfold cleanup_old_incremental_backups in E. apply try_except_inv in E.
      destruct E as [(a & _ & Ha) | (e0 & w1 & _ & E)]; [discriminate | ].
      apply ret_inv in E. destruct E. discriminate.
Qed.

(** ** The months that the monthly purge keeps ([cleanup_old_monthly_backups]) *)

Lemma string_ltb_total (a b : string) :
  String.ltb a b = false -> a <> b -> String.ltb b a = true.
Proof.
  unfold String.ltb. intros Hab Hne.
  rewrite (String.compare_antisym b a).
  destruct (String.compare a b) eqn:E; simpl; try reflexivity; try discriminate.
  apply String.compare_eq_iff in E. contradiction.
Qed.

(** Every name is greater than the names after it. *)
Fixpoint strictly_descending (l : list string) : Prop :=
  match l with
  | [] => True
  | a :: l' => (forall x, In x l' -> String.ltb x a = true) /\ strictly_descending l'
  end.

Lemma insert_desc_In (s : string) (l : list string) (x : string) :
  In x (Remote.insert_desc s l) <-> x = s \/ In x l.
Proof.
  induction l as [| a l IH]; simpl.
  - intuition.
  - destruct (String.eqb s a) eqn:E.
    + apply String.eqb_eq in E. subst a. simpl. intuition.
    + destruct (String.ltb a s); simpl; [intuition | ]. rewrite IH. intuition.
Qed.

Lemma insert_desc_descending (s : string) (l : list string) :
  strictly_descending l -> strictly_descending (Remote.insert_desc s l).
Proof.
  induction l as [| a l IH]; simpl.
  - intros _. split; [intros x [] | exact I].
  - intros [Ha Hl]. destruct (String.eqb s a) eqn:E; [simpl; auto | ].
    apply String.eqb_neq in E.
    destruct (String.ltb a s) eqn:Has; simpl.
    + split; [ | auto]. intros x [<- | Hx]; [exact Has | ].
      eapply string_ltb_trans; [apply Ha; exact Hx | exact Has].
    + split; [ | apply IH; exact Hl].
      intros x Hx. apply insert_desc_In in Hx. destruct Hx as [-> | Hx]; [ | auto].
      apply string_ltb_total; [exact Has | congruence].
Qed.

Lemma month_dirs_descending (base : string) (fs : Remote.files) (ds : list string) :
  strictly_descending (Remote.month_dirs base fs ds).
Proof.
  unfold Remote.month_dirs.
  induction (map RemoteFile.path fs ++ ds)%list as [| p l IH]; simpl; [exact I | ].
  destruct (Remote.month_of base p); [ | exact IH].
  apply insert_desc_descending. exact IH.
Qed.

Lemma month_dirs_is_month (base : string) (fs : Remote.files) (ds : list string)
      (d : string) :
  In d (Remote.month_dirs base fs ds) -> Remote.is_month d = true.
Proof.
  unfold Remote.month_dirs.
  induction (map RemoteFile.path fs ++ ds)%list as [| p l IH]; simpl; [intros [] | ].
  destruct (Remote.month_of base p) as [x | ] eqn:Hp; [ | exact IH].
  intros Hin. apply insert_desc_In in Hin. destruct Hin as [-> | Hin]; [ | auto].
  unfold Remote.month_of in Hp.
  destruct (Str.strip_prefix p (base ++ "/")) as [rest | ]; [ | discriminate].
  cbv zeta in Hp.
  destruct (Remote.is_month (Str.until_slash rest)) eqn:Hm; inversion Hp; subst.
  exact Hm.
Qed.

Lemma In_skipn {A : Type} (l : list A) : forall k x, In x (skipn k l) -> In x l.
Proof.
  induction l as [| a l IH]; intros [| k] x H; simpl in *; try contradiction; eauto.
Qed.

Lemma In_firstn {A : Type} (l : list A) : forall k x, In x (firstn k l) -> In x l.
Proof.
  induction l as [| a l IH]; intros [| k] x H; simpl in *; try contradiction.
  destruct H as [-> | H]; eauto.
Qed.

(** A name that is kept is not among the names dropped. *)
Lemma firstn_skipn_apart (l : list string) : forall k m,
  strictly_descending l -> In m (firstn k l) -> In m (skipn k l) -> False.
Proof.
  induction l as [| a l IH]; intros [| k] m Hd Hf Hs; simpl in *; try contradiction.
  destruct Hd as [Ha Hl]. destruct Hf as [<- | Hf].
  - apply In_skipn in Hs. apply Ha in Hs.
    rewrite string_ltb_irrefl in Hs. discriminate.
  - eapply IH; eauto.
Qed.

Lemma startswith_same_length : forall a b x y : string,
  String.length a = String.length b ->
  Str.startswith (a ++ x) (b ++ y) = true -> a = b.
Proof.
  induction a as [| c a IH]; intros [| d b] x y Hlen H; simpl in *; try discriminate.
  - reflexivity.
  - apply Bool.andb_true_iff in H. destruct H as [Hcd H].
    apply Ascii.eqb_eq in Hcd. subst d. f_equal. eapply IH; [ | exact H]. lia.
Qed.

Lemma length_append (a b : string) :
  String.length (a ++ b) = String.length a + String.length b.
Proof. induction a as [| c a IH]; simpl; [reflexivity | rewrite IH; reflexivity]. Qed.

Lemma is_month_length (m : string) : Remote.is_month m = true -> String.length m = 6.
Proof.
  unfold Remote.is_month. intros H. apply Bool.andb_true_iff in H.
  destruct H as [H _]. apply Nat.eqb_eq in H. exact H.
Qed.

(** A file below one month directory is not removed with another. *)
Lemma other_month_untouched (base m m' path : string) :
  Remote.is_month m = true -> Remote.is_month m' = true -> m <> m' ->
  Remote.under (base ++ "/" ++ m) path = true ->
  String.eqb path (base ++ "/" ++ m') || Remote.under (base ++ "/" ++ m') path = false.
Proof.
  intros Hm Hm' Hne H. unfold Remote.under in *.
  apply is_month_length in Hm. apply is_month_length in Hm'.
  replace ((base ++ "/" ++ m) ++ "/") with ((base ++ "/") ++ m ++ "/") in H
    by (rewrite !append_assoc; reflexivity).
  replace ((base ++ "/" ++ m') ++ "/") with ((base ++ "/") ++ m' ++ "/")
    by (rewrite !append_assoc; reflexivity).
  replace (base ++ "/" ++ m') with ((base ++ "/") ++ m')
    by (rewrite !append_assoc; reflexivity).
  apply startswith_split in H. destruct H as (rest & -> & Hrest).
  apply startswith_split in Hrest. destruct Hrest as (rest' & -> & Hslash).
  apply Bool.orb_false_iff. split.
  - apply String.eqb_neq. intros Heq. apply append_inj_l in Heq.
    apply (f_equal String.length) in Heq. rewrite !length_append in Heq.
    destruct rest' as [| c r]; [discriminate | ]. simpl in Heq. lia.
  - rewrite startswith_app_same.
    destruct (Str.startswith (m ++ rest') (m' ++ "/")) eqn:E; [ | reflexivity].
    apply startswith_same_length in E; [contradiction | congruence].
Qed.

Section Retention.
Variable env : Env.
Variable settings : Settings.t.
Variable kept_months : list string.
Hypothesis kept_are_months : forall m, In m kept_months -> Remote.is_month m = true.

(** [f] lies below the directory of a month that is kept. *)
Definition retained (f : RemoteFile.t) : Prop :=
  exists m, In m kept_months /\
            Remote.under (base_path settings ++ "/" ++ m) (RemoteFile.path f) = true.

Definition keeps_retained (w w' : World) : Prop :=
  forall f, In f (remote w) -> retained f -> In f (remote w').

#[local] Instance keeps_retained_frame : Frame keeps_retained.
Proof.
  split; unfold keeps_retained.
  - auto.
  - intros a b c H1 H2 f Hf Hr. auto.
Qed.

Lemma kept_remote_retained {B : Type} (m : M B) :
  keeps (kept remote) m -> keeps keeps_retained m.
Proof. intros Hm w f Hf _. specialize (Hm w). unfold kept in Hm. rewrite Hm. exact Hf. Qed.

Lemma prune_month_retained month deleted_months :
  Remote.is_month month = true -> ~ In month kept_months ->
  keeps keeps_retained (prune_month env settings month deleted_months).
Proof.
  intros Hmonth Hout. unfold prune_month.
  apply keeps_bind; [typeclasses eauto | | ].
  - apply kept_remote_retained. apply execute_delete_like_kept; intros; reflexivity.
  - intros _. apply keeps_bind; [typeclasses eauto | | intros; apply keeps_ret; typeclasses eauto].
    intros w. destruct (execute_command env _ w) as [r w'] eqn:E. simpl.
    apply execute_command_inv in E. destruct E as (res & _ & _ & _ & Hcase).
    intros f Hf (m & Hm & Hunder).
    destruct Hcase as [(_ & Hrun & _) | (_ & _ & Hr & _)]; [ | rewrite Hr; exact Hf].
    simpl in Hrun. injection Hrun as _ _ <-.
    apply filter_In. split; [exact Hf | ].
    rewrite (other_month_untouched _ m month); auto.
    intros ->. contradiction.
Qed.

Lemma prune_loop_retained months : forall deleted_months,
  (forall m, In m months -> Remote.is_month m = true /\ ~ In m kept_months) ->
  keeps keeps_retained (prune_loop env settings months deleted_months).
Proof.
  induction months as [| m months IH]; intros deleted_months Hall; simpl.
  - apply keeps_ret. typeclasses eauto.
  - apply keeps_bind; [typeclasses eauto | | ].
    + destruct (Hall m (or_introl eq_refl)). apply prune_month_retained; assumption.
    + intros l. apply IH. intros m' Hm'. apply Hall. right. exact Hm'.
Qed.

End Retention.

Lemma filter_truthy_months (l : list string) :
  (forall m, In m l -> Remote.is_month m = true) -> filter Str.truthy l = l.
Proof.
  induction l as [| a l IH]; intros H; simpl; [reflexivity | ].
  assert (Ha : Str.truthy a = true).
  { specialize (H a (or_introl eq_refl)). apply is_month_length in H.
    destruct a; [discriminate | reflexivity]. }
  rewrite Ha, IH; [reflexivity | ]. intros m Hm. apply H. right. exact Hm.
Qed.

(** X8. The monthly purge removes no file of the newest months: a remote
    file below the directory of one of the first [months_to_keep] month
    directories, in descending order of their names, is still there when
    the purge ends, whether the purge succeeds or not. *)
Theorem monthly_purge_keeps_newest_months
        (env : Env) (settings : Settings.t) (w : World) (f : RemoteFile.t) (m : string) :
  In f (remote w) ->
  In m (firstn (Settings.months_to_keep settings)
               (Remote.month_dirs (base_path settings) (remote w) (remote_dirs w))) ->
  Remote.under (base_path settings ++ "/" ++ m) (RemoteFile.path f) = true ->
  In f (remote (snd (cleanup_old_monthly_backups env settings w))).
Proof.
  intros Hf Hm Hunder.
  set (months := Remote.month_dirs (base_path settings) (remote w) (remote_dirs w)) in *.
  set (kept_months := firstn (Settings.months_to_keep settings) months) in *.
  assert (Hmonths : forall x, In x months -> Remote.is_month x = true).
  { intros x Hx. eapply month_dirs_is_month. exact Hx. }
  assert (Hkept : forall x, In x kept_months -> Remote.is_month x = true).
  { intros x Hx. apply Hmonths. eapply In_firstn. exact Hx. }
  assert (Hgoal : keeps_retained settings kept_months w
                    (snd (cleanup_old_monthly_backups env settings w))).
  { destruct (cleanup_old_monthly_backups env settings w) as [r w'] eqn:E. simpl.
    unfold cleanup_old_monthly_backups in E.
    assert (Hbody : forall r1 w1,
      (_ <- _get_unraid_host env settings ;;
       list_result <- execute_command env (ListMonths (base_path settings)) ;;
       (if negb (SshResult.success list_result) then ret None
        else
          let months := filter Str.truthy (stdout_lines (SshResult.stdout list_result)) in
          deleted_months <-
            (if (Settings.months_to_keep settings <? length months)%nat
             then prune_loop env settings (skipn (Settings.months_to_keep settings) months) []
             else ret []) ;;
          ret (Some (length months, deleted_months)))) w = (r1, w1) ->
      keeps_retained settings kept_months w w1).
    { intros r1 w1 H.
      apply bind_inv in H. destruct H as [(host & wa & Hhost & H) | (e & Hhost & _)].
      2: { frame_of Hhost remote. intros f0 Hf0 _. rewrite Hkept0. exact Hf0. }
      assert (Hda : remote_dirs wa = remote_dirs w).
      { frame_of Hhost remote_dirs. exact Hkept0. }
      frame_of Hhost remote. rename Hkept0 into Hra.
      apply bind_inv in H. destruct H as [(res & wb & Hls & H) | (e & Hls & _)].
      2: { apply execute_command_inv in Hls. destruct Hls as (? & ? & _). discriminate. }
      apply execute_command_inv in Hls.
      destruct Hls as (res' & Hres & _ & _ & Hcase). inversion Hres; subst res'; clear Hres.
      destruct Hcase as [(_ & Hrun & _) | (_ & Hfail & Hrb & _)].
      - simpl in Hrun. injection Hrun as Hs Ho Hrb.
        rewrite <- Hs in H. simpl in H. rewrite <- Ho in H. simpl in H.
        rewrite Hra, Hda in H. fold months in H.
        rewrite (filter_truthy_months months Hmonths) in H.
        apply bind_inv in H. destruct H as [(dm & wc & Hloop & H) | (e & Hloop & _)].
        + apply ret_inv in H. destruct H as [_ ->].
          assert (Hstep : keeps_retained settings kept_months wb wc).
          { destruct (Settings.months_to_keep settings <? length months)%nat.
            - pose proof (prune_loop_retained env settings kept_months Hkept
                            (skipn (Settings.months_to_keep settings) months) []) as Hp.
              specialize (Hp (fun x Hx =>
                conj (Hmonths x (In_skipn _ _ _ Hx))
                     (fun Hk => firstn_skipn_apart months _ x
                                  (month_dirs_descending _ _ _) Hk Hx))).
              specialize (Hp wb). rewrite Hloop in Hp. exact Hp.
            - apply ret_inv in Hloop. destruct Hloop as [_ ->]. intros f0 Hf0 _. exact Hf0. }
          intros f0 Hf0 Hr0. apply Hstep; [ | exact Hr0]. rewrite <- Hrb, Hra. exact Hf0.
        + assert (Hstep : keeps_retained settings kept_months wb w1).
          { destruct (Settings.months_to_keep settings <? length months)%nat.
            - pose proof (prune_loop_retained env settings kept_months Hkept
                            (skipn (Settings.months_to_keep settings) months) []) as Hp.
              specialize (Hp (fun x Hx =>
                conj (Hmonths x (In_skipn _ _ _ Hx))
                     (fun Hk => firstn_skipn_apart months _ x
                                  (month_dirs_descending _ _ _) Hk Hx))).
              specialize (Hp wb). rewrite Hloop in Hp. exact Hp.
            - apply ret_inv in Hloop. destruct Hloop. discriminate. }
          intros f0 Hf0 Hr0. apply Hstep; [ | exact Hr0]. rewrite <- Hrb, Hra. exact Hf0.
      - rewrite Hfail in H. simpl in H. apply ret_inv in H. destruct H as [_ ->].
        intros f0 Hf0 _. rewrite Hrb, Hra. exact Hf0. }
    apply try_except_inv in E. destruct E as [(a & E & _) | (e & w1 & E & Hh)].
    - eapply Hbody. exact E.
    - apply ret_inv in Hh. destruct Hh as [_ ->]. eapply Hbody. exact E. }
  apply Hgoal; [exact Hf | ]. exists m. split; [exact Hm | exact Hunder].
Qed.

(** Three months on the remote host and two to keep: the full backup of
    May is still there after the purge. *)
Lemma monthly_purge_keeps_newest_months_witness :
  In Scenario.may_full
     (remote (snd (cleanup_old_monthly_backups
                     (Scenario.fair Scenario.june1) Scenario.settings
                     (Scenario.at_rest Scenario.three_rows Scenario.three_months [])))).
Proof.
  apply (monthly_purge_keeps_newest_months
           (Scenario.fair Scenario.june1) Scenario.settings
           (Scenario.at_rest Scenario.three_rows Scenario.three_months [])
           Scenario.may_full "202405").
  - simpl. right. left. reflexivity.
  - vm_compute. right. left. reflexivity.
  - vm_compute. reflexivity.
Defined.

(** A month directory that holds no file is listed by [ls -1] all the
    same: once [create_remote_directory] has made the directory of July,
    May is no longer among the two newest months and its full backup is
    purged. *)
Lemma empty_month_directory_is_counted :
  let env := Scenario.fair Scenario.june1 in
  let w := Scenario.at_rest Scenario.three_rows Scenario.three_months [] in
  let w1 := snd (create_remote_directory env
                   (full_dir Scenario.settings "202407") w) in
  remote w1 = remote w /\
  Remote.month_dirs (base_path Scenario.settings) (remote w1) (remote_dirs w1)
  = ["202407"; "202406"; "202405"; "202404"] /\
  Remote.exists_path
    (remote (snd (cleanup_old_monthly_backups env Scenario.settings w1)))
    (RemoteFile.path Scenario.may_full) = false.
Proof.
  vm_compute. repeat split.
Qed.

(** ** Requests and runs in the process ([api/backup.py], [scheduler.py]) *)

Module SingleFlightFacts.
Import SingleFlight.

(** The event is a POST /backup/start. *)
Definition is_start (ev : Event) : bool :=
  match ev with Http PostStart => true | _ => false end.

(** No POST /backup/start is served while a background task waits to
    begin: the task of an accepted request begins before the next request
    to start a backup is served.  Anything else may happen in between. *)
Fixpoint tasks_begin_first (evs : list Event) (p : Process) : bool :=
  match evs with
  | [] => true
  | ev :: rest =>
      (if is_start ev then Nat.eqb (background_tasks p) 0 else true)
      && tasks_begin_first rest (snd (step ev p))
  end.

Lemma run_cons (ev : Event) (evs : list Event) (p : Process) :
  snd (run (ev :: evs) p) = snd (run evs (snd (step ev p))).
Proof.
  simpl. destruct (step ev p) as [c p1]. simpl. destruct (run evs p1) as [cs p2].
  reflexivity.
Qed.

(** No event writes the flag of the scheduler's engine, except the begin
    of a run, which resets it. *)
Definition scheduler_flag_down (p : Process) : Prop :=
  forall e, scheduler_engine p = Some e -> cancel_requested e = false.

Lemma step_scheduler_flag_down (ev : Event) (p : Process) :
  scheduler_flag_down p -> scheduler_flag_down (snd (step ev p)).
Proof.
  unfold scheduler_flag_down. intros H.
  destruct ev as [[ | | ] | | | i b | i]; simpl.
  - unfold start_backup. destruct (is_some _); simpl; exact H.
  - exact H.
  - unfold cancel_backup. destruct (current_backup _); simpl; exact H.
  - destruct (background_tasks p); simpl; exact H.
  - unfold _run_scheduled_backup. destruct (scheduler_engine p) as [e0 | ] eqn:E; simpl.
    + intros e He. inversion He. reflexivity.
    + rewrite E. intros e He. discriminate.
  - destruct i; simpl; [exact H | ].
    destruct (scheduler_engine p) as [e0 | ] eqn:E; simpl; [ | intros e He; discriminate].
    intros e He. inversion He. unfold publish.
    destruct (runs e0); simpl; apply H; reflexivity.
  - destruct i; simpl; [exact H | ].
    destruct (scheduler_engine p) as [e0 | ] eqn:E; simpl; [ | intros e He; discriminate].
    intros e He. inversion He. unfold end_run.
    destruct (runs e0); simpl; apply H; reflexivity.
Qed.

Lemma run_scheduler_flag_down (evs : list Event) : forall p,
  scheduler_flag_down p -> scheduler_flag_down (snd (run evs p)).
Proof.
  induction evs as [| ev evs IH]; intros p H; [exact H | ].
  rewrite run_cons. apply IH. apply step_scheduler_flag_down. exact H.
Qed.

(** Without a POST /backup/start nothing happens to the API engine. *)
Lemma step_api_engine_untouched (ev : Event) (p : Process) :
  is_start ev = false ->
  backup_engine p = new_engine -> background_tasks p = 0 ->
  backup_engine (snd (step ev p)) = new_engine /\ background_tasks (snd (step ev p)) = 0.
Proof.
  intros Hev He Hb.
  destruct ev as [[ | | ] | | | i b | i]; simpl; try discriminate; auto.
  - unfold cancel_backup. rewrite He. simpl. rewrite He. auto.
  - rewrite Hb. simpl. auto.
  - unfold _run_scheduled_backup. destruct (scheduler_engine p); simpl; auto.
  - destruct i; simpl; auto. rewrite He. auto.
  - destruct i; simpl; auto. rewrite He. auto.
Qed.

Lemma run_api_engine_untouched (evs : list Event) : forall p,
  forallb (fun ev => negb (is_start ev)) evs = true ->
  backup_engine p = new_engine -> background_tasks p = 0 ->
  backup_engine (snd (run evs p)) = new_engine.
Proof.
  induction evs as [| ev evs IH]; intros p Hall He Hb; [exact He | ].
  simpl in Hall. apply Bool.andb_true_iff in Hall. destruct Hall as [Hev Hall].
  apply Bool.negb_true_iff in Hev.
  rewrite run_cons.
  destruct (step_api_engine_untouched ev p Hev He Hb) as [He1 Hb1].
  apply IH; assumption.
Qed.

(** The runs of the API engine, when tasks begin first: a task that waits
    and a run in progress exclude each other, at most one of either is
    there, and a run in progress fills the slot. *)
Definition one_flight (p : Process) : Prop :=
  background_tasks p + runs (backup_engine p) <= 1 /\
  (runs (backup_engine p) = 1 -> is_some (current_backup (backup_engine p)) = true).

Lemma step_one_flight (ev : Event) (p : Process) :
  (is_start ev = true -> background_tasks p = 0) ->
  one_flight p -> one_flight (snd (step ev p)).
Proof.
  unfold one_flight. intros Hev (Hr & Hs).
  destruct ev as [[ | | ] | | | i b | i].
  - specialize (Hev eq_refl). simpl. unfold start_backup.
    destruct (is_some (current_backup (backup_engine p))) eqn:E; simpl.
    + split; [exact Hr | intros _; exact E].
    + assert (Hidle : runs (backup_engine p) = 0).
      { destruct (runs (backup_engine p)) as [| [| n]] eqn:En; [reflexivity | | lia].
        specialize (Hs eq_refl). congruence. }
      split; [lia | ]. intros H1. lia.
  - simpl. split; assumption.
  - simpl. unfold cancel_backup.
    destruct (current_backup (backup_engine p)) as [b | ] eqn:E; simpl.
    + split; [exact Hr | ]. intros _. reflexivity.
    + split; [exact Hr | ]. intros H1. rewrite E. exact (Hs H1).
  - simpl. destruct (background_tasks p) as [| n] eqn:Hb; simpl.
    + split; [lia | exact Hs].
    + split; [lia | intros _; reflexivity].
  - simpl. unfold _run_scheduled_backup. destruct (scheduler_engine p); simpl;
      split; assumption.
  - destruct i; simpl; [ | split; assumption].
    unfold publish. destruct (runs (backup_engine p)) as [| n] eqn:E; simpl;
      rewrite ?E; (split; [lia | ]); intros H1; rewrite ?E in H1;
      first [discriminate | reflexivity].
  - destruct i; simpl; [ | split; assumption].
    unfold end_run. destruct (runs (backup_engine p)) as [| n] eqn:E; simpl;
      rewrite ?E; (split; [lia | ]); intros H1; rewrite ?E in H1;
      first [discriminate | lia].
Qed.

Lemma run_one_flight (evs : list Event) : forall p,
  tasks_begin_first evs p = true -> one_flight p -> one_flight (snd (run evs p)).
Proof.
  induction evs as [| ev evs IH]; intros p Hp Hinv; [exact Hinv | ].
  simpl in Hp. apply Bool.andb_true_iff in Hp. destruct Hp as [Hev Hp].
  rewrite run_cons. apply IH; [exact Hp | ].
  apply step_one_flight; [ | exact Hinv].
  intros Hstart. rewrite Hstart in Hev. apply Nat.eqb_eq in Hev. exact Hev.
Qed.

(** The proviso holds of every sequence that a sequence under the proviso
    begins with. *)
Lemma tasks_begin_first_prefix (pre post : list Event) : forall p,
  tasks_begin_first (pre ++ post) p = true -> tasks_begin_first pre p = true.
Proof.
  induction pre as [| ev pre IH]; intros p H; [reflexivity | ].
  simpl in *. apply Bool.andb_true_iff in H. destruct H as [Hev H].
  rewrite Hev. simpl. apply IH. exact H.
Qed.

End SingleFlightFacts.

(** X9. A scheduled run cannot be reached through the API.  After any
    sequence of events the cancel flag of the scheduler's engine is down: no
    request sets it.  And as long as no POST /backup/start is served, the
    API engine stays as it was made, whatever the scheduler does: its slot
    is empty, so DELETE /backup/cancel is answered 404. *)
Theorem scheduled_run_is_out_of_reach
        (evs : list SingleFlight.Event) (backup_schedule_enabled : bool) :
  let p := snd (SingleFlight.run evs (SingleFlight.started backup_schedule_enabled)) in
  (forall e, SingleFlight.scheduler_engine p = Some e ->
             SingleFlight.cancel_requested e = false) /\
  (forallb (fun ev => negb (SingleFlightFacts.is_start ev)) evs = true ->
   SingleFlight.backup_engine p = SingleFlight.new_engine /\
   fst (SingleFlight.cancel_backup p) = 404).
Proof.
  intros p. split.
  - apply SingleFlightFacts.run_scheduler_flag_down.
    intros e Hsome. destruct backup_schedule_enabled; simpl in Hsome.
    + inversion Hsome. reflexivity.
    + discriminate.
  - intros Hall.
    assert (He : SingleFlight.backup_engine p = SingleFlight.new_engine).
    { apply SingleFlightFacts.run_api_engine_untouched; [exact Hall | | ];
        destruct backup_schedule_enabled; reflexivity. }
    split; [exact He | ].
    unfold SingleFlight.cancel_backup. rewrite He. reflexivity.
Qed.

(** A scheduled run is in progress; a cancel request is answered 404, and
    after a run has been started through the API and cancelled the flag of
    the scheduler's engine is still down. *)
Lemma scheduled_run_is_out_of_reach_witness :
  fst (SingleFlight.cancel_backup
         (snd (SingleFlight.run
                 [SingleFlight.CronFires; SingleFlight.Http SingleFlight.DeleteCancel]
                 (SingleFlight.started true)))) = 404 /\
  option_map SingleFlight.cancel_requested
             (SingleFlight.scheduler_engine
                (snd (SingleFlight.run
                        [SingleFlight.CronFires; SingleFlight.Http SingleFlight.PostStart;
                         SingleFlight.TaskBegins; SingleFlight.Http SingleFlight.DeleteCancel]
                        (SingleFlight.started true)))) = Some false.
Proof.
  split.
  - apply (scheduled_run_is_out_of_reach
             [SingleFlight.CronFires; SingleFlight.Http SingleFlight.DeleteCancel] true).
    reflexivity.
  - pose proof (proj1 (scheduled_run_is_out_of_reach
                         [SingleFlight.CronFires; SingleFlight.Http SingleFlight.PostStart;
                          SingleFlight.TaskBegins; SingleFlight.Http SingleFlight.DeleteCancel]
                         true)) as H.
    cbv zeta in H.
    destruct (SingleFlight.scheduler_engine _) as [e | ] eqn:E.
    + simpl. rewrite (H e eq_refl). reflexivity.
    + vm_compute in E. discriminate.
Defined.

(** X10. Among the runs started through POST /backup/start the slot is a
    lock, provided no such request is served while the background task of
    an accepted one has not begun: then at most one run is in progress on
    the API engine at any time, whatever else happens in the process
    (scheduled runs, progress, other requests). *)
Theorem api_runs_do_not_overlap
        (pre post : list SingleFlight.Event) (backup_schedule_enabled : bool) :
  SingleFlightFacts.tasks_begin_first
    (pre ++ post) (SingleFlight.started backup_schedule_enabled) = true ->
  SingleFlight.runs
    (SingleFlight.backup_engine
       (snd (SingleFlight.run pre (SingleFlight.started backup_schedule_enabled)))) <= 1.
Proof.
  intros Hp. apply SingleFlightFacts.tasks_begin_first_prefix in Hp.
  assert (H : SingleFlightFacts.one_flight
                (snd (SingleFlight.run pre (SingleFlight.started backup_schedule_enabled)))).
  { apply SingleFlightFacts.run_one_flight; [exact Hp | ].
    unfold SingleFlightFacts.one_flight.
    destruct backup_schedule_enabled; simpl; split; try lia; discriminate. }
  destruct H as [H _]. lia.
Qed.

(** A request is accepted; the scheduler fires and its run publishes
    progress before the task of the request begins; a second request,
    served while the first run is in progress, is answered 409, and one run
    is in progress on the API engine. *)
Lemma api_runs_do_not_overlap_witness :
  let trace := [SingleFlight.Http SingleFlight.PostStart; SingleFlight.CronFires;
                SingleFlight.Http SingleFlight.GetStatus; SingleFlight.TaskBegins;
                SingleFlight.Http SingleFlight.PostStart] in
  fst (SingleFlight.run trace (SingleFlight.started true)) = [200; 200; 409] /\
  SingleFlight.runs
    (SingleFlight.backup_engine (snd (SingleFlight.run trace (SingleFlight.started true))))
  <= 1.
Proof.
  split; [reflexivity | ].
  apply (api_runs_do_not_overlap
           [SingleFlight.Http SingleFlight.PostStart; SingleFlight.CronFires;
            SingleFlight.Http SingleFlight.GetStatus; SingleFlight.TaskBegins;
            SingleFlight.Http SingleFlight.PostStart] [] true).
  reflexivity.
Defined.

(** ** What a successful subvolume leaves behind ([_backup_snapshot]) *)

Section Recorded.
Variable env : Env.
Variable settings : Settings.t.

(** A size check that matched has seen the file with that size. *)
Lemma verify_remote_file_true p n w w' :
  verify_remote_file env p n w = (Return true, w') ->
  remote w' = remote w /\
  exists f, Remote.lookup (remote w) p = Some f /\ RemoteFile.size f = n.
Proof.
  unfold verify_remote_file, check_remote_file. intros E.
  step_Return E.
  match goal with Hc : bind (execute_command env _) _ _ = _ |- _ => rename Hc into Hc0 end.
  step_Return Hc0.
  match goal with Hx : execute_command env _ _ = _ |- _ =>
    apply execute_command_inv in Hx;
    destruct Hx as (sr' & Hsr & _ & _ & Hcase); inversion Hsr; subst sr'; clear Hsr end.
  destruct Hcase as [(_ & Hrun & _) | (_ & Hfail & _ & _)].
  - simpl in Hrun.
    destruct (Remote.lookup (remote w) p) as [f | ] eqn:Hlook;
      injection Hrun as Hs Ho Hfs; rewrite <- Hs, <- Ho in Hc0;
      apply ret_inv in Hc0; destruct Hc0 as [Ho' ->]; inversion Ho'; subst; clear Ho';
      apply ret_inv in E; destruct E as [E ->]; inversion E.
    split; [congruence | ]. exists f. split; [reflexivity | ]. apply Z.eqb_eq. auto.
  - rewrite Hfail in Hc0. apply ret_inv in Hc0. destruct Hc0 as [Ho' ->].
    inversion Ho'; subst; clear Ho'. apply ret_inv in E. destruct E as [E _]. discriminate.
Qed.

(** A send that reports success reports the size of the file that is on
    the remote host. *)
Lemma _send_success msg rf w res w' :
  _send env msg rf w = (Return res, w') ->
  SubResult.success res = true ->
  exists n f,
    SubResult.size res = Some n /\
    Remote.lookup (remote w') rf = Some f /\ RemoteFile.size f = n.
Proof.
  unfold _send. intros H Hs.
  step_Return H.
  match type of H with (match ?c with _ => _ end) _ = _ => destruct c as [file_size | ] end.
  2: { apply raise_inv in H. destruct H. discriminate. }
  step_Return H.
  match type of H with (if ?c then _ else _) _ = _ => destruct c eqn:Htr end.
  2: { apply ret_inv in H. destruct H as [H _]. inversion H; subst. congruence. }
  step_Return H. apply ret_inv in H. destruct H as [H ->]. inversion H; subst; clear H.
  simpl in Hs. subst.
  match goal with Hv : verify_remote_file env _ _ _ = _ |- _ =>
    apply verify_remote_file_true in Hv; destruct Hv as [Hr (f & Hf & Hsz)] end.
  exists file_size, f. simpl. rewrite Hr. auto.
Qed.

(** The row that a successful [insert_sent] appends. *)
Lemma insert_sent_row p rp t sz k parent w w' :
  insert_sent env p rp t sz k parent w = (Return tt, w') ->
  remote w' = remote w /\
  sent_snapshots w'
  = (sent_snapshots w
       ++ [SentSnapshot.mk (Ledger.next_id (sent_snapshots w)) p rp t sz k parent])%list.
Proof.
  unfold insert_sent, db_await, bind, await, get, modify, emit, ret, raise. simpl.
  destruct (db_error env (tick w));
    destruct (cancel_arrives env (tick w) && is_some (current_backup w)); simpl;
    try discriminate;
    destruct (Ledger.select_id (sent_snapshots w) p); simpl; try discriminate;
    intros H; inversion H; subst; simpl; auto.
Qed.

(** The common tail of the two backups, when it reports success. *)
Lemma record_and_report_success path rf kind parent (result report : SubResult.t) w res w' :
  SubResult.success report = SubResult.success result ->
  ((if SubResult.success result
    then size <- size_of result ;; _record_sent_snapshot env path rf size kind parent
    else ret tt) ;;
   ret report) w = (Return res, w') ->
  SubResult.success res = true ->
  res = report /\ remote w' = remote w /\ SubResult.success result = true /\
  exists n t,
    SubResult.size result = Some n /\
    sent_snapshots w'
    = (sent_snapshots w
         ++ [SentSnapshot.mk (Ledger.next_id (sent_snapshots w)) path rf t n
                             (BackupType_value kind) parent])%list.
Proof.
  intros Hrep H Hs.
  step_Return H. apply ret_inv in H. destruct H as [H ->]. inversion H; subst res; clear H.
  rewrite Hrep in Hs. split; [reflexivity | ].
  match goal with Hr : (if _ then _ else _) _ = _ |- _ => rewrite Hs in Hr; rename Hr into Hrec end.
  step_Return Hrec.
  match goal with Hz : size_of _ _ = _ |- _ => unfold size_of in Hz; rename Hz into Hsize end.
  destruct (SubResult.size result) as [n | ] eqn:Hn.
  2: { apply raise_inv in Hsize. destruct Hsize. discriminate. }
  apply ret_inv in Hsize. destruct Hsize as [Hsize ->]. inversion Hsize; subst; clear Hsize.
  unfold _record_sent_snapshot in Hrec. step_Return Hrec.
  match goal with Hu : datetime_utcnow env _ = _ |- _ =>
    apply datetime_utcnow_inv in Hu; destruct Hu as [Hu ->]; inversion Hu; subst; clear Hu end.
  match goal with u : unit |- _ => destruct u end.
  apply insert_sent_row in Hrec. destruct Hrec as [Hr Hl]. simpl in Hr, Hl.
  split; [exact Hr | ]. split; [exact Hs | ]. eauto.
Qed.

(** A body of [_backup_snapshot] that returned has uploaded, and went on
    from there. *)
Lemma _perform_full_backup_uploaded s w res w' :
  _perform_full_backup env settings s w = (Return res, w') ->
  exists rf result w1,
    full_upload env settings s w = (Return (rf, result), w1) /\
    ((if SubResult.success result then
        size <- size_of result ;;
        _record_sent_snapshot env (Snapshot.path s) rf size FULL None
      else ret tt) ;;
     ret (SubResult.mk (SubResult.success result) (SubResult.error result)
                       (SubResult.size result) (SubResult.verified result)
                       (Some "full") (Some rf) (Some (Snapshot.subvolume s)) None None)) w1
    = (Return res, w').
Proof.
  unfold full_upload, _perform_full_backup. intros H.
  unfold bind at 1. unfold bind at 1 in H.
  destruct (datetime_now env w) as [[d | e] wa]; [ | discriminate].
  unfold bind at 1. unfold bind at 1 in H.
  destruct (datetime_now env wa) as [[d' | e] wb]; [ | discriminate].
  cbv zeta in *.
  unfold bind at 1. unfold bind at 1 in H.
  destruct (create_remote_directory env _ wb) as [[u | e] wc]; [ | discriminate].
  unfold bind at 1. unfold bind at 1 in H.
  destruct (_send_snapshot env _ _ wc) as [[result | e] wd]; [ | discriminate].
  eexists _, result, wd. split; [reflexivity | exact H].
Qed.

Lemma _perform_incremental_backup_uploaded s p w res w' :
  _perform_incremental_backup env settings s p w = (Return res, w') ->
  exists rf result w1,
    incremental_upload env settings s p w = (Return (rf, result), w1) /\
    ((if SubResult.success result then
        size <- size_of result ;;
        _record_sent_snapshot env (Snapshot.path s) rf size INCREMENTAL (Some p)
      else ret tt) ;;
     ret (SubResult.mk (SubResult.success result) (SubResult.error result)
                       (SubResult.size result) (SubResult.verified result)
                       (Some "incremental") (Some rf) (Some (Snapshot.subvolume s)) None
                       (Some p))) w1
    = (Return res, w').
Proof.
  unfold incremental_upload, _perform_incremental_backup. intros H.
  unfold bind at 1. unfold bind at 1 in H.
  destruct (datetime_now env w) as [[d | e] wa]; [ | discriminate].
  unfold bind at 1. unfold bind at 1 in H.
  destruct (datetime_now env wa) as [[d' | e] wb]; [ | discriminate].
  cbv zeta in *.
  unfold bind at 1. unfold bind at 1 in H.
  destruct (create_remote_directory env _ wb) as [[u | e] wc]; [ | discriminate].
  unfold bind at 1. unfold bind at 1 in H.
  destruct (_send_incremental_snapshot env _ _ _ wc) as [[result | e] wd]; [ | discriminate].
  eexists _, result, wd. split; [reflexivity | exact H].
Qed.

(** An upload that reports success reports the size of its file. *)
Lemma full_upload_success s w rf result w1 :
  full_upload env settings s w = (Return (rf, result), w1) ->
  SubResult.success result = true ->
  sent_snapshots w1 = sent_snapshots w /\
  exists n f, SubResult.size result = Some n /\
              Remote.lookup (remote w1) rf = Some f /\ RemoteFile.size f = n.
Proof.
  intros H Hs. pose proof (full_upload_inv _ _ _ _ _ _ _ H) as [Hl _].
  split; [exact Hl | ].
  unfold full_upload, _send_snapshot in H. repeat step_Return H.
  apply ret_inv in H. destruct H as [H ->]. inversion H; subst; clear H.
  eapply _send_success; eauto.
Qed.

Lemma incremental_upload_success s p w rf result w1 :
  incremental_upload env settings s p w = (Return (rf, result), w1) ->
  SubResult.success result = true ->
  sent_snapshots w1 = sent_snapshots w /\
  exists n f, SubResult.size result = Some n /\
              Remote.lookup (remote w1) rf = Some f /\ RemoteFile.size f = n.
Proof.
  intros H Hs. pose proof (incremental_upload_inv _ _ _ _ _ _ _ _ H) as [Hl _].
  split; [exact Hl | ].
  unfold incremental_upload, _send_incremental_snapshot in H. repeat step_Return H.
  apply ret_inv in H. destruct H as [H ->]. inversion H; subst; clear H.
  eapply _send_success; eauto.
Qed.

(** What a successful result says about the remote host and the ledger. *)
Definition recorded (s : Snapshot.t) (w : World) (res : SubResult.t) (w' : World) : Prop :=
  exists rf n f row,
    SubResult.remote_path res = Some rf /\
    SubResult.size res = Some n /\
    Remote.lookup (remote w') rf = Some f /\ RemoteFile.size f = n /\
    sent_snapshots w' = (sent_snapshots w ++ [row])%list /\
    SentSnapshot.snapshot_path row = Snapshot.path s /\
    SentSnapshot.remote_path row = rf /\
    SentSnapshot.size_bytes row = n /\
    SubResult.backup_type res = Some (SentSnapshot.backup_type row) /\
    SubResult.parent res = SentSnapshot.parent_snapshot row.

Lemma _perform_full_backup_recorded s w res w' :
  _perform_full_backup env settings s w = (Return res, w') ->
  SubResult.success res = true ->
  recorded s w res w'.
Proof.
  intros H Hs. apply _perform_full_backup_uploaded in H.
  destruct H as (rf & result & w1 & Hup & H).
  apply record_and_report_success in H; [ | reflexivity | exact Hs].
  destruct H as (-> & Hr & Hres & n & t & Hn & Hl).
  apply full_upload_success in Hup; [ | exact Hres].
  destruct Hup as (Hl1 & n' & f & Hn' & Hf & Hsz).
  assert (n' = n) by congruence. subst n'.
  exists rf, n, f. eexists. simpl.
  rewrite Hr, Hl, Hl1. repeat (split; [first [reflexivity | assumption] | ]). reflexivity.
Qed.

Lemma _perform_incremental_backup_recorded s p w res w' :
  _perform_incremental_backup env settings s p w = (Return res, w') ->
  SubResult.success res = true ->
  recorded s w res w'.
Proof.
  intros H Hs. apply _perform_incremental_backup_uploaded in H.
  destruct H as (rf & result & w1 & Hup & H).
  apply record_and_report_success in H; [ | reflexivity | exact Hs].
  destruct H as (-> & Hr & Hres & n & t & Hn & Hl).
  apply incremental_upload_success in Hup; [ | exact Hres].
  destruct Hup as (Hl1 & n' & f & Hn' & Hf & Hsz).
  assert (n' = n) by congruence. subst n'.
  exists rf, n, f. eexists. simpl.
  rewrite Hr, Hl, Hl1. repeat (split; [first [reflexivity | assumption] | ]). reflexivity.
Qed.

Lemma _backup_snapshot_recorded s k w res w' :
  _backup_snapshot env settings s k w = (Return res, w') ->
  SubResult.success res = true ->
  recorded s w res w'.
Proof.
  unfold _backup_snapshot. intros H Hs.
  apply try_except_inv in H. destruct H as [(a & H & Ha) | (e & w1 & _ & H)].
  2: { apply ret_inv in H. destruct H as [H _]. inversion H; subst. discriminate. }
  inversion Ha; subst a; clear Ha.
  destruct k.
  - eapply _perform_full_backup_recorded; eauto.
  - step_Return H.
    match goal with Hp : find_parent_snapshot _ _ _ _ = _ |- _ =>
      frame_of Hp sent_snapshots; rename Hkept into Hl1 end.
    step_Return H.
    match goal with Hu : usable_parent _ _ _ = (_, ?wb) |- _ =>
      assert (Hl2 : sent_snapshots wb = sent_snapshots w)
        by (eapply kept_sent_snapshots in Hu;
            [congruence | apply usable_parent_kept; reflexivity]) end.
    assert (Hgo : forall w2, recorded s w2 res w' -> sent_snapshots w2 = sent_snapshots w ->
                             recorded s w res w').
    { intros w2 (rf & n & f & row & Hrec) Hw2. exists rf, n, f, row.
      rewrite <- Hw2. exact Hrec. }
    match type of H with
    | (match ?p with _ => _ end) _ = _ => destruct p as [p0 | ]
    end.
    + match type of H with
      | (if ?c then _ else _) _ = _ => destruct c
      end.
      * eapply Hgo; [eapply _perform_incremental_backup_recorded; eauto | exact Hl2].
      * eapply Hgo; [eapply _perform_full_backup_recorded; eauto | exact Hl2].
    + eapply Hgo; [eapply _perform_full_backup_recorded; eauto | exact Hl2].
Qed.

End Recorded.


(** X11. When [_backup_snapshot] reports success, the result names a
    remote file and a size; that file is on the remote host with that size;
    and the ledger has gained one row, the last, with the path of the
    snapshot, the remote path, the size, the kind and the parent that the
    result reports. *)
Theorem successful_result_is_recorded
        (env : Env) (settings : Settings.t) (s : Snapshot.t) (k : BackupType)
        (w : World) (res : SubResult.t) (w' : World) :
  _backup_snapshot env settings s k w = (Return res, w') ->
  SubResult.success res = true ->
  exists rf n f row,
    SubResult.remote_path res = Some rf /\
    SubResult.size res = Some n /\
    Remote.lookup (remote w') rf = Some f /\ RemoteFile.size f = n /\
    sent_snapshots w' = (sent_snapshots w ++ [row])%list /\
    SentSnapshot.snapshot_path row = Snapshot.path s /\
    SentSnapshot.remote_path row = rf /\
    SentSnapshot.size_bytes row = n /\
    SubResult.backup_type res = Some (SentSnapshot.backup_type row) /\
    SubResult.parent res = SentSnapshot.parent_snapshot row.
Proof.
  intros H Hs. exact (_backup_snapshot_recorded env settings s k w res w' H Hs).
Qed.

(** The full backup of "@" on an engine at rest, with an empty ledger. *)
Definition first_upload : result SubResult.t * World :=
  _backup_snapshot (Scenario.fair Scenario.june15) Scenario.settings
                   (Snapshot.mk "@" "/.snapshots/@_20240615_020000" "20240615_020000" "/host")
                   FULL (Scenario.at_rest [] [] []).

Definition first_upload_result : SubResult.t :=
  Eval vm_compute in
    match fst first_upload with
    | Return r => r
    | Raise _ => only_success false
    end.

Definition first_upload_world : World := Eval vm_compute in snd first_upload.

Lemma successful_result_is_recorded_witness :
  exists rf n f row,
    SubResult.remote_path first_upload_result = Some rf /\
    SubResult.size first_upload_result = Some n /\
    Remote.lookup (remote first_upload_world) rf = Some f /\ RemoteFile.size f = n /\
    sent_snapshots first_upload_world = ([] ++ [row])%list /\
    SentSnapshot.snapshot_path row = "/.snapshots/@_20240615_020000" /\
    SentSnapshot.remote_path row = rf /\
    SentSnapshot.size_bytes row = n /\
    SubResult.backup_type first_upload_result = Some (SentSnapshot.backup_type row) /\
    SubResult.parent first_upload_result = SentSnapshot.parent_snapshot row.
Proof.
  apply (successful_result_is_recorded
           (Scenario.fair Scenario.june15) Scenario.settings
           (Snapshot.mk "@" "/.snapshots/@_20240615_020000" "20240615_020000" "/host")
           FULL (Scenario.at_rest [] [] []) first_upload_result first_upload_world).
  - vm_compute. reflexivity.
  - reflexivity.
Defined.

(** ** The snapshots of a run ([create_snapshots]) *)

Section Creating.
Variable env : Env.
Variable settings : Settings.t.

Lemma _create_snapshot_inv n m ts w r w' :
  _create_snapshot env settings n m ts w = (r, w') ->
  let old := match snapshot_entries w with Some l => l | None => [] end in
  let path := Settings.snapshot_dir settings ++ "/" ++ n ++ "_" ++ ts in
  (r = Return None /\ snapshot_entries w' = snapshot_entries w) \/
  (exists e,
     r = Return (Some (Snapshot.mk n path ts m)) /\
     DirEntry.name e = n ++ "_" ++ ts /\ DirEntry.is_dir e = true /\
     snapshot_entries w' = Some (old ++ [e])%list /\
     has_entry settings old path = false).
Proof.
  unfold _create_snapshot, bind, await, get, modify, ret. simpl.
  destruct (cancel_arrives env (tick w) && is_some (current_backup w)); simpl;
    destruct (btrfs_snapshot_ok env (tick w)); simpl;
    try (intros H; inversion H; subst; clear H; left; split; reflexivity);
    destruct (has_entry settings
                        match snapshot_entries w with Some l => l | None => [] end _) eqn:Hhas;
    simpl; intros H; inversion H; subst; clear H;
    try (left; split; reflexivity);
    right;
    exists (DirEntry.mk (n ++ "_" ++ ts) true (DateTime.timestamp (now env (tick w))));
    repeat (split; [reflexivity | ]); first [reflexivity | exact Hhas].
Qed.

Lemma has_entry_false (old : list DirEntry.t) (p : string) :
  has_entry settings old p = false ->
  forall x, In x old ->
            String.eqb (entry_path settings x) p = false /\
            String.eqb (created_path settings x) p = false.
Proof.
  unfold has_entry. intros H x Hx.
  assert (Hn : named settings old p x = false).
  { destruct (named settings old p x) eqn:E; [ | reflexivity].
    assert (existsb (named settings old p) old = true)
      by (apply existsb_exists; eauto).
    congruence. }
  unfold named in Hn.
  destruct (existsb (fun x0 => String.eqb (entry_path settings x0) p) old) eqn:Hex.
  - apply existsb_exists in Hex. destruct Hex as (y & Hy & Hyp).
    assert (existsb (named settings old p) old = true).
    { apply existsb_exists. exists y. split; [exact Hy | ]. unfold named.
      assert (Hex : existsb (fun x0 => String.eqb (entry_path settings x0) p) old = true)
        by (apply existsb_exists; eauto).
      rewrite Hex. exact Hyp. }
    congruence.
  - split; [ | exact Hn].
    destruct (String.eqb (entry_path settings x) p) eqn:E; [ | reflexivity].
    assert (existsb (fun x0 => String.eqb (entry_path settings x0) p) old = true)
      by (apply existsb_exists; eauto).
    congruence.
Qed.

(** Removing the path under which an entry was just made, when the path
    named no entry before, gives the directory back. *)
Lemma filter_added_entry (old : list DirEntry.t) (e : DirEntry.t) (p : string) :
  has_entry settings old p = false -> created_path settings e = p ->
  filter (fun x => negb (named settings (old ++ [e]) p x)) (old ++ [e])%list = old.
Proof.
  intros Hold He.
  pose proof (has_entry_false old p Hold) as Hno.
  assert (Hfilter : forall g : DirEntry.t -> bool,
             (forall x, In x old -> g x = false) -> g e = true ->
             filter (fun x => negb (g x)) (old ++ [e])%list = old).
  { intros g Hg Hge. rewrite filter_app. simpl. rewrite Hge. simpl. rewrite app_nil_r.
    clear - Hg. induction old as [| a old IH]; simpl; [reflexivity | ].
    rewrite Hg by (left; reflexivity). simpl. f_equal.
    apply IH. intros x Hx. apply Hg. right. exact Hx. }
  assert (Hex : existsb (fun x => String.eqb (entry_path settings x) p) old = false).
  { destruct (existsb (fun x => String.eqb (entry_path settings x) p) old) eqn:E;
      [ | reflexivity].
    apply existsb_exists in E. destruct E as (y & Hy & Hyp).
    destruct (Hno y Hy) as [Hy1 _]. congruence. }
  apply Hfilter.
  - intros x Hx. destruct (Hno x Hx) as [H1 H2]. unfold named.
    destruct (existsb (fun x0 => String.eqb (entry_path settings x0) p) (old ++ [e]));
      assumption.
  - unfold named. rewrite existsb_app, Hex. simpl. rewrite Bool.orb_false_r.
    destruct (String.eqb (entry_path settings e) p) eqn:E; [reflexivity | ].
    rewrite He. apply String.eqb_refl.
Qed.

End Creating.

(** X12. [create_snapshots] returns one snapshot of "@" and one of
    "@home", in this order, with one timestamp, and then the snapshot
    directory has gained exactly these two directories, after the entries
    it had.  Otherwise it raises for the subvolume that failed; the
    directory is then as it was, except that the snapshot of "@" stays when
    "@home" failed and the deletion of the snapshot of "@" failed too. *)
Theorem create_snapshots_all_or_nothing
        (env : Env) (settings : Settings.t) (w : World) (old : list DirEntry.t) :
  snapshot_entries w = Some old ->
  let ts := DateTime.Ymd_HMS (now env (tick w)) in
  let dir := Settings.snapshot_dir settings in
  match create_snapshots env settings w with
  | (Return l, w') =>
      l = [Snapshot.mk "@" (dir ++ "/" ++ "@" ++ "_" ++ ts) ts (Settings.host_root settings);
           Snapshot.mk "@home" (dir ++ "/" ++ "@home" ++ "_" ++ ts) ts
                       (Settings.host_home settings)] /\
      exists e1 e2,
        snapshot_entries w' = Some (old ++ [e1; e2])%list /\
        DirEntry.name e1 = "@" ++ "_" ++ ts /\ DirEntry.is_dir e1 = true /\
        DirEntry.name e2 = "@home" ++ "_" ++ ts /\ DirEntry.is_dir e2 = true
  | (Raise e, w') =>
      (e = "Failed to create snapshot for @" /\ snapshot_entries w' = Some old) \/
      (e = "Failed to create snapshot for @home" /\
       (snapshot_entries w' = Some old \/
        exists e1 t,
          snapshot_entries w' = Some (old ++ [e1])%list /\
          DirEntry.name e1 = "@" ++ "_" ++ ts /\ btrfs_delete_ok env t = false))
  end.
Proof.
  intros Hold. cbv zeta.
  destruct (create_snapshots env settings w) as [r w'] eqn:E.
  unfold create_snapshots in E.
  apply bind_inv in E. destruct E as [(d & w1 & Hnow & E) | (e & Hnow & _)].
  2: { apply datetime_now_inv in Hnow. destruct Hnow. discriminate. }
  apply datetime_now_inv in Hnow. destruct Hnow as [Hd ->].
  inversion Hd; subst d; clear Hd.
  unfold subvolumes in E. simpl in E.
  apply bind_inv in E. destruct E as [(s1 & w2 & Hc1 & E) | (e & Hc1 & _)].
  2: { apply _create_snapshot_inv in Hc1. cbv zeta in Hc1.
       destruct Hc1 as [[Hr _] | (? & Hr & _)]; discriminate. }
  apply _create_snapshot_inv in Hc1. cbv zeta in Hc1. simpl in Hc1. rewrite Hold in Hc1.
  destruct Hc1 as [[Hr He1] | (e1 & Hr & Hn1 & Hdir1 & He1 & Hnew1)];
    inversion Hr; subst s1; clear Hr.
  - (* "@" failed *)
    simpl in E. unfold bind, ret, raise in E. inversion E; subst; clear E.
    left. split; [reflexivity | exact He1].
  - simpl in E.
    apply bind_inv in E. destruct E as [(s2 & w3 & Hc2 & E) | (e & Hc2 & _)].
    2: { apply _create_snapshot_inv in Hc2. cbv zeta in Hc2.
         destruct Hc2 as [[Hr _] | (? & Hr & _)]; discriminate. }
    apply _create_snapshot_inv in Hc2. cbv zeta in Hc2. rewrite He1 in Hc2.
    destruct Hc2 as [[Hr He2] | (e2 & Hr & Hn2 & Hdir2 & He2 & Hnew2)];
      inversion Hr; subst s2; clear Hr.
    + (* "@home" failed: the snapshot of "@" is deleted *)
      simpl in E.
      apply bind_inv in E. destruct E as [(u & w4 & Hdel & E) | (e & Hdel & _)].
      2: { apply bind_inv in Hdel. destruct Hdel as [(b & w5 & Hd1 & Hdel) | (e' & Hd1 & _)].
           - apply ret_inv in Hdel. destruct Hdel. discriminate.
           - apply _delete_snapshot_inv in Hd1. destruct Hd1 as (? & ? & _). discriminate. }
      apply raise_inv in E. destruct E as [-> ->].
      apply bind_inv in Hdel. destruct Hdel as [(b & w5 & Hd1 & Hdel) | (e' & _ & He')];
        [ | discriminate].
      apply ret_inv in Hdel. destruct Hdel as [_ ->].
      right. split; [reflexivity | ].
      assert (Hcases : snapshot_entries w5 = Some old \/
                       (snapshot_entries w5 = Some (old ++ [e1])%list /\
                        btrfs_delete_ok env (tick w3) = false)).
      { revert Hd1. unfold _delete_snapshot, bind, await, modify, ret. simpl.
        destruct (btrfs_delete_ok env (tick w3));
          destruct (cancel_arrives env (tick w3) && is_some (current_backup w3)); simpl;
          intros H; inversion H; subst; clear H; simpl;
          rewrite ?He2, ?He1; simpl;
          try (right; split; reflexivity);
          (left; f_equal; apply filter_added_entry;
           [exact Hnew1 | unfold created_path; rewrite Hn1; reflexivity]). }
      destruct Hcases as [Hsame | [Hleft Hfail]]; [left; exact Hsame | ].
      right. exists e1, (tick w3). auto.
    + simpl in E. apply ret_inv in E. destruct E as [-> ->].
      split; [reflexivity | ].
      exists e1, e2. rewrite He2, <- app_assoc. simpl. auto.
Qed.

Lemma create_snapshots_all_or_nothing_witness :
  map Snapshot.path
      (match fst (create_snapshots (Scenario.fair Scenario.june15) Scenario.settings
                                   (Scenario.at_rest [] [] [Scenario.june1_snapshot])) with
       | Return l => l
       | Raise _ => []
       end)
  = ["/.snapshots/@_20240615_020000"; "/.snapshots/@home_20240615_020000"].
Proof.
  pose proof (create_snapshots_all_or_nothing
                (Scenario.fair Scenario.june15) Scenario.settings
                (Scenario.at_rest [] [] [Scenario.june1_snapshot])
                [Scenario.june1_snapshot] eq_refl) as H.
  cbv zeta in H.
  destruct (create_snapshots (Scenario.fair Scenario.june15) Scenario.settings
                             (Scenario.at_rest [] [] [Scenario.june1_snapshot]))
    as [[l | e] w'] eqn:E.
  - destruct H as [-> _]. reflexivity.
  - vm_compute in E. discriminate.
Defined.

(** ** One row for one snapshot ([_record_sent_snapshot], [_is_snapshot_sent]) *)

Lemma select_id_app_row (l : Ledger.table) (row : SentSnapshot.t) (p : string) :
  SentSnapshot.snapshot_path row = p -> Ledger.select_id (l ++ [row])%list p <> None.
Proof.
  intros Hp. unfold Ledger.select_id. rewrite filter_app. simpl.
  rewrite Hp, String.eqb_refl.
  destruct (filter _ l); simpl; discriminate.
Qed.

(** X13. A snapshot path is recorded at most once.  When
    [_record_sent_snapshot] returns, the path was not in the ledger before;
    afterwards [_is_snapshot_sent] answers yes whenever it answers, and
    recording the same path again, with whatever remote path, size, kind
    and parent, raises and leaves the ledger as it is. *)
Theorem a_snapshot_is_recorded_once
        (env : Env) (p remote_path : string) (size : Z) (k : BackupType)
        (parent : option string) (w w1 : World) :
  _record_sent_snapshot env p remote_path size k parent w = (Return tt, w1) ->
  Ledger.select_id (sent_snapshots w) p = None /\
  (forall b w2, _is_snapshot_sent env p w1 = (Return b, w2) -> b = true) /\
  (forall remote_path' size' k' parent' r w2,
     _record_sent_snapshot env p remote_path' size' k' parent' w1 = (r, w2) ->
     exists e, r = Raise e /\ sent_snapshots w2 = sent_snapshots w1).
Proof.
  intros H. apply _record_sent_snapshot_inv in H.
  destruct H as [_ [(_ & Hnone & row & Hl & Hp & _) | (e & He & _)]]; [ | discriminate].
  assert (Hsome : Ledger.select_id (sent_snapshots w1) p <> None).
  { rewrite Hl. apply select_id_app_row. exact Hp. }
  split; [exact Hnone | ]. split.
  - intros b w2 Hq. unfold _is_snapshot_sent in Hq. step_Return Hq.
    match goal with Hy : query_sent_id env _ _ = _ |- _ =>
      apply query_sent_id_inv in Hy; destruct Hy as [_ Hx]; specialize (Hx _ eq_refl) end.
    apply ret_inv in Hq. destruct Hq as [Hq _]. rewrite Hx in Hq.
    inversion Hq as [Hb].
    destruct (Ledger.select_id (sent_snapshots w1) p); [reflexivity | contradiction].
  - intros rp' sz' k' parent' r w2 H2. apply _record_sent_snapshot_inv in H2.
    destruct H2 as [_ [(_ & Hnone2 & _) | (e & He & Hsame)]]; [contradiction | eauto].
Qed.

Lemma a_snapshot_is_recorded_once_witness :
  Ledger.select_id (sent_snapshots (Scenario.at_rest [] [] []))
                   "/.snapshots/@_20240615_020000" = None.
Proof.
  refine (proj1 (a_snapshot_is_recorded_once
                   (Scenario.fair Scenario.june15) "/.snapshots/@_20240615_020000"
                   "/mnt/user/backups/petalbyte-client/202406/full/@_20240615_full.btrfs.gpg"
                   4096 FULL None (Scenario.at_rest [] [] []) _ _)).
  vm_compute. reflexivity.
Defined.

(** ** The size that a run reports ([perform_backup]) *)

(** The sizes of the results that succeeded, added up. *)
Definition sent_bytes (results : list (string * SubResult.t)) : Z :=
  fold_right
    (fun kv acc =>
       ((if SubResult.success (snd kv)
         then match SubResult.size (snd kv) with Some n => n | None => 0 end
         else 0) + acc)%Z)
    0%Z results.

Lemma sent_bytes_app (a b : list (string * SubResult.t)) :
  sent_bytes (a ++ b)%list = (sent_bytes a + sent_bytes b)%Z.
Proof. induction a as [| kv a IH]; simpl; [reflexivity | rewrite IH; lia]. Qed.

(** A new key goes to the end of the dictionary. *)
Lemma dict_set_fresh (d : list (string * SubResult.t)) (k : string) (v : SubResult.t) :
  ~ In k (map fst d) -> dict_set d k v = (d ++ [(k, v)])%list.
Proof.
  induction d as [| [k0 v0] d IH]; simpl; intros H; [reflexivity | ].
  destruct (String.eqb k0 k) eqn:E.
  - apply String.eqb_eq in E. exfalso. apply H. left. exact E.
  - rewrite IH; [reflexivity | ]. intros Hin. apply H. right. exact Hin.
Qed.

Section Totals.
Variable env : Env.
Variable settings : Settings.t.

(** The loop adds one result for each snapshot, in order, and adds up the
    sizes of those that succeeded. *)
Lemma backup_loop_total snapshots : forall i len k total acc w total' results w',
  backup_loop env settings snapshots i len k total acc w = (Return (total', results), w') ->
  NoDup (map Snapshot.subvolume snapshots) ->
  (forall s, In s snapshots -> ~ In (Snapshot.subvolume s) (map fst acc)) ->
  exists new,
    results = (acc ++ new)%list /\
    map fst new = map Snapshot.subvolume snapshots /\
    total' = (total + sent_bytes new)%Z.
Proof.
  induction snapshots as [| s rest IH]; intros i len k total acc w total' results w' H Hnd Hfresh;
    simpl in H.
  - apply ret_inv in H. destruct H as [H _]. inversion H; subst.
    exists []. rewrite app_nil_r. simpl. split; [reflexivity | ]. split; [reflexivity | lia].
  - step_Return H. step_Return H. step_Return H.
    match goal with
    | Hb : _backup_snapshot env settings s k _ = (Return ?r, _) |- _ => set (res := r) in *
    end.
    step_Return H.
    rewrite (dict_set_fresh acc (Snapshot.subvolume s) res) in H
      by (apply Hfresh; left; reflexivity).
    inversion Hnd as [| ? ? Hnotin Hnd']; subst.
    apply IH in H; [ | exact Hnd' | ].
    + destruct H as (new & -> & Hkeys & ->).
      exists ((Snapshot.subvolume s, res) :: new). rewrite <- app_assoc. simpl.
      split; [reflexivity | ]. split; [rewrite Hkeys; reflexivity | ].
      match goal with
      | Ht : (if SubResult.success res then _ else _) _ = (Return ?t, _) |- _ =>
          destruct (SubResult.success res);
          [ apply ret_inv in Ht; destruct Ht as [Ht _]; inversion Ht; subst; lia
          | step_Return Ht; apply ret_inv in Ht; destruct Ht as [Ht _]; inversion Ht; subst; lia ]
      end.
    + intros s' Hs'. rewrite map_app. simpl. intros Hin. apply in_app_or in Hin.
      destruct Hin as [Hin | [Heq | []]].
      * eapply Hfresh; [right; exact Hs' | exact Hin].
      * apply Hnotin. rewrite Heq. apply in_map. exact Hs'.
Qed.

Lemma perform_backup_body_total backup_type force_full w u w' :
  perform_backup_body env settings backup_type force_full w = (Return u, w') ->
  BackupResult.size_bytes (run_result w')
  = Some (sent_bytes (BackupResult.subvolumes (run_result w'))).
Proof.
  unfold perform_backup_body. intros H.
  repeat step_Return H.
  match goal with
  | Hs : create_snapshots _ _ _ = _, Hl : backup_loop _ _ _ _ _ _ _ _ _ = (Return ?p, _) |- _ =>
      destruct p as [total_size subvolume_results];
      apply create_snapshots_names in Hs;
      apply backup_loop_total in Hl;
      [ destruct Hl as (new & Hres & _ & Htotal) | rewrite Hs | intros ? _ [] ]
  end.
  2: { repeat constructor; simpl; intuition discriminate. }
  simpl in Hres. subst new.
  repeat step_Return H.
  frame_of H run_result.
  match goal with
  | Ht : set_totals _ _ _ = _, Hs : set_status _ _ = _ |- _ =>
      unfold set_totals in Ht; unfold set_status in Hs;
      apply modify_inv in Ht; destruct Ht as [_ Ht];
      apply modify_inv in Hs; destruct Hs as [_ Hs]
  end.
  subst. rewrite Hkept. simpl. f_equal; lia.
Qed.

End Totals.

(** X14. The size that a run reports, when its [try] block reached its
    end, is the sum of the sizes of the subvolumes that succeeded; a
    subvolume that failed adds nothing. *)
Theorem reported_size_is_the_sum
        (env : Env) (settings : Settings.t) (backup_type : option BackupType)
        (force_full : bool) (w : World) (res : BackupResult.t) (w' : World) :
  perform_backup env settings backup_type force_full w = (Return res, w') ->
  BackupResult.error_message res = None ->
  BackupResult.size_bytes res = Some (sent_bytes (BackupResult.subvolumes res)).
Proof.
  unfold perform_backup. intros H Herr.
  repeat step_Return H.
  apply get_inv in H. destruct H as [Hres Hw'].
  match type of Hw' with _ = ?x => subst x end.
  inversion Hres; subst res; clear Hres.
  match goal with
  | Hf : try_finally _ _ _ = _ |- _ => unfold try_finally in Hf; rename Hf into Hrun
  end.
  match type of Hrun with
  | context [try_except ?m ?h ?w0] => destruct (try_except m h w0) as [r1 wt] eqn:Htry
  end.
  match type of Hrun with
  | context [bind ?m ?k wt] => destruct (bind m k wt) as [[u2 | e2] wf] eqn:Hfin
  end; [ | discriminate].
  injection Hrun as Hr1 Hwf. subst r1 wf.
  apply bind_Return_inv in Hfin. destruct Hfin as (u3 & w3 & Hsave & Hcur).
  apply modify_inv in Hcur. destruct Hcur as [_ ->]. simpl in *.
  apply _save_backup_history_inv in Hsave.
  destruct Hsave as [_ [(e & He & _) | (_ & _ & Hresult)]]; [discriminate | ].
  cbv zeta in Hresult. rewrite Hresult in *. simpl in *.
  apply try_except_inv in Htry. destruct Htry as [(a & Hbody & _) | (e & wb & _ & Hh)].
  - eapply perform_backup_body_total. exact Hbody.
  - exfalso.
    repeat step_any Hh.
    all: repeat match goal with
           | Hm : set_status _ _ = _ |- _ =>
               unfold set_status in Hm; apply modify_inv in Hm; destruct Hm as [? ?]
           | Hm : set_error_message _ _ = _ |- _ =>
               unfold set_error_message in Hm; apply modify_inv in Hm; destruct Hm as [? ?]
           | Hm : datetime_utcnow _ _ = _ |- _ =>
               apply datetime_utcnow_inv in Hm; destruct Hm as [? ?]
           | Hm : ret _ _ = _ |- _ => apply ret_inv in Hm; destruct Hm as [? ?]
           end; subst; try discriminate.
Qed.

Lemma reported_size_is_the_sum_witness :
  BackupResult.size_bytes partial_result = Some 4096%Z.
Proof.
  rewrite (reported_size_is_the_sum
             (Scenario.transfer_fails_at Scenario.june15 22) Scenario.settings
             None false (Scenario.at_rest [] [] []) partial_result partial_world).
  - reflexivity.
  - vm_compute. reflexivity.
  - reflexivity.
Defined.

(** ** The listing of the snapshots ([list_snapshots]) *)

Lemma split_on_plain (c : ascii) (s : string) :
  Str.count s c = 0 -> split_on c s = [s].
Proof.
  induction s as [| a s IH]; simpl; [reflexivity | ].
  destruct (Ascii.eqb a c); simpl; [discriminate | ].
  intros H. rewrite IH; [reflexivity | exact H].
Qed.

Lemma split_on_app (c : ascii) (a rest : string) :
  Str.count a c = 0 -> split_on c (a ++ String c rest) = a :: split_on c rest.
Proof.
  induction a as [| x a IH]; simpl.
  - intros _. rewrite Ascii.eqb_refl. reflexivity.
  - destruct (Ascii.eqb x c); simpl; [discriminate | ].
    intros H. rewrite IH; [reflexivity | exact H].
Qed.

Lemma count_app (c : ascii) (a b : string) :
  Str.count (a ++ b) c = Str.count a c + Str.count b c.
Proof. induction a as [| x a IH]; simpl; [reflexivity | rewrite IH; lia]. Qed.

(** The name that [_create_snapshot] gives is taken apart again. *)
Lemma split_on_snapshot_name (subvol day time : string) :
  Str.count subvol "_" = 0 -> Str.count day "_" = 0 -> Str.count time "_" = 0 ->
  split_on "_" (subvol ++ "_" ++ day ++ "_" ++ time) = [subvol; day; time] /\
  Str.count (subvol ++ "_" ++ day ++ "_" ++ time) "_" = 2.
Proof.
  intros Hs Hd Ht. split.
  - change (subvol ++ "_" ++ day ++ "_" ++ time)
      with (subvol ++ String "_" (day ++ String "_" time)).
    rewrite split_on_app by exact Hs. rewrite split_on_app by exact Hd.
    rewrite split_on_plain by exact Ht. reflexivity.
  - rewrite !count_app. simpl. rewrite Hs, Hd, Ht. reflexivity.
Qed.

(** No snapshot is followed by one that was created later. *)
Fixpoint created_descend (l : list SnapshotInfo.t) : Prop :=
  match l with
  | [] => True
  | a :: l' =>
      (forall x, In x l' -> Qltb (SnapshotInfo.created a) (SnapshotInfo.created x) = false) /\
      created_descend l'
  end.

Lemma insert_by_created_desc_In (x : SnapshotInfo.t) (l : list SnapshotInfo.t)
      (y : SnapshotInfo.t) :
  In y (insert_by_created_desc x l) <-> y = x \/ In y l.
Proof.
  induction l as [| a l IH]; simpl.
  - intuition.
  - destruct (Qltb (SnapshotInfo.created x) (SnapshotInfo.created a)); simpl.
    + rewrite IH. intuition.
    + intuition.
Qed.

Lemma sort_by_created_desc_In (l : list SnapshotInfo.t) (y : SnapshotInfo.t) :
  In y (sort_by_created_desc l) <-> In y l.
Proof.
  induction l as [| a l IH]; simpl; [tauto | ].
  rewrite insert_by_created_desc_In, IH. intuition.
Qed.

Lemma Qltb_false (a b : Q) : Qltb a b = false <-> (b <= a)%Q.
Proof.
  unfold Qltb. rewrite Bool.negb_false_iff. apply Qle_bool_iff.
Qed.

Lemma insert_by_created_desc_descend (x : SnapshotInfo.t) (l : list SnapshotInfo.t) :
  created_descend l -> created_descend (insert_by_created_desc x l).
Proof.
  induction l as [| a l IH]; simpl.
  - intros _. split; [intros y [] | exact I].
  - intros [Ha Hl].
    destruct (Qltb (SnapshotInfo.created x) (SnapshotInfo.created a)) eqn:Hxa; simpl.
    + split; [ | apply IH; exact Hl].
      intros y Hy. apply insert_by_created_desc_In in Hy. destruct Hy as [-> | Hy]; [ | auto].
      apply Qltb_false. apply Qltb_lt in Hxa. apply Qlt_le_weak. exact Hxa.
    + split; [ | split; assumption].
      intros y [<- | Hy]; [exact Hxa | ].
      apply Qltb_false. apply Qltb_false in Hxa. specialize (Ha y Hy).
      apply Qltb_false in Ha. eapply Qle_trans; eauto.
Qed.

Lemma sort_by_created_desc_descend (l : list SnapshotInfo.t) :
  created_descend (sort_by_created_desc l).
Proof.
  induction l as [| a l IH]; simpl; [exact I | ].
  apply insert_by_created_desc_descend. exact IH.
Qed.

Section ListingFacts.
Variable env : Env.
Variable settings : Settings.t.
Variable du : nat -> string -> option Z.

Lemma list_entry_inv entry snapshots w :
  exists l w',
    list_entry env settings du entry snapshots w = (Return l, w') /\
    quiet w w' /\
    (l = snapshots \/
     exists subvol part1 part2 rest size,
       DirEntry.is_dir entry = true /\
       split_on "_" (DirEntry.name entry) = subvol :: part1 :: part2 :: rest /\
       l = (snapshots
              ++ [SnapshotInfo.mk subvol (entry_path settings entry) (part1 ++ "_" ++ part2)
                                  size (DirEntry.st_ctime entry)])%list).
Proof.
  unfold list_entry.
  destruct (DirEntry.is_dir entry) eqn:Hdir;
    destruct (2 <=? Str.count (DirEntry.name entry) "_")%nat eqn:Hcount; cbn [andb];
    try (exists snapshots, w; split; [reflexivity | ]; split; [apply frame_refl | auto]).
  destruct (split_on "_" (DirEntry.name entry)) as [| subvol [| part1 [| part2 rest]]] eqn:Hs;
    try (exists snapshots, w; split; [reflexivity | ]; split; [apply frame_refl | auto]).
  unfold _get_snapshot_size.
  pose proof (await_quiet env w) as Hq.
  unfold bind. destruct (await env w) as [[t | e] w1] eqn:Ha.
  - simpl in Hq. eexists _, w1. split; [reflexivity | ]. split; [exact Hq | ].
    right. exists subvol, part1, part2, rest. eexists. auto.
  - unfold await in Ha. inversion Ha.
Qed.

Lemma list_loop_inv entries : forall snapshots w,
  exists l w',
    list_loop env settings du entries snapshots w = (Return l, w') /\
    quiet w w' /\
    (forall x, In x snapshots -> In x l) /\
    (forall entry subvol part1 part2 rest,
       In entry entries -> DirEntry.is_dir entry = true ->
       (2 <=? Str.count (DirEntry.name entry) "_")%nat = true ->
       split_on "_" (DirEntry.name entry) = subvol :: part1 :: part2 :: rest ->
       exists item,
         In item l /\
         SnapshotInfo.subvolume item = subvol /\
         SnapshotInfo.timestamp item = part1 ++ "_" ++ part2 /\
         SnapshotInfo.path item = entry_path settings entry /\
         SnapshotInfo.created item = DirEntry.st_ctime entry) /\
    (forall item, In item l ->
       In item snapshots \/
       exists entry, In entry entries /\ DirEntry.is_dir entry = true /\
                     SnapshotInfo.path item = entry_path settings entry).
Proof.
  induction entries as [| entry entries IH]; intros snapshots w; cbn [list_loop].
  - exists snapshots, w. split; [reflexivity | ]. split; [apply frame_refl | ].
    split; [auto | ]. split; [intros ? ? ? ? ? [] | auto].
  - pose proof (list_entry_inv entry snapshots w) as (l1 & w1 & H1 & Hq1 & Hl1).
    destruct (IH l1 w1) as (l & w' & H2 & Hq2 & Hkeep & Hall & Honly).
    exists l, w'. unfold bind. rewrite H1. split; [exact H2 | ].
    split; [eapply frame_trans; eauto | ].
    assert (Hsub : forall x, In x snapshots -> In x l1).
    { destruct Hl1 as [-> | (sv & p1 & p2 & rs & sz & _ & _ & ->)]; [auto | ].
      intros y Hy. apply in_or_app. left. exact Hy. }
    split; [auto | ]. split.
    + intros e subvol part1 part2 rest [<- | Hin] Hdir Hcount Hsplit.
      * revert H1. unfold list_entry. rewrite Hdir, Hcount, Hsplit. cbn [andb].
        unfold _get_snapshot_size, bind, await, ret. intros H1.
        inversion H1; subst l1. eexists. split.
        { apply Hkeep. apply in_or_app. right. left. reflexivity. }
        simpl. auto.
      * apply (Hall e subvol part1 part2 rest Hin Hdir Hcount Hsplit).
    + intros item Hitem. destruct (Honly item Hitem) as [Hin1 | (e & He & Hdir & Hp)].
      * destruct Hl1 as [-> | (sv & p1 & p2 & rest & sz & Hdir & _ & ->)]; [auto | ].
        apply in_app_or in Hin1. destruct Hin1 as [Hin1 | [<- | []]]; [auto | ].
        right. exists entry. simpl. auto.
      * right. exists e. split; [right; exact He | auto].
Qed.

End ListingFacts.

(** X15. [list_snapshots] never raises and changes no store, whatever the
    snapshot directory holds; when there is no such directory the list is
    empty.  Every item listed is a directory of the snapshot directory,
    with the path that [str(entry)] gives, and no item is followed by one
    created later.  A directory whose name is a subvolume, a day and a time
    joined by underscores (the name that [_create_snapshot] gives, when
    none of the three holds an underscore) is listed with that subvolume,
    with the day and the time as its timestamp, with its path and with its
    creation time. *)
Theorem list_snapshots_shows_created_snapshots
        (env : Env) (settings : Settings.t) (du : nat -> string -> option Z) (w : World) :
  exists l w',
    list_snapshots env settings du w = (Return l, w') /\
    quiet w w' /\
    (snapshot_entries w = None -> l = []) /\
    (forall item, In item l ->
       exists entries entry,
         snapshot_entries w = Some entries /\
         In entry entries /\ DirEntry.is_dir entry = true /\
         SnapshotInfo.path item = entry_path settings entry) /\
    created_descend l /\
    (forall entries e subvol day time,
       snapshot_entries w = Some entries ->
       In e entries ->
       DirEntry.is_dir e = true ->
       DirEntry.name e = subvol ++ "_" ++ day ++ "_" ++ time ->
       Str.count subvol "_" = 0 -> Str.count day "_" = 0 -> Str.count time "_" = 0 ->
       exists item,
         In item l /\
         SnapshotInfo.subvolume item = subvol /\
         SnapshotInfo.timestamp item = day ++ "_" ++ time /\
         SnapshotInfo.path item = entry_path settings e /\
         SnapshotInfo.created item = DirEntry.st_ctime e).
Proof.
  destruct (snapshot_entries w) as [entries | ] eqn:Hentries.
  - destruct (list_loop_inv env settings du entries [] w)
      as (l & w' & Hloop & Hq & _ & Hall & Honly).
    exists (sort_by_created_desc l), w'.
    unfold list_snapshots, bind, get. rewrite Hentries, Hloop.
    split; [reflexivity | ]. split; [exact Hq | ]. split; [discriminate | ].
    split; [ | split].
    + intros item Hitem. apply (proj1 (sort_by_created_desc_In _ _)) in Hitem.
      destruct (Honly item Hitem) as [[] | (entry & Hin & Hdir & Hpath)].
      exists entries, entry. auto.
    + apply sort_by_created_desc_descend.
    + intros entries0 e subvol day time Hsome Hin Hdir Hname Hs Hd Ht.
      inversion Hsome; subst entries0; clear Hsome.
      destruct (split_on_snapshot_name subvol day time Hs Hd Ht) as [Hsplit Hcount].
      destruct (Hall e subvol day time [] Hin Hdir) as (item & Hitem & Hrest).
      * rewrite Hname, Hcount. reflexivity.
      * rewrite Hname. exact Hsplit.
      * exists item. split; [apply sort_by_created_desc_In; exact Hitem | exact Hrest].
  - exists [], w. unfold list_snapshots, bind, get, ret. rewrite Hentries.
    split; [reflexivity | ]. split; [apply frame_refl | ]. split; [reflexivity | ].
    split; [intros item [] | ]. split; [exact I | ].
    intros entries e subvol day time Hsome. discriminate.
Qed.

Lemma list_snapshots_shows_created_snapshots_witness :
  exists l w',
    list_snapshots (Scenario.fair Scenario.june15) Scenario.settings (fun _ _ => Some 4096%Z)
                   (Scenario.at_rest [] [] [Scenario.june1_snapshot]) = (Return l, w') /\
    exists item,
      In item l /\ SnapshotInfo.subvolume item = "@" /\
      SnapshotInfo.timestamp item = "20240601_020000" /\
      SnapshotInfo.path item = "/.snapshots/@_20240601_020000".
Proof.
  destruct (list_snapshots_shows_created_snapshots
              (Scenario.fair Scenario.june15) Scenario.settings (fun _ _ => Some 4096%Z)
              (Scenario.at_rest [] [] [Scenario.june1_snapshot]))
    as (l & w' & Hl & _ & _ & _ & _ & Hshown).
  destruct (Hshown [Scenario.june1_snapshot] Scenario.june1_snapshot
                   "@" "20240601" "020000")
    as (item & Hitem & Hsub & Hts & Hpath & _); try reflexivity.
  - left. reflexivity.
  - exists l, w'. split; [exact Hl | ]. exists item.
    split; [exact Hitem | ]. split; [exact Hsub | ]. split; [exact Hts | exact Hpath].
Defined.

(** ** The count of the local aging ([cleanup_old_snapshots]) *)

Section AgingCount.
Variable env : Env.
Variable settings : Settings.t.
Variable days : nat.

Lemma _delete_snapshot_result p w r w' :
  _delete_snapshot env settings p w = (r, w') ->
  exists b,
    r = Return b /\
    snapshot_entries w'
    = (if b
       then option_map (fun l => filter (fun e => negb (named settings l p e)) l)
                       (snapshot_entries w)
       else snapshot_entries w).
Proof.
  unfold _delete_snapshot, bind, await, modify, ret. simpl.
  destruct (btrfs_delete_ok env (tick w));
    destruct (cancel_arrives env (tick w) && is_some (current_backup w)); simpl;
    intros H; inversion H; subst; eexists; split; reflexivity.
Qed.

Lemma filter_other_names (l : list DirEntry.t) (e : DirEntry.t) :
  ~ In (DirEntry.name e) (map DirEntry.name l) ->
  filter (fun x => negb (String.eqb (entry_path settings x) (entry_path settings e))) l = l.
Proof.
  induction l as [| a l IH]; simpl; intros H; [reflexivity | ].
  destruct (String.eqb (entry_path settings a) (entry_path settings e)) eqn:E; simpl.
  - apply String.eqb_eq in E. apply entry_path_inj in E.
    exfalso. apply H. left. exact E.
  - rewrite IH; [reflexivity | ]. intros Hin. apply H. right. exact Hin.
Qed.

(** Removing the path of an entry removes that entry and no other, when
    the names are unique. *)
Lemma filter_one_entry (l : list DirEntry.t) (e : DirEntry.t) :
  NoDup (map DirEntry.name l) -> In e l ->
  let l' := filter (fun x => negb (String.eqb (entry_path settings x)
                                              (entry_path settings e))) l in
  S (length l') = length l /\
  NoDup (map DirEntry.name l') /\
  (forall x, In x l -> x <> e -> In x l') /\
  (forall x, In x l' -> In x l).
Proof.
  intros Hnd Hin. cbv zeta.
  split; [ | split; [ | split]].
  - induction l as [| a l IH]; simpl in *; [contradiction | ].
    inversion Hnd as [| ? ? Hnotin Hnd']; subst.
    destruct (String.eqb (entry_path settings a) (entry_path settings e)) eqn:E; simpl.
    + apply String.eqb_eq in E. apply entry_path_inj in E.
      rewrite filter_other_names; [reflexivity | ]. rewrite <- E. exact Hnotin.
    + destruct Hin as [-> | Hin].
      * rewrite String.eqb_refl in E. discriminate.
      * f_equal. apply IH; assumption.
  - apply NoDup_map_filter. exact Hnd.
  - intros x Hx Hne. apply filter_In. split; [exact Hx | ].
    apply Bool.negb_true_iff. apply String.eqb_neq. intros Heq.
    apply entry_path_inj in Heq. apply Hne.
    eapply same_name_same_entry; eauto.
  - intros x Hx. apply filter_In in Hx. tauto.
Qed.

(** What the loop has kept in order so far: the directory holds every
    entry still to come and every entry that is no snapshot, and the
    entries gone are as many as were counted. *)
Definition counted (total : nat) (l0 todo : list DirEntry.t) (n : nat) (w : World) : Prop :=
  exists cur,
    snapshot_entries w = Some cur /\
    NoDup (map DirEntry.name cur) /\
    length cur + n = total /\
    (forall e, In e cur -> In e l0) /\
    (forall e, In e todo -> In e cur) /\
    (forall e, In e l0 -> looks_like_snapshot e = false -> In e cur).

Lemma counted_quiet total l0 todo n w w' :
  counted total l0 todo n w -> quiet w w' -> counted total l0 todo n w'.
Proof.
  intros (cur & Hc & Hrest) (_ & _ & _ & _ & He & _). exists cur. rewrite He. auto.
Qed.

Lemma counted_delete total l0 entry todo n w r w' :
  counted total l0 (entry :: todo) n w ->
  ~ In entry todo -> looks_like_snapshot entry = true ->
  _delete_snapshot env settings (entry_path settings entry) w = (r, w') ->
  exists ok, r = Return ok /\ counted total l0 todo (if ok then S n else n) w'.
Proof.
  intros (cur & Hc & Hnd & Hlen & Hsub & Htodo & Hother) Hfresh Hlooks H.
  apply _delete_snapshot_result in H. destruct H as (ok & -> & He).
  exists ok. split; [reflexivity | ].
  destruct ok.
  - rewrite Hc in He. simpl in He.
    rewrite (delete_by_str settings cur entry (Htodo entry (or_introl eq_refl))) in He.
    destruct (filter_one_entry cur entry Hnd (Htodo entry (or_introl eq_refl)))
      as (Hl' & Hnd' & Hkeep & Hback).
    eexists. split; [exact He | ]. split; [exact Hnd' | ]. split; [lia | ].
    split; [auto | ]. split.
    + intros e He0. apply Hkeep; [apply Htodo; right; exact He0 | ].
      intros ->. contradiction.
    + intros e He0 Hno. apply Hkeep; [auto | ]. intros ->. congruence.
  - exists cur. rewrite He. split; [exact Hc | ]. split; [exact Hnd | ].
    split; [exact Hlen | ]. split; [exact Hsub | ]. split; [ | exact Hother].
    intros e He0. apply Htodo. right. exact He0.
Qed.

Lemma cleanup_entry_counted total l0 cutoff entry todo n w n' w' :
  counted total l0 (entry :: todo) n w ->
  ~ In entry todo ->
  cleanup_entry env settings days cutoff entry n w = (Return n', w') ->
  counted total l0 todo n' w'.
Proof.
  intros Hinv Hfresh H.
  assert (Hskip : counted total l0 todo n w).
  { destruct Hinv as (cur & Hc & Hnd & Hlen & Hsub & Htodo & Hother).
    exists cur. repeat (split; [assumption | ]). split; [ | exact Hother].
    intros e He0. apply Htodo. right. exact He0. }
  unfold cleanup_entry in H.
  destruct (looks_like_snapshot entry) eqn:Hlooks.
  2: { apply ret_inv in H. destruct H as [H ->]. inversion H; subst. exact Hskip. }
  destruct (Qltb (DirEntry.st_ctime entry) cutoff).
  2: { apply ret_inv in H. destruct H as [H ->]. inversion H; subst. exact Hskip. }
  step_Return H.
  match goal with Hq : query_sent_id env _ _ = _ |- _ =>
    apply query_sent_id_inv in Hq; destruct Hq as [Hquiet _] end.
  match type of H with (match ?o with _ => _ end) _ = _ => destruct o end.
  - step_Return H.
    match goal with Hd : _delete_snapshot _ _ _ _ = _ |- _ =>
      eapply counted_delete in Hd;
        [ | eapply counted_quiet; [exact Hinv | exact Hquiet] | exact Hfresh | exact Hlooks ];
      destruct Hd as (ok & Hok & Hcount) end.
    inversion Hok; subst. apply ret_inv in H. destruct H as [H ->].
    inversion H; subst. exact Hcount.
  - step_Return H.
    match goal with Hd : datetime_now env ?w0 = _ |- _ =>
      pose proof (datetime_now_quiet env w0) as Hq2; rewrite Hd in Hq2; simpl in Hq2 end.
    match type of H with (if ?c then _ else _) _ = _ => destruct c end.
    + step_Return H.
      match goal with Hd : _delete_snapshot _ _ _ _ = _ |- _ =>
        eapply counted_delete in Hd;
          [ | eapply counted_quiet;
              [eapply counted_quiet; [exact Hinv | exact Hquiet] | exact Hq2]
            | exact Hfresh | exact Hlooks ];
        destruct Hd as (ok & Hok & Hcount) end.
      inversion Hok; subst. apply ret_inv in H. destruct H as [H ->].
      inversion H; subst. exact Hcount.
    + apply ret_inv in H. destruct H as [H ->]. inversion H; subst.
      eapply counted_quiet; [eapply counted_quiet; [exact Hskip | exact Hquiet] | exact Hq2].
Qed.

Lemma cleanup_loop_counted total l0 cutoff entries : forall n w n' w',
  NoDup entries ->
  counted total l0 entries n w ->
  cleanup_loop env settings days cutoff entries n w = (Return n', w') ->
  counted total l0 [] n' w'.
Proof.
  induction entries as [| entry rest IH]; intros n w n' w' Hnd Hinv H; simpl in H.
  - apply ret_inv in H. destruct H as [H ->]. inversion H; subst. exact Hinv.
  - inversion Hnd as [| ? ? Hfresh Hnd']; subst.
    step_Return H.
    match goal with Hc : cleanup_entry _ _ _ _ _ _ _ = _ |- _ =>
      eapply cleanup_entry_counted in Hc; [ | exact Hinv | exact Hfresh] end.
    eapply IH; eauto.
Qed.

End AgingCount.

(** X16. The count that [cleanup_old_snapshots] returns is the number of
    entries that it has removed from the snapshot directory, and it removes
    nothing but directories whose name holds two underscores or more: a
    file, or a directory with another name, stays. *)
Theorem cleanup_old_snapshots_counts_its_deletions
        (env : Env) (settings : Settings.t) (days : nat) (w : World)
        (l : list DirEntry.t) (n : nat) (w' : World) :
  snapshot_entries w = Some l ->
  NoDup (map DirEntry.name l) ->
  cleanup_old_snapshots env settings days w = (Return n, w') ->
  exists l',
    snapshot_entries w' = Some l' /\
    length l' + n = length l /\
    (forall e, In e l' -> In e l) /\
    (forall e, In e l -> looks_like_snapshot e = false -> In e l').
Proof.
  intros Hl Hnd H. unfold cleanup_old_snapshots in H.
  step_Return H.
  match goal with Hg : get snapshot_entries _ = _ |- _ =>
    apply get_inv in Hg; destruct Hg as [Hg ->]; inversion Hg; subst; clear Hg end.
  rewrite Hl in H. step_Return H.
  match goal with Hd : datetime_now env _ = _ |- _ =>
    apply datetime_now_inv in Hd; destruct Hd as [Hd ->]; inversion Hd; subst; clear Hd end.
  cbv zeta in H.
  eapply (cleanup_loop_counted env settings days (length l) l) in H.
  - destruct H as (cur & Hc & _ & Hlen & Hsub & _ & Hother).
    exists cur. auto.
  - apply NoDup_of_names. exact Hnd.
  - exists l. simpl. rewrite Hl. repeat split; auto.
Qed.

Lemma cleanup_old_snapshots_counts_its_deletions_witness :
  exists l',
    snapshot_entries
      (snd (cleanup_old_snapshots (Scenario.fair Scenario.june15) Scenario.settings 3
                                  (Scenario.at_rest [Scenario.june1_row] []
                                                    [Scenario.june1_snapshot]))) = Some l' /\
    length l' + 1 = 1.
Proof.
  destruct (cleanup_old_snapshots_counts_its_deletions
              (Scenario.fair Scenario.june15) Scenario.settings 3
              (Scenario.at_rest [Scenario.june1_row] [] [Scenario.june1_snapshot])
              [Scenario.june1_snapshot] 1
              (snd (cleanup_old_snapshots
                      (Scenario.fair Scenario.june15) Scenario.settings 3
                      (Scenario.at_rest [Scenario.june1_row] [] [Scenario.june1_snapshot]))))
    as (l' & Hl' & Hlen & _).
  - reflexivity.
  - repeat constructor. intros [].
  - vm_compute. reflexivity.
  - exists l'. split; [exact Hl' | exact Hlen].
Defined.
